(** * Channel reliability and identity resolution: a shallow embedding

    The development follows the TypeScript sources of the repository:

    - [src/utils/debouncer.ts]   : [createDedupeCache], [createInboundDebouncer]
    - [src/utils/backoff.ts]     : [computeBackoff] (its text is kept in
                                   [src/utils/phone.test.ts], below the tests)
    - [src/utils/creds-queue.ts] : [readCredsJsonRaw], [safeSaveCreds],
                                   [createCredsSaveQueue]
    - [src/channels/whatsapp/outbound.ts] / [utils.ts] : [isLid], [resolveSendJid]
    - [src/channels/whatsapp/inbound/mentions.ts] : [normalizeJid], [detectMention]

    Mutable objects become explicit state that is passed in and returned;
    a thrown exception or a rejected promise becomes a value of [settled]. *)

From Stdlib Require Import ZArith QArith Qround Qminmax Qpower List String Ascii Bool Lia Lqa Permutation.
From stdpp Require Import gmap strings list fin_maps sorting.

Local Open Scope Z_scope.

(** ** JavaScript values shared by all components *)

(** A JavaScript string is a sequence of UTF-16 code units. *)
Abbreviation jsstring := (list N).

(** Literals: every character of a Rocq string is one code unit. *)
Definition js (s : string) : jsstring :=
  map N_of_ascii (list_ascii_of_string s).

(** [if (s)] on a string: the empty string is falsy. *)
Definition truthy (s : jsstring) : bool :=
  match s with [] => false | _ :: _ => true end.

(** [if (s)] on [string | null | undefined]. *)
Definition truthy_opt (s : option jsstring) : bool :=
  match s with Some s => truthy s | None => false end.

Definition jsstring_eqb (a b : jsstring) : bool := bool_decide (a = b).

Fixpoint starts_with (p s : jsstring) : bool :=
  match p, s with
  | [], _ => true
  | _ :: _, [] => false
  | a :: p', b :: s' => (a =? b)%N && starts_with p' s'
  end.

(** [s.includes(p)] *)
Fixpoint includes (p s : jsstring) : bool :=
  starts_with p s ||
  match s with
  | [] => false
  | _ :: s' => includes p s'
  end.

(** [\d] without the unicode flag is [0-9]. *)
Definition is_digit (c : N) : bool := ((48 <=? c) && (c <=? 57))%N.

(** The outcome of a call that may throw, or of an awaited promise. *)
Inductive settled (E A : Type) : Type :=
| Fulfilled (a : A)
| Rejected (e : E).
Arguments Fulfilled {E A} a.
Arguments Rejected {E A} e.

(** ** Deduplication cache ([createDedupeCache], debouncer.ts) *)

Module Dedupe.

Record DedupeCacheOptions : Type := {
  ttlMs : Z;
  maxSize : Z
}.

(** [Map<string, number>]: the entries in insertion order, one per key.
    The order matters for [prune], whose sort is stable. *)
Abbreviation entry := (jsstring * Z)%type.
Abbreviation cache := (list (jsstring * Z)).

Definition empty : cache := [].

(** [cache.get(key)] *)
Fixpoint map_get (key : jsstring) (c : cache) : option Z :=
  match c with
  | [] => None
  | (k, ts) :: rest => if jsstring_eqb k key then Some ts else map_get key rest
  end.

(** [cache.set(key, v)]: an existing key keeps its place, a new one is
    appended. *)
Fixpoint map_set (key : jsstring) (v : Z) (c : cache) : cache :=
  match c with
  | [] => [(key, v)]
  | (k, ts) :: rest =>
      if jsstring_eqb k key then (k, v) :: rest
      else (k, ts) :: map_set key v rest
  end.

(** [cache.delete(key)] *)
Fixpoint map_delete (key : jsstring) (c : cache) : cache :=
  match c with
  | [] => []
  | (k, ts) :: rest =>
      if jsstring_eqb k key then map_delete key rest
      else (k, ts) :: map_delete key rest
  end.

(** [cache.size] *)
Definition size (c : cache) : Z := Z.of_nat (length c).

(** [Array.prototype.sort((a, b) => a[1] - b[1])]: stable, ascending by
    timestamp. *)
Fixpoint insert_by_ts (e : entry) (l : list entry) : list entry :=
  match l with
  | [] => [e]
  | x :: rest =>
      if e.2 <=? x.2 then e :: x :: rest else x :: insert_by_ts e rest
  end.

Definition sort_by_ts (l : list entry) : list entry :=
  fold_right insert_by_ts [] l.

(** [arr.slice(0, n)]: a negative [n] counts from the end. *)
Definition slice0 {A} (n : Z) (l : list A) : list A :=
  if n <? 0 then firstn (length l - Z.to_nat (- n)) l
  else firstn (Z.to_nat n) l.

(** A call [check(key, now)]. *)
Abbreviation call := (option jsstring * Z)%type.

Section WithOptions.
Variable options : DedupeCacheOptions.

(** First loop of [prune]: drop every expired entry. *)
Definition remove_expired (now : Z) (c : cache) : cache :=
  fold_left
    (fun acc e => if now - e.2 >? ttlMs options then map_delete e.1 acc else acc)
    c c.

(** Second part of [prune]: enforce the size cap, oldest first. *)
Definition enforce_max_size (c : cache) : cache :=
  if size c >? maxSize options then
    let sorted := sort_by_ts c in
    let toDelete := slice0 (size c - maxSize options) sorted in
    fold_left (fun acc e => map_delete e.1 acc) toDelete c
  else c.

Definition prune (now : Z) (c : cache) : cache :=
  enforce_max_size (remove_expired now c).

(** [check(key, now)]: the answer and the cache afterwards. *)
Definition check (key : option jsstring) (now : Z) (c : cache) : bool * cache :=
  if negb (truthy_opt key) then (false, c)
  else
    let k := default [] key in
    match map_get k c with
    | Some existing =>
        if now - existing <? ttlMs options
        then (true, map_set k now c)
        else (false, prune now (map_set k now c))
    | None => (false, prune now (map_set k now c))
    end.

(** [clear()] *)
Definition clear (c : cache) : cache := [].

(** A history of calls [check(key, now)] made on one cache, oldest
    first; the result is the cache after the last call. *)
Definition after_calls (calls : list call) (c : cache) : cache :=
  fold_left (fun acc cl => (check cl.1 cl.2 acc).2) calls c.

(** The cache a fresh [createDedupeCache(options)] holds after [calls]. *)
Definition cache_after (calls : list call) : cache :=
  after_calls calls empty.
End WithOptions.

(** The keys a history of calls mentions. *)
Definition keys_of (calls : list call) : gset jsstring :=
  list_to_set (omap fst calls).

(** The keys other than [k] that a history checks with a time of [t0] or
    later: only their entries can follow an entry of [k] stamped [t0] in
    the sort of [prune]. *)
Definition rivals (k : jsstring) (t0 : Z) (calls : list call) : gset jsstring :=
  keys_of (List.filter (fun cl => t0 <=? cl.2) calls) ∖ {[k]}.

End Dedupe.

(** ** JavaScript numbers

    A number is an IEEE-754 double: a finite value, an infinity or NaN.
    A finite double is modelled by its exact rational value, and every
    arithmetic operation returns the double nearest to the exact result
    (round to nearest, ties to even), or an infinity when that is out of
    range.  The two zeros are not told apart: no operation used here
    (there is no division) can observe the sign of a zero. *)

Module JSNumber.

Inductive number : Type :=
| Finite (q : Q)
| PosInfinity
| NegInfinity
| NaN.

(** The same number, whatever fraction denotes it. *)
Definition same (x y : number) : Prop :=
  match x, y with
  | Finite a, Finite b => (a == b)%Q
  | PosInfinity, PosInfinity => True
  | NegInfinity, NegInfinity => True
  | NaN, NaN => True
  | _, _ => False
  end.

Definition is_finite (x : number) : bool :=
  match x with Finite _ => true | _ => false end.

Definition is_NaN (x : number) : bool :=
  match x with NaN => true | _ => false end.

(** [-x] *)
Definition neg (x : number) : number :=
  match x with
  | Finite q => Finite (- q)
  | PosInfinity => NegInfinity
  | NegInfinity => PosInfinity
  | NaN => NaN
  end.

(** [x < y]: false as soon as one side is NaN. *)
Definition lt (x y : number) : bool :=
  match x, y with
  | NaN, _ => false
  | _, NaN => false
  | Finite a, Finite b => negb (Qle_bool b a)
  | _, NegInfinity => false
  | PosInfinity, _ => false
  | _, _ => true
  end.

(** [x <= y] *)
Definition le (x y : number) : bool :=
  match x, y with
  | NaN, _ => false
  | _, NaN => false
  | Finite a, Finite b => Qle_bool a b
  | NegInfinity, _ => true
  | _, PosInfinity => true
  | _, _ => false
  end.

(** [2^k] *)
Definition pow2 (k : Z) : Q := (2 ^ k)%Q.

(** For a positive [q], the [k] with [2^k <= q < 2^(k+1)]. *)
Definition binade (q : Q) : Z :=
  let k0 := Z.log2 (Qnum q) - Z.log2 (Zpos (Qden q)) in
  if Qle_bool (pow2 k0) q then k0 else k0 - 1.

(** The nearest integer, a tie going to the even one. *)
Definition round_half_even (q : Q) : Z :=
  let f := Qfloor q in
  match (q - inject_Z f ?= 1 # 2)%Q with
  | Lt => f
  | Gt => f + 1
  | Eq => if Z.even f then f else f + 1
  end.

(** The doubles around a positive [q] are the multiples of [2^(grid q)]:
    53 significant bits, and no exponent below -1074 (the subnormal
    range). *)
Definition grid (q : Q) : Z := Z.max (binade q - 52) (-1074).

(** The multiple of [2^(grid q)] nearest to a positive [q]. *)
Definition nearest (q : Q) : Q :=
  (inject_Z (round_half_even (q / pow2 (grid q))) * pow2 (grid q))%Q.

(** The double nearest to a positive rational; infinity once the rounded
    value reaches [2^1024]. *)
Definition round_pos (q : Q) : number :=
  if Qle_bool (pow2 1024) (nearest q) then PosInfinity else Finite (nearest q).

(** The double nearest to a rational. *)
Definition RN (q : Q) : number :=
  match (q ?= 0)%Q with
  | Eq => Finite 0
  | Gt => round_pos q
  | Lt => neg (round_pos (- q))
  end.

(** A number that a double holds exactly. *)
Definition representable (x : number) : Prop :=
  match x with
  | Finite q => same (RN q) (Finite q)
  | _ => True
  end.

(** The sign of a number other than NaN. *)
Definition sign (x : number) : comparison :=
  match x with
  | Finite q => (q ?= 0)%Q
  | PosInfinity => Gt
  | NegInfinity => Lt
  | NaN => Eq
  end.

(** [x * y] *)
Definition mul (x y : number) : number :=
  match x, y with
  | NaN, _ => NaN
  | _, NaN => NaN
  | Finite a, Finite b => RN (a * b)
  | _, _ =>
      match sign x, sign y with
      | Eq, _ => NaN
      | _, Eq => NaN
      | Gt, Gt => PosInfinity
      | Lt, Lt => PosInfinity
      | _, _ => NegInfinity
      end
  end.

(** [x + y] *)
Definition add (x y : number) : number :=
  match x, y with
  | NaN, _ => NaN
  | _, NaN => NaN
  | Finite a, Finite b => RN (a + b)
  | PosInfinity, NegInfinity => NaN
  | NegInfinity, PosInfinity => NaN
  | PosInfinity, _ => PosInfinity
  | _, PosInfinity => PosInfinity
  | _, _ => NegInfinity
  end.

(** [x - y] *)
Definition sub (x y : number) : number := add x (neg y).

(** [Math.round(x)]: the nearest integer, a tie going up; an infinity or
    NaN is returned as it is. *)
Definition Math_round (x : number) : number :=
  match x with
  | Finite q => Finite (inject_Z (Qfloor (q + (1 # 2))))
  | _ => x
  end.

(** [Math.min(x, y)] and [Math.max(x, y)]: NaN as soon as one argument is
    NaN. *)
Definition Math_min (x y : number) : number :=
  match x, y with
  | NaN, _ => NaN
  | _, NaN => NaN
  | _, _ => if lt y x then y else x
  end.

Definition Math_max (x y : number) : number :=
  match x, y with
  | NaN, _ => NaN
  | _, NaN => NaN
  | _, _ => if lt x y then y else x
  end.

(** [Math.pow(base, exponent)].  ECMAScript fixes the result for an
    exponent that is NaN (NaN) or zero (1, whatever the base); for the
    other exponents it is the platform's approximation of the power,
    [pow_approx]. *)
Definition Math_pow (pow_approx : number -> number -> number)
  (base exponent : number) : number :=
  match exponent with
  | NaN => NaN
  | Finite e => if Qeq_bool e 0 then Finite 1 else pow_approx base exponent
  | _ => pow_approx base exponent
  end.

(** A platform whose [Math.pow] is exact on whole exponents that are not
    negative: the power is computed exactly and rounded once.  (It says
    nothing of other exponents.) *)
Definition whole_power (base exponent : number) : number :=
  match base, exponent with
  | Finite b, Finite e =>
      if Qeq_bool e (inject_Z (Qfloor e)) && (0 <=? Qfloor e)
      then RN (b ^ Qfloor e) else NaN
  | _, _ => NaN
  end.

End JSNumber.

(** ** Exponential backoff ([computeBackoff], backoff.ts)

    [Math.random()] is the explicit argument [rand], and the platform's
    approximation of powers the parameter [pow_approx]. *)

Module Backoff.
Import JSNumber.

Record BackoffPolicy : Type := {
  initialMs : number;
  maxMs : number;
  factor : number;
  jitter : number
}.

Section WithPlatform.
Variable pow_approx : number -> number -> number.

(** [const exponent = Math.max(attempt - 1, 0)] *)
Definition exponent (attempt : number) : number :=
  Math_max (sub attempt (Finite 1)) (Finite 0).

(** [const base = policy.initialMs * Math.pow(policy.factor, exponent)] *)
Definition base (policy : BackoffPolicy) (attempt : number) : number :=
  mul (initialMs policy) (Math_pow pow_approx (factor policy) (exponent attempt)).

(** [Math.random()] is the argument [rand]. *)
Definition computeBackoff (rand : Q) (policy : BackoffPolicy) (attempt : number)
  : number :=
  let jitterAmount := mul (mul (base policy attempt) (jitter policy)) (Finite rand) in
  Math_min (maxMs policy) (Math_round (add (base policy attempt) jitterAmount)).
End WithPlatform.

End Backoff.

(** ** Linked-identifier resolution ([resolveSendJid], outbound.ts) *)

Module Outbound.

Record LidMapper : Type := {
  selfChatLid : jsstring;
  myNumber : jsstring;
  lidToJid : gmap jsstring jsstring
}.

(** The part of the socket [resolveSendJid] reads:
    [sock.signalRepository?.lidMapping], either of which may be absent. *)
Record SignalRepository : Type := {
  lidMapping : option (gmap jsstring jsstring)
}.

Record WASocket : Type := {
  signalRepository : option SignalRepository
}.

(** The one error [resolveSendJid] throws,
    [Error("Cannot send to unknown LID - no mapping found")]; the line it
    writes to the console beforehand is not modelled. *)
Inductive SendError : Type :=
| UnknownLid.

(** [isLid(remoteJid)] *)
Definition isLid (remoteJid : option jsstring) : bool :=
  match remoteJid with
  | None => false
  | Some j => if negb (truthy j) then false else includes (js "@lid") j
  end.

(** [sock.signalRepository?.lidMapping?.get(chatId)] *)
Definition signal_lookup (sock : WASocket) (chatId : jsstring) : option jsstring :=
  match signalRepository sock with
  | None => None
  | Some repo =>
      match lidMapping repo with
      | None => None
      | Some m => m !! chatId
      end
  end.

Definition resolveSendJid (chatId : jsstring) (sock : WASocket) (lidMapper : LidMapper)
  : settled SendError jsstring :=
  if negb (isLid (Some chatId)) then Fulfilled chatId
  else if jsstring_eqb chatId (selfChatLid lidMapper) && truthy (myNumber lidMapper)
  then Fulfilled (myNumber lidMapper ++ js "@s.whatsapp.net")
  else
    let signalMapping := signal_lookup sock chatId in
    if truthy_opt signalMapping then Fulfilled (default [] signalMapping)
    else
      let manualMapping := lidToJid lidMapper !! chatId in
      if truthy_opt manualMapping then Fulfilled (default [] manualMapping)
      else Rejected UnknownLid.

End Outbound.

(** ** Mention detection ([detectMention], mentions.ts) *)

Module Mentions.

Record MentionConfig : Type := {
  mentionPatterns : list jsstring;
  selfE164 : option jsstring;
  selfJid : option jsstring;
  selfLid : option jsstring
}.

Inductive Method : Type := jid | regex | e164 | reply.

Record MentionDetectionResult : Type := {
  wasMentioned : bool;
  implicitMention : bool;
  method : option Method
}.

(** White space and line terminators removed by [String.prototype.trim]. *)
Definition is_js_space (c : N) : bool :=
  ((9 <=? c) && (c <=? 13) || (c =? 32) || (c =? 160) || (c =? 5760)
   || (8192 <=? c) && (c <=? 8202) || (c =? 8232) || (c =? 8233)
   || (c =? 8239) || (c =? 8287) || (c =? 12288) || (c =? 65279))%N.

Fixpoint trim_start (s : jsstring) : jsstring :=
  match s with
  | [] => []
  | c :: rest => if is_js_space c then trim_start rest else s
  end.

Definition trim (s : jsstring) : jsstring :=
  rev (trim_start (rev (trim_start s))).

(** The class of zero-width code units U+200B..U+200D and U+FEFF. *)
Definition is_zero_width (c : N) : bool :=
  ((8203 <=? c) && (c <=? 8205) || (c =? 65279))%N.

Definition normalizeMentionText (text : jsstring) : jsstring :=
  List.filter (fun c => negb (is_zero_width c)) (trim text).

(** The longest run of digits at the head of [s], and what follows it. *)
Fixpoint span_digits (s : jsstring) : jsstring * jsstring :=
  match s with
  | [] => ([], [])
  | c :: rest =>
      if is_digit c then
        let '(ds, tl) := span_digits rest in (c :: ds, tl)
      else ([], s)
  end.

(** A match of [/:\d+(@|$)/] starting at the head of [s]: the text that
    replaces the match, followed by the rest of the string.  The greedy
    [\d+] never needs to give digits back: after fewer digits the next
    code unit is a digit, which is neither [@] nor the end. *)
Definition match_device_suffix (s : jsstring) : option jsstring :=
  match s with
  | [] => None
  | c :: rest =>
      if (c =? 58)%N then
        match span_digits rest with
        | ([], _) => None
        | (_ :: _, []) => Some []
        | (_ :: _, c' :: tl) => if (c' =? 64)%N then Some (c' :: tl) else None
        end
      else None
  end.

(** [s.replace(/:\d+(@|$)/, '$1')]: only the leftmost match is replaced. *)
Fixpoint remove_device_suffix (s : jsstring) : jsstring :=
  match match_device_suffix s with
  | Some replaced => replaced
  | None =>
      match s with
      | [] => []
      | c :: rest => c :: remove_device_suffix rest
      end
  end.

Definition normalizeJid (j : option jsstring) : jsstring :=
  match j with
  | None => []
  | Some s => if negb (truthy s) then [] else remove_device_suffix s
  end.

Record Params : Type := {
  body : jsstring;
  mentionedJids : option (list jsstring);
  replyToSenderJid : option jsstring;
  replyToSenderE164 : option jsstring;
  config : MentionConfig
}.

Section WithRegExp.
(** [new RegExp(pattern, 'i').test(text)]; [None] when the constructor
    throws on a malformed pattern. *)
Variable regexp_test_i : jsstring -> jsstring -> option bool.

(** The callback of [mentionedJids.some(...)]. *)
Definition mentions_self (cfg : MentionConfig) (j : jsstring) : bool :=
  let selfJidNorm := normalizeJid (selfJid cfg) in
  let selfLidNorm := normalizeJid (selfLid cfg) in
  let jidNorm := normalizeJid (Some j) in
  jsstring_eqb jidNorm selfJidNorm || jsstring_eqb jidNorm selfLidNorm.

(** METHOD 2: the first pattern that compiles and matches wins; a
    pattern that does not compile is skipped (after a console warning). *)
Fixpoint any_pattern_matches (patterns : list jsstring) (bodyClean : jsstring) : bool :=
  match patterns with
  | [] => false
  | pattern :: rest =>
      match regexp_test_i pattern bodyClean with
      | Some true => true
      | Some false | None => any_pattern_matches rest bodyClean
      end
  end.

(** METHOD 3 *)
Definition e164_in_body (cfg : MentionConfig) (bodyClean : jsstring) : bool :=
  match selfE164 cfg with
  | None => false
  | Some e =>
      if truthy e then
        let selfDigits := List.filter is_digit e in
        let bodyDigits := List.filter is_digit bodyClean in
        includes selfDigits bodyDigits
      else false
  end.

(** METHOD 4 *)
Definition isReplyToBot (p : Params) : bool :=
  let cfg := config p in
  let selfJidNorm := normalizeJid (selfJid cfg) in
  let selfLidNorm := normalizeJid (selfLid cfg) in
  let replyJidNorm := normalizeJid (replyToSenderJid p) in
  (truthy replyJidNorm
   && (jsstring_eqb replyJidNorm selfJidNorm || jsstring_eqb replyJidNorm selfLidNorm))
  || (truthy_opt (selfE164 cfg) && truthy_opt (replyToSenderE164 p)
      && bool_decide (selfE164 cfg = replyToSenderE164 p)).

(** Everything after the native-mention block. *)
Definition detect_by_text (p : Params) : MentionDetectionResult :=
  let bodyClean := normalizeMentionText (body p) in
  if any_pattern_matches (mentionPatterns (config p)) bodyClean then
    {| wasMentioned := true; implicitMention := false; method := Some regex |}
  else if e164_in_body (config p) bodyClean then
    {| wasMentioned := true; implicitMention := false; method := Some e164 |}
  else if isReplyToBot p then
    {| wasMentioned := true; implicitMention := true; method := Some reply |}
  else
    {| wasMentioned := false; implicitMention := false; method := None |}.

Definition detectMention (p : Params) : MentionDetectionResult :=
  let has_native_mentions :=
    match mentionedJids p with
    | Some l => (0 <? length l)%nat
    | None => false
    end in
  if has_native_mentions then
    let mentioned := existsb (mentions_self (config p)) (default [] (mentionedJids p)) in
    if mentioned then
      {| wasMentioned := true; implicitMention := false; method := Some jid |}
    else
      {| wasMentioned := false; implicitMention := false; method := None |}
  else detect_by_text p.
End WithRegExp.

End Mentions.

(** ** Values thrown by the modelled code *)

Inductive exn : Type :=
| JsonSyntaxError                 (* thrown by [JSON.parse] *)
| SystemError (code : string)     (* thrown by a [node:fs] call *)
| Thrown (message : string).      (* thrown by a caller-supplied callback *)

(** ** Credential save queue (creds-queue.ts) *)

Module Creds.

(** What a path names on disk. *)
Inductive node : Type :=
| File (bytes : list Byte.byte)
| Directory.

(** A call of [logger.warn(message, error)]. *)
Definition warning : Type := string * exn.

(** The state the queue acts on: the files, and the warnings the injected
    logger has received so far (oldest first). *)
Record world : Type := {
  files : gmap jsstring node;
  warnings : list warning
}.

Record Options : Type := {
  authDir : jsstring;
  credsFilename : jsstring;
  backupFilename : jsstring;
  logger : bool                  (* is [options.logger] present? *)
}.

(** [options.logger?.warn(message, error)] *)
Definition warn (o : Options) (message : string) (error : exn) (w : world) : world :=
  if logger o then {| files := files w; warnings := warnings w ++ [(message, error)] |}
  else w.

Definition with_files (fs : gmap jsstring node) (w : world) : world :=
  {| files := fs; warnings := warnings w |}.

(** [copyFileSync(src, dest)]: [src] must be a regular file and [dest]
    must not be a directory. *)
Definition copyFileSync (src dest : jsstring) (fs : gmap jsstring node)
  : settled exn (gmap jsstring node) :=
  match fs !! src with
  | None => Rejected (SystemError "ENOENT")
  | Some Directory => Rejected (SystemError "EISDIR")
  | Some (File bytes) =>
      match fs !! dest with
      | Some Directory => Rejected (SystemError "EISDIR")
      | _ => Fulfilled (<[dest := File bytes]> fs)
      end
  end.

(** A caller-supplied save operation: it acts on the files and settles. *)
Definition SaveOp : Type := gmap jsstring node -> settled exn unit * gmap jsstring node.

(** A promise of the chain: run from the current world, it settles and
    leaves a new world. *)
Definition Promise : Type := world -> settled exn unit * world.

Definition resolved : Promise := fun w => (Fulfilled tt, w).

(** [p.then(() => f())] *)
Definition then_ (p f : Promise) : Promise :=
  fun w =>
    match p w with
    | (Fulfilled _, w1) => f w1
    | (Rejected e, w1) => (Rejected e, w1)
    end.

(** [p.catch((err) => { h(err) })] *)
Definition catch_ (p : Promise) (h : exn -> world -> world) : Promise :=
  fun w =>
    match p w with
    | (Fulfilled a, w1) => (Fulfilled a, w1)
    | (Rejected e, w1) => (Fulfilled tt, h e w1)
    end.

Section WithPlatform.
(** [path.resolve(dir, name)] *)
Variable resolve : jsstring -> jsstring -> jsstring.
(** [readFileSync(path, "utf-8")] decodes the bytes of the file. *)
Variable utf8_decode : list Byte.byte -> jsstring.
(** Does [JSON.parse(raw)] return (rather than throw)? *)
Variable JSON_parse_ok : jsstring -> bool.

(** [readCredsJsonRaw(filePath)]; [stats.size] counts bytes. *)
Definition readCredsJsonRaw (filePath : jsstring) (fs : gmap jsstring node)
  : option jsstring :=
  match fs !! filePath with
  | None => None
  | Some Directory => None
  | Some (File bytes) =>
      if Z.of_nat (length bytes) <=? 1 then None
      else Some (utf8_decode bytes)
  end.

(** The best-effort backup block at the head of [safeSaveCreds].  The
    outer [catch (backupErr)] has nothing to catch here: neither
    [readCredsJsonRaw] nor the logger throws. *)
Definition backup_step (o : Options) (w : world) : world :=
  let credsPath := resolve (authDir o) (credsFilename o) in
  let backupPath := resolve (authDir o) (backupFilename o) in
  match readCredsJsonRaw credsPath (files w) with
  | Some raw =>
      if truthy raw then
        if JSON_parse_ok raw then
          match copyFileSync credsPath backupPath (files w) with
          | Fulfilled fs' => with_files fs' w
          | Rejected parseErr =>
              warn o "Current credentials file is corrupted, preserving existing backup"
                parseErr w
          end
        else
          warn o "Current credentials file is corrupted, preserving existing backup"
            JsonSyntaxError w
      else w
  | None => w
  end.

Definition safeSaveCreds (saveCreds : SaveOp) (o : Options) : Promise :=
  fun w =>
    let w1 := backup_step o w in
    match saveCreds (files w1) with
    | (Fulfilled _, fs2) => (Fulfilled tt, with_files fs2 w1)
    | (Rejected saveErr, fs2) =>
        (Rejected saveErr, warn o "Failed to save credentials" saveErr (with_files fs2 w1))
    end.

(** [createCredsSaveQueue(options)]: the state is the promise [queue]. *)
Definition initial_queue : Promise := resolved.

Definition enqueue (o : Options) (saveCreds : SaveOp) (queue : Promise) : Promise :=
  catch_ (then_ queue (safeSaveCreds saveCreds o))
    (fun err => warn o "Credential save queue error" err).

(** [flush()]: [await queue]. *)
Definition flush (queue : Promise) : Promise := queue.

(** The queue after a series of [enqueue] calls, oldest first. *)
Definition enqueue_all (o : Options) (ops : list SaveOp) (queue : Promise) : Promise :=
  fold_left (fun q op => enqueue o op q) ops queue.

(** One queued operation run to completion, as the chain runs it. *)
Definition run_one (o : Options) (w : world) (op : SaveOp) : world :=
  match safeSaveCreds op o w with
  | (Fulfilled _, w1) => w1
  | (Rejected e, w1) => warn o "Credential save queue error" e w1
  end.
End WithPlatform.

End Creds.

(** ** Inbound debouncer ([createInboundDebouncer], debouncer.ts) *)

Module Debouncer.

Section WithItem.
Variable T : Type.

Record DebounceBuffer : Type := {
  items : list T;
  timeout : option Z           (* when the pending timer is due *)
}.

Record DebouncerOptions : Type := {
  debounceMs : Z;
  buildKey : T -> option jsstring;
  shouldDebounce : option (T -> bool);
  onFlush : list T -> settled exn unit;
  onError : bool               (* is [options.onError] present? *)
}.

(** The debouncer's buffers, the clock, and what the callbacks have
    received so far (oldest first). *)
Record state : Type := {
  buffers : gmap jsstring DebounceBuffer;
  clock : Z;
  flushed : list (list T);          (* calls [onFlush(items)] *)
  reported : list (exn * list T)    (* calls [onError(err, items)] *)
}.

Variable options : DebouncerOptions.

(** [Math.max(0, Math.trunc(options.debounceMs))] *)
Definition window : Z := Z.max 0 (debounceMs options).

Definition set_buffers (b : gmap jsstring DebounceBuffer) (st : state) : state :=
  {| buffers := b; clock := clock st; flushed := flushed st; reported := reported st |}.

(** [await options.onFlush(items)] *)
Definition call_onFlush (batch : list T) (st : state) : settled exn unit * state :=
  (onFlush options batch,
   {| buffers := buffers st; clock := clock st;
      flushed := flushed st ++ [batch]; reported := reported st |}).

(** [options.onError?.(err, items)] *)
Definition call_onError (err : exn) (batch : list T) (st : state) : state :=
  if onError options then
    {| buffers := buffers st; clock := clock st;
       flushed := flushed st; reported := reported st ++ [(err, batch)] |}
  else st.

Definition flushBuffer (key : jsstring) (buffer : DebounceBuffer) (st : state)
  : settled exn unit * state :=
  let st1 := set_buffers (delete key (buffers st)) st in
  if (length (items buffer) =? 0)%nat then (Fulfilled tt, st1)
  else
    match call_onFlush (items buffer) st1 with
    | (Fulfilled _, st2) => (Fulfilled tt, st2)
    | (Rejected err, st2) => (Fulfilled tt, call_onError err (items buffer) st2)
    end.

Definition flushKey (key : jsstring) (st : state) : settled exn unit * state :=
  match buffers st !! key with
  | None => (Fulfilled tt, st)
  | Some buffer => flushBuffer key buffer st
  end.

(** [scheduleFlush]: the buffer's timer is (re)started. *)
Definition scheduleFlush (key : jsstring) (buffer : DebounceBuffer) (st : state) : state :=
  set_buffers
    (<[key := {| items := items buffer; timeout := Some (clock st + window) |}]> (buffers st))
    st.

(** The timer callback [() => void flushBuffer(key, buffer)]. *)
Definition on_timeout (key : jsstring) (st : state) : state :=
  match buffers st !! key with
  | Some buffer =>
      match timeout buffer with
      | Some due => if due <=? clock st then (flushBuffer key buffer st).2 else st
      | None => st
      end
  | None => st
  end.

Definition enqueue (item : T) (st : state) : settled exn unit * state :=
  let key := buildKey options item in
  let canDebounce :=
    (0 <? window)
    && match shouldDebounce options with Some f => f item | None => true end in
  if negb canDebounce || negb (truthy_opt key) then
    let '(r1, st1) :=
      if truthy_opt key && bool_decide (is_Some (buffers st !! default [] key))
      then flushKey (default [] key) st
      else (Fulfilled tt, st) in
    match r1 with
    | Rejected e => (Rejected e, st1)
    | Fulfilled _ => call_onFlush [item] st1
    end
  else
    let k := default [] key in
    match buffers st !! k with
    | Some existing =>
        (Fulfilled tt,
         scheduleFlush k {| items := items existing ++ [item]; timeout := timeout existing |} st)
    | None =>
        (Fulfilled tt, scheduleFlush k {| items := [item]; timeout := None |} st)
    end.
End WithItem.

End Debouncer.

(** ** Sample inputs used by the examples below *)

Definition not_mentioned : Mentions.MentionDetectionResult :=
  {| Mentions.wasMentioned := false; Mentions.implicitMention := false;
     Mentions.method := None |}.

(** The bot of the repository's tests (its address carrying a device
    suffix), and a message whose text names the bot while its native mention
    list names somebody else. *)
Definition baseConfig : Mentions.MentionConfig :=
  {| Mentions.mentionPatterns := [js "@?bot"; js "@?lettabot"];
     Mentions.selfE164 := Some (js "+15551234567");
     Mentions.selfJid := Some (js "15551234567:3@s.whatsapp.net");
     Mentions.selfLid := Some (js "214542927831175@lid") |}.

Definition third_party_mention : Mentions.Params :=
  {| Mentions.body := js "hey bot, call 15551234567";
     Mentions.mentionedJids := Some [js "9876543210:25@s.whatsapp.net"];
     Mentions.replyToSenderJid := Some (js "15551234567@s.whatsapp.net");
     Mentions.replyToSenderE164 := Some (js "+15551234567");
     Mentions.config := baseConfig |}.

(** Stand-ins for the platform functions of the credential queue, used by
    the examples only: paths are joined with a slash, bytes are decoded one
    code unit each, and a text counts as JSON when it is wrapped in braces. *)
Definition sample_resolve (dir name : jsstring) : jsstring :=
  dir ++ js "/" ++ name.

Definition sample_decode (bytes : list Byte.byte) : jsstring :=
  map Byte.to_N bytes.

Definition sample_JSON_parse_ok (raw : jsstring) : bool :=
  starts_with (js "{") raw && starts_with (js "}") (rev raw).

Definition sample_options : Creds.Options :=
  {| Creds.authDir := js "/data/session";
     Creds.credsFilename := js "creds.json";
     Creds.backupFilename := js "creds.json.backup";
     Creds.logger := true |}.

Definition creds_path : jsstring := js "/data/session/creds.json".
Definition backup_path : jsstring := js "/data/session/creds.json.backup".

(** A session directory whose main file is corrupted and whose backup is
    good. *)
Definition corrupted_main : Creds.world :=
  {| Creds.files :=
       <[creds_path := Creds.File (list_byte_of_string "{oops")]>
         (<[backup_path := Creds.File (list_byte_of_string "{}")]> ∅);
     Creds.warnings := [] |}.

(** A save operation that writes fresh credentials, and one that fails. *)
Definition save_fresh : Creds.SaveOp :=
  fun fs => (Fulfilled tt, <[creds_path := Creds.File (list_byte_of_string "{new}")]> fs).

Definition save_failing : Creds.SaveOp :=
  fun fs => (Rejected (Thrown "disk full"), fs).

(** A debouncer with debouncing disabled whose batch handler throws. *)
Definition failing_debouncer : Debouncer.DebouncerOptions jsstring :=
  {| Debouncer.debounceMs := 0;
     Debouncer.buildKey := fun _ => Some (js "chat:user");
     Debouncer.shouldDebounce := None;
     Debouncer.onFlush := fun _ => Rejected (Thrown "handler failed");
     Debouncer.onError := true |}.

(** The same handler behind a two-second window. *)
Definition failing_debouncer_2s : Debouncer.DebouncerOptions jsstring :=
  {| Debouncer.debounceMs := 2000;
     Debouncer.buildKey := fun _ => Some (js "chat:user");
     Debouncer.shouldDebounce := None;
     Debouncer.onFlush := fun _ => Rejected (Thrown "handler failed");
     Debouncer.onError := true |}.

Definition idle_debouncer : Debouncer.state jsstring :=
  {| Debouncer.buffers := ∅; Debouncer.clock := 0;
     Debouncer.flushed := []; Debouncer.reported := [] |}.

(** ** Time-based set ([createTtlSet], debouncer.ts)

    [Date.now()] is the explicit argument [now]. *)

Module TtlSet.

Section WithTtl.
Variable ttlMs : Z.

(** [add(key)] *)
Definition add (key : jsstring) (now : Z) (c : gmap jsstring Z) : gmap jsstring Z :=
<[key := now]> c.

(** [has(key)]: the answer and the set afterwards.  A stored timestamp of
0 is falsy, so [!timestamp] treats it like a missing entry. *)
Definition has (key : jsstring) (now : Z) (c : gmap jsstring Z) : bool * gmap jsstring Z :=
match c !! key with
| None => (false, c)
| Some timestamp =>
  if timestamp =? 0 then (false, c)
  else if now - timestamp >? ttlMs then (false, delete key c)
  else (true, c)
end.

(** [delete(key)] *)
Definition remove (key : jsstring) (c : gmap jsstring Z) : gmap jsstring Z :=
delete key c.

(** [clear()] *)
Definition clear (c : gmap jsstring Z) : gmap jsstring Z := ∅.

(** [size()] *)
Definition size (c : gmap jsstring Z) : Z := Z.of_nat (base.size c).
End WithTtl.

End TtlSet.

(** ** Reconnect manager ([createReconnectManager], backoff.ts)

    The state is the counter [attempts]; every method returns its result
    and the counter afterwards. *)

Module Reconnect.

(** [ReconnectPolicy extends BackoffPolicy] *)
Record ReconnectPolicy : Type := {
backoff : Backoff.BackoffPolicy;
maxAttempts : Z
}.

Definition initial : Z := 0.

Definition getAttempts (attempts : Z) : Z := attempts.

(** [++attempts] *)
Definition increment (attempts : Z) : Z * Z := (attempts + 1, attempts + 1).

Definition reset (attempts : Z) : Z := 0.

Definition isExhausted (policy : ReconnectPolicy) (attempts : Z) : bool :=
maxAttempts policy <=? attempts.

(** [attempts++; return computeBackoff(policy, attempts)].  The counter
  is a whole number; a double holds it exactly as long as it does not
  exceed [2^53]. *)
Definition nextDelay (pow_approx : JSNumber.number -> JSNumber.number -> JSNumber.number)
(rand : Q) (policy : ReconnectPolicy) (attempts : Z) : JSNumber.number * Z :=
(Backoff.computeBackoff pow_approx rand (backoff policy)
 (JSNumber.Finite (inject_Z (attempts + 1))),
attempts + 1).

(** [n] calls of [increment] in a row. *)
Definition increments (n : nat) (attempts : Z) : Z :=
Nat.iter n (fun a => (increment a).2) attempts.

(** Calls of [nextDelay] in a row, one random draw each: the delays
  returned and the counter afterwards. *)
Fixpoint nextDelays (pow_approx : JSNumber.number -> JSNumber.number -> JSNumber.number)
(rands : list Q) (policy : ReconnectPolicy) (attempts : Z)
: list JSNumber.number * Z :=
match rands with
| [] => ([], attempts)
| rand :: rest =>
    let '(delay, attempts1) := nextDelay pow_approx rand policy attempts in
    let '(delays, attempts2) := nextDelays pow_approx rest policy attempts1 in
    (delay :: delays, attempts2)
end.

End Reconnect.

(** ** Recovery of the credentials ([maybeRestoreCredsFromBackup],
    creds-queue.ts) *)

Module Restore.

(** A call of the injected logger. *)
Inductive log_event : Type :=
| Logged (message : string)                 (* [logger.log(message)] *)
| Warned (message : string) (error : exn).  (* [logger.warn(message, error)] *)

Section WithPlatform.
Variable resolve : jsstring -> jsstring -> jsstring.
Variable utf8_decode : list Byte.byte -> jsstring.
Variable JSON_parse_ok : jsstring -> bool.

(** What the logger receives, if there is one. *)
Definition emit (o : Creds.Options) (e : log_event) : list log_event :=
if Creds.logger o then [e] else [].

(** The first [try] block: is the main file read and does it parse? *)
Definition main_is_good (o : Creds.Options) (fs : gmap jsstring Creds.node) : bool :=
let credsPath := resolve (Creds.authDir o) (Creds.credsFilename o) in
match Creds.readCredsJsonRaw utf8_decode credsPath fs with
| Some raw => truthy raw && JSON_parse_ok raw
| None => false
end.

(** The answer, the files afterwards and the logger calls made. *)
Definition maybeRestoreCredsFromBackup (o : Creds.Options) (fs : gmap jsstring Creds.node)
: bool * gmap jsstring Creds.node * list log_event :=
let credsPath := resolve (Creds.authDir o) (Creds.credsFilename o) in
let backupPath := resolve (Creds.authDir o) (Creds.backupFilename o) in
if main_is_good o fs then (false, fs, [])
else
match Creds.readCredsJsonRaw utf8_decode backupPath fs with
| Some backupRaw =>
    if truthy backupRaw then
      if JSON_parse_ok backupRaw then
        match Creds.copyFileSync backupPath credsPath fs with
        | Fulfilled fs' =>
            (true, fs', emit o (Logged "Restored credentials from backup"))
        | Rejected err =>
            (false, fs, emit o (Warned "Failed to restore credentials from backup" err))
        end
      else
        (false, fs,
         emit o (Warned "Failed to restore credentials from backup" JsonSyntaxError))
    else (false, fs, [])
| None => (false, fs, [])
end.
End WithPlatform.

End Restore.

(** ** Address helpers (the utilities at the end of outbound.ts) *)

Module Jid.

(** [s.endsWith(suffix)] *)
Definition ends_with (suffix s : jsstring) : bool :=
  starts_with (rev suffix) (rev s).

(** The line terminators, which [.] does not match. *)
Definition is_line_terminator (c : N) : bool :=
  ((c =? 10) || (c =? 13) || (c =? 8232) || (c =? 8233))%N.

(** The text [.*] leaves behind: everything from the first line
    terminator on. *)
Fixpoint skip_line (s : jsstring) : jsstring :=
  match s with
  | [] => []
  | c :: rest => if is_line_terminator c then s else skip_line rest
  end.

(** [s.replace(/@.*/, "")] *)
Fixpoint strip_domain (s : jsstring) : jsstring :=
  match s with
  | [] => []
  | c :: rest => if (c =? 64)%N then skip_line rest else c :: strip_domain rest
  end.

(** [s.replace(/:\d+$/, "")]: the leftmost colon after which only digits,
    and at least one, follow up to the end. *)
Fixpoint strip_device (s : jsstring) : jsstring :=
  match s with
  | [] => []
  | c :: rest =>
      if (c =? 58)%N && truthy rest && forallb is_digit rest then []
      else c :: strip_device rest
  end.

Definition jidToE164 (jid : jsstring) : jsstring :=
  strip_device (strip_domain jid).

(** [normalizeJid] of the utilities: [jid.trim()]. *)
Definition normalizeJid (jid : jsstring) : jsstring := Mentions.trim jid.

Definition isStatusOrBroadcast (remoteJid : option jsstring) : bool :=
  match remoteJid with
  | None => false
  | Some j =>
      if negb (truthy j) then false
      else ends_with (js "@status") j || ends_with (js "@broadcast") j
  end.

Definition isGroupJid (remoteJid : option jsstring) : bool :=
  match remoteJid with
  | None => false
  | Some j => if negb (truthy j) then false else ends_with (js "@g.us") j
  end.

(** The part of a Baileys message [isSelfChatMessage] reads. *)
Record MessageKey : Type := {
  fromMe : option bool;
  remoteJid : option jsstring
}.

Record Message : Type := {
  key : option MessageKey
}.

Definition isSelfChatMessage (message : Message) (myJid myNumber : jsstring)
  (selfChatMode : bool) : bool :=
  match key message with
  | None => false
  | Some k =>
      if negb (default false (fromMe k)) then false
      else
        let remote := default [] (remoteJid k) in
        let isOwnJid :=
          jsstring_eqb remote myJid || jsstring_eqb (strip_domain remote) myNumber in
        let isLidSelfChat := selfChatMode && includes (js "@lid") remote in
        isOwnJid || isLidSelfChat
  end.

End Jid.

(** ** Sending a text message ([sendWhatsAppMessage], outbound.ts) *)

Module Send.

(** The result of [sock.sendMessage]: [result?.key?.id] is what is read. *)
Record SentMessage : Type := {
  key_id : option jsstring
}.

(** The connected socket: the mappings [resolveSendJid] reads and the two
    calls made on it. *)
Record Socket : Type := {
  wa : Outbound.WASocket;
  sendPresenceUpdate : string -> jsstring -> settled exn unit;
  sendMessage : jsstring -> jsstring -> settled exn (option SentMessage)
}.

Record OutboundMessage : Type := {
  chatId : jsstring;
  text : jsstring
}.

Inductive SendFailure : Type :=
| NotConnected                    (* Error("WhatsApp not connected") *)
| Unresolved (e : Outbound.SendError)
| SocketFailure (e : exn).

(** A call made on the socket. *)
Inductive socket_call : Type :=
| Presence (presence : string) (toJid : jsstring)
| Text (toJid : jsstring) (body : jsstring).

(** A clean-up armed with [setTimeout]. *)
Inductive cleanup : Type :=
| ForgetStored (delayMs : Z) (messageId : jsstring)
| ForgetSent (delayMs : Z) (messageId : jsstring).

(** What sending acts on: the set [sentMessageIds], the optional
    [lidMapper.messageStore], the timers armed and the calls made on the
    socket (oldest first). *)
Record state : Type := {
  sentMessageIds : gset jsstring;
  messageStore : option (gmap jsstring SentMessage);
  timers : list cleanup;
  calls : list socket_call
}.

Definition record_call (c : socket_call) (st : state) : state :=
  {| sentMessageIds := sentMessageIds st; messageStore := messageStore st;
     timers := timers st; calls := calls st ++ [c] |}.

(** The bookkeeping after a successful [sock.sendMessage]. *)
Definition track (result : option SentMessage) (st : state) : jsstring * state :=
  let messageId :=
    match result with
    | Some r => if truthy_opt (key_id r) then default [] (key_id r) else []
    | None => []
    end in
  if truthy messageId then
    let st1 :=
      {| sentMessageIds := {[messageId]} ∪ sentMessageIds st;
         messageStore := messageStore st; timers := timers st; calls := calls st |} in
    let st2 :=
      match result, messageStore st1 with
      | Some r, Some store =>
          {| sentMessageIds := sentMessageIds st1;
             messageStore := Some (<[messageId := r]> store);
             timers := timers st1 ++ [ForgetStored (24 * 60 * 60 * 1000) messageId];
             calls := calls st1 |}
      | _, _ => st1
      end in
    (messageId,
     {| sentMessageIds := sentMessageIds st2; messageStore := messageStore st2;
        timers := timers st2 ++ [ForgetSent 60000 messageId]; calls := calls st2 |})
  else (messageId, st).

Definition sendWhatsAppMessage (sock : option Socket) (msg : OutboundMessage)
  (lidMapper : Outbound.LidMapper) (st : state)
  : settled SendFailure jsstring * state :=
  match sock with
  | None => (Rejected NotConnected, st)
  | Some sock =>
      match Outbound.resolveSendJid (chatId msg) (wa sock) lidMapper with
      | Rejected e => (Rejected (Unresolved e), st)
      | Fulfilled targetJid =>
          (* the outcome of the presence update is ignored *)
          let st1 := record_call (Presence "composing" targetJid) st in
          let st2 := record_call (Text targetJid (text msg)) st1 in
          match sendMessage sock targetJid (text msg) with
          | Rejected error => (Rejected (SocketFailure error), st2)
          | Fulfilled result =>
              let '(messageId, st3) := track result st2 in
              (Fulfilled messageId, st3)
          end
      end
  end.

End Send.

(** ** Group gating ([applyGroupGating], group-gating.ts) *)

Module Gating.

Record GroupConfig : Type := {
  requireMention : option bool
}.

Record ReplyContext : Type := {
  senderJid : option jsstring;
  senderE164 : option jsstring
}.

(** The fields of the inbound message that gating reads. *)
Record InboundMessage : Type := {
  body : jsstring;
  mentionedJids : option (list jsstring);
  replyContext : option ReplyContext
}.

Record GroupGatingParams : Type := {
  msg : InboundMessage;
  groupJid : jsstring;
  selfJid : option jsstring;
  selfLid : option jsstring;
  selfE164 : option jsstring;
  groupsConfig : option (gmap jsstring GroupConfig);
  mentionPatterns : option (list jsstring)
}.

Record GroupGatingResult : Type := {
  shouldProcess : bool;
  wasMentioned : option bool;
  reason : option string
}.

(** [groupConfig?.requireMention ?? wildcardConfig?.requireMention ?? true] *)
Definition resolve_requireMention (groups : gmap jsstring GroupConfig)
  (groupJid : jsstring) : bool :=
  match groups !! groupJid ≫= requireMention with
  | Some b => b
  | None =>
      match groups !! js "*" ≫= requireMention with
      | Some b => b
      | None => true
      end
  end.

Section WithRegExp.
Variable regexp_test_i : jsstring -> jsstring -> option bool.

Definition applyGroupGating (params : GroupGatingParams) : GroupGatingResult :=
  let groups := default ∅ (groupsConfig params) in
  let allowlistEnabled := (0 <? base.size groups)%nat in
  let hasWildcard := bool_decide (is_Some (groups !! js "*")) in
  let hasSpecific := bool_decide (is_Some (groups !! groupJid params)) in
  if allowlistEnabled && negb hasWildcard && negb hasSpecific then
    {| shouldProcess := false; wasMentioned := None;
       reason := Some "group-not-in-allowlist"%string |}
  else if negb (resolve_requireMention groups (groupJid params)) then
    {| shouldProcess := true; wasMentioned := Some false; reason := None |}
  else
    let mentionResult :=
      Mentions.detectMention regexp_test_i
        {| Mentions.body := body (msg params);
           Mentions.mentionedJids := mentionedJids (msg params);
           Mentions.replyToSenderJid := replyContext (msg params) ≫= senderJid;
           Mentions.replyToSenderE164 := replyContext (msg params) ≫= senderE164;
           Mentions.config :=
             {| Mentions.mentionPatterns := default [] (mentionPatterns params);
                Mentions.selfE164 := selfE164 params;
                Mentions.selfJid := selfJid params;
                Mentions.selfLid := selfLid params |} |} in
    if negb (Mentions.wasMentioned mentionResult) then
      {| shouldProcess := false; wasMentioned := Some false;
         reason := Some "mention-required"%string |}
    else
      {| shouldProcess := true; wasMentioned := Some true; reason := None |}.
End WithRegExp.

End Gating.

(** ** Phone numbers ([normalizePhoneForStorage], [isSameContact]; the tests
    are in phone.test.ts) *)

Module Phone.

(** [s.replace(pattern, "")] with a string pattern: the first occurrence
    only. *)
Fixpoint remove_first (pattern s : jsstring) : jsstring :=
  if starts_with pattern s then drop (length pattern) s
  else
    match s with
    | [] => []
    | c :: rest => c :: remove_first pattern rest
    end.

(** [s.replace(/^(?!\+)/, '+')] *)
Definition add_plus (s : jsstring) : jsstring :=
  match s with
  | c :: _ => if (c =? 43)%N then s else 43%N :: s
  | [] => [43%N]
  end.

Definition normalizePhoneForStorage (userId : jsstring) : jsstring :=
  add_plus
    (Mentions.trim
       (Jid.strip_device
          (remove_first (js "@lid")
             (remove_first (js "@g.us")
                (remove_first (js "@s.whatsapp.net") userId))))).

Definition isSameContact (id1 id2 : jsstring) : bool :=
  jsstring_eqb (normalizePhoneForStorage id1) (normalizePhoneForStorage id2).

End Phone.

(** ** The debouncer over time *)

Module Timeline.

Section WithItem.
Variable T : Type.
Variable options : Debouncer.DebouncerOptions T.

(** The clock reads [now]. *)
Definition at_time (now : Z) (st : Debouncer.state T) : Debouncer.state T :=
  {| Debouncer.buffers := Debouncer.buffers T st; Debouncer.clock := now;
     Debouncer.flushed := Debouncer.flushed T st;
     Debouncer.reported := Debouncer.reported T st |}.

(** Has the timer of some pending buffer come due by [now]?  The runtime
    then runs its callback ([on_timeout]) first. *)
Definition timer_due (now : Z) (st : Debouncer.state T) : bool :=
  existsb
    (fun kb : jsstring * Debouncer.DebounceBuffer T =>
       match Debouncer.timeout T kb.2 with
       | Some due => due <=? now
       | None => false
       end)
    (map_to_list (Debouncer.buffers T st)).

(** Items arriving one after the other, each at its own time, in a stretch
    of time in which no timer fires: the result is [None] as soon as a
    pending timer has come due by the time of an arrival, since the timer
    callback then runs before the arrival is handled and the run is no
    longer a plain sequence of calls of [enqueue]. *)
Fixpoint arrive (arrivals : list (Z * T)) (st : Debouncer.state T)
  : option (Debouncer.state T) :=
  match arrivals with
  | [] => Some st
  | a :: rest =>
      if timer_due a.1 st then None
      else arrive rest (Debouncer.enqueue T options a.2 (at_time a.1 st)).2
  end.

(** The times of a burst: each arrival comes no earlier than the one
    before it and less than [gap] after it. *)
Fixpoint close_together (gap previous : Z) (times : list Z) : bool :=
  match times with
  | [] => true
  | t :: rest => (previous <=? t) && (t <? previous + gap) && close_together gap t rest
  end.

(** Does [item] take the buffered path of [enqueue], and under which key? *)
Definition debounced_key (item : T) : option jsstring :=
  let key := Debouncer.buildKey T options item in
  if (0 <? Debouncer.window T options)
     && match Debouncer.shouldDebounce T options with Some f => f item | None => true end
     && truthy_opt key
  then key else None.
End WithItem.

End Timeline.

(** A session directory with good credentials and no backup yet, and a
    save operation that dies after writing half of the new file. *)
Definition good_main : Creds.world :=
  {| Creds.files := <[creds_path := Creds.File (list_byte_of_string "{old}")]> ∅;
     Creds.warnings := [] |}.

Definition save_crashing : Creds.SaveOp :=
  fun fs =>
    (Rejected (SystemError "EIO"),
     <[creds_path := Creds.File (list_byte_of_string "{ha")]> fs).

(** A debouncer with a two-second window keyed by the chat whose handler
    succeeds, and one that does not debounce commands. *)
Definition quiet_debouncer : Debouncer.DebouncerOptions jsstring :=
  {| Debouncer.debounceMs := 2000;
     Debouncer.buildKey := fun _ => Some (js "chat:user");
     Debouncer.shouldDebounce := None;
     Debouncer.onFlush := fun _ => Fulfilled tt;
     Debouncer.onError := true |}.

Definition picky_debouncer : Debouncer.DebouncerOptions jsstring :=
  {| Debouncer.debounceMs := 2000;
     Debouncer.buildKey := fun _ => Some (js "chat:user");
     Debouncer.shouldDebounce := Some (fun text => negb (starts_with (js "/") text));
     Debouncer.onFlush := fun _ => Fulfilled tt;
     Debouncer.onError := true |}.

(** The debouncer after three messages of one chat have arrived at 0, 1500
    and 3000, and after two have arrived at 0 and 10. *)
Definition burst_pending : Debouncer.state jsstring :=
  {| Debouncer.buffers :=
       {[ js "chat:user" :=
            {| Debouncer.items := [js "one"; js "two"; js "three"];
               Debouncer.timeout := Some 5000 |} ]};
     Debouncer.clock := 3000;
     Debouncer.flushed := []; Debouncer.reported := [] |}.

Definition two_pending : Debouncer.state jsstring :=
  {| Debouncer.buffers :=
       {[ js "chat:user" :=
            {| Debouncer.items := [js "one"; js "two"];
               Debouncer.timeout := Some 2010 |} ]};
     Debouncer.clock := 10;
     Debouncer.flushed := []; Debouncer.reported := [] |}.

(** A connected socket that accepts every message under the id [MSG1], the
    bot's mappings, and a sender that has sent nothing yet. *)
Definition accepting_socket : Send.Socket :=
  {| Send.wa := {| Outbound.signalRepository := None |};
     Send.sendPresenceUpdate := fun _ _ => Fulfilled tt;
     Send.sendMessage := fun _ _ => Fulfilled (Some {| Send.key_id := Some (js "MSG1") |}) |}.

Definition bot_mapper : Outbound.LidMapper :=
  {| Outbound.selfChatLid := js "214542927831175@lid";
     Outbound.myNumber := js "15551234567";
     Outbound.lidToJid := ∅ |}.

Definition idle_sender : Send.state :=
  {| Send.sentMessageIds := ∅; Send.messageStore := Some ∅;
     Send.timers := []; Send.calls := [] |}.

(** The call of [detectMention] that [applyGroupGating] makes. *)
Definition detection_input (params : Gating.GroupGatingParams) : Mentions.Params :=
  {| Mentions.body := Gating.body (Gating.msg params);
     Mentions.mentionedJids := Gating.mentionedJids (Gating.msg params);
     Mentions.replyToSenderJid :=
       Gating.replyContext (Gating.msg params) ≫= Gating.senderJid;
     Mentions.replyToSenderE164 :=
       Gating.replyContext (Gating.msg params) ≫= Gating.senderE164;
     Mentions.config :=
       {| Mentions.mentionPatterns := default [] (Gating.mentionPatterns params);
          Mentions.selfE164 := Gating.selfE164 params;
          Mentions.selfJid := Gating.selfJid params;
          Mentions.selfLid := Gating.selfLid params |} |}.

(** A group message without mention or reply, and two group
    configurations: a wildcard that requires a mention, and the same with an
    exception for one group. *)
Definition plain_group_message (groups : option (gmap jsstring Gating.GroupConfig))
  : Gating.GroupGatingParams :=
  {| Gating.msg :=
       {| Gating.body := js "good morning everyone";
          Gating.mentionedJids := None; Gating.replyContext := None |};
     Gating.groupJid := js "12345@g.us";
     Gating.selfJid := Some (js "15551234567@s.whatsapp.net");
     Gating.selfLid := None;
     Gating.selfE164 := Some (js "+15551234567");
     Gating.groupsConfig := groups;
     Gating.mentionPatterns := Some [js "@?bot"] |}.

Definition wildcard_only : gmap jsstring Gating.GroupConfig :=
  {[ js "*" := {| Gating.requireMention := Some true |} ]}.

Definition wildcard_with_exception : gmap jsstring Gating.GroupConfig :=
  <[js "12345@g.us" := {| Gating.requireMention := Some false |}]> wildcard_only.

Definition other_group_only : gmap jsstring Gating.GroupConfig :=
  {[ js "99999@g.us" := {| Gating.requireMention := Some false |} ]}.

(** * Properties *)

Set Warnings "-clear-no-such-hyp".

(** ** Identity resolver *)

Section OutboundFacts.
Import Outbound.

Lemma truthy_opt_Some (o : option jsstring) :
  truthy_opt o = true -> exists s, o = Some s /\ s <> [].
Proof.
  destruct o as [[|c s]|]; simpl; intros H; try discriminate.
  exists (c :: s). split; [reflexivity | discriminate].
Qed.

Lemma truthy_opt_None (o : option jsstring) : o = None -> truthy_opt o = false.
Proof. intros ->. reflexivity. Qed.

Lemma truthy_nonempty (s : jsstring) : s <> [] -> truthy s = true.
Proof. destruct s; [congruence | reflexivity]. Qed.

Lemma jsstring_eqb_refl (s : jsstring) : jsstring_eqb s s = true.
Proof. unfold jsstring_eqb. apply bool_decide_eq_true. reflexivity. Qed.

Lemma jsstring_eqb_neq (a b : jsstring) : a <> b -> jsstring_eqb a b = false.
Proof. intros H. unfold jsstring_eqb. apply bool_decide_eq_false. exact H. Qed.

Lemma jsstring_eqb_eq (a b : jsstring) : jsstring_eqb a b = true -> a = b.
Proof. unfold jsstring_eqb. apply bool_decide_eq_true. Qed.
End OutboundFacts.

(** C1, as stated, fails: a linked identifier equal to the self-chat
    identifier is not answered with the bot's own address when the bot's
    number is empty; with no mapping the call throws instead. *)
Lemma resolveSendJid_self_chat_needs_number :
  let chatId := js "123@lid" in
  let lidMapper :=
    {| Outbound.selfChatLid := js "123@lid"; Outbound.myNumber := [];
       Outbound.lidToJid := ∅ |} in
  let sock := {| Outbound.signalRepository := None |} in
  Outbound.isLid (Some chatId) = true /\
  chatId = Outbound.selfChatLid lidMapper /\
  Outbound.resolveSendJid chatId sock lidMapper = Rejected Outbound.UnknownLid /\
  Outbound.resolveSendJid chatId sock lidMapper
    <> Fulfilled (Outbound.myNumber lidMapper ++ js "@s.whatsapp.net").
Proof. repeat split; try reflexivity. vm_compute. discriminate. Qed.

(** C1 (amended): a non-linked identifier is returned unchanged, whatever
    the socket and the mappings hold; the self-chat linked identifier is
    resolved to the bot's own address when the bot's number is known; a
    linked identifier that is not so resolved and has no entry in either
    mapping is rejected; and an address returned for a linked identifier is
    always the bot's own address or the entry of one of the two mappings. *)
Theorem resolveSendJid_fail_safe
  (chatId : jsstring) (sock : Outbound.WASocket) (lidMapper : Outbound.LidMapper) :
  (Outbound.isLid (Some chatId) = false ->
     Outbound.resolveSendJid chatId sock lidMapper = Fulfilled chatId) /\
  (Outbound.isLid (Some chatId) = true ->
     chatId = Outbound.selfChatLid lidMapper ->
     Outbound.myNumber lidMapper <> [] ->
     Outbound.resolveSendJid chatId sock lidMapper
       = Fulfilled (Outbound.myNumber lidMapper ++ js "@s.whatsapp.net")) /\
  (Outbound.isLid (Some chatId) = true ->
     chatId <> Outbound.selfChatLid lidMapper \/ Outbound.myNumber lidMapper = [] ->
     Outbound.signal_lookup sock chatId = None ->
     Outbound.lidToJid lidMapper !! chatId = None ->
     Outbound.resolveSendJid chatId sock lidMapper = Rejected Outbound.UnknownLid) /\
  (forall resolved : jsstring,
     Outbound.isLid (Some chatId) = true ->
     Outbound.resolveSendJid chatId sock lidMapper = Fulfilled resolved ->
     (chatId = Outbound.selfChatLid lidMapper
      /\ resolved = Outbound.myNumber lidMapper ++ js "@s.whatsapp.net")
     \/ Outbound.signal_lookup sock chatId = Some resolved
     \/ Outbound.lidToJid lidMapper !! chatId = Some resolved).
Proof.
  unfold Outbound.resolveSendJid.
  repeat split.
  - intros ->. reflexivity.
  - intros -> Hself Hnum. simpl negb. cbv iota.
    rewrite Hself at 1. rewrite jsstring_eqb_refl, (truthy_nonempty _ Hnum).
    reflexivity.
  - intros -> Hnot Hsig Hman. simpl negb. cbv iota.
    assert (jsstring_eqb chatId (Outbound.selfChatLid lidMapper)
            && truthy (Outbound.myNumber lidMapper) = false) as ->.
    { destruct Hnot as [Hne | Hempty].
      - rewrite (jsstring_eqb_neq _ _ Hne). reflexivity.
      - rewrite Hempty. apply andb_false_r. }
    rewrite Hsig, Hman. reflexivity.
  - intros resolved -> Hres. simpl negb in Hres. cbv iota in Hres.
    destruct (jsstring_eqb chatId (Outbound.selfChatLid lidMapper)
              && truthy (Outbound.myNumber lidMapper)) eqn:Hself.
    + apply andb_true_iff in Hself as [Heq _].
      left. split; [apply jsstring_eqb_eq, Heq | congruence].
    + destruct (truthy_opt (Outbound.signal_lookup sock chatId)) eqn:Hsig.
      * apply truthy_opt_Some in Hsig as (s & Hs & _).
        rewrite Hs in Hres |- *. simpl in Hres. right; left. congruence.
      * destruct (truthy_opt (Outbound.lidToJid lidMapper !! chatId)) eqn:Hman;
          [| discriminate].
        apply truthy_opt_Some in Hman as (s & Hs & _).
        rewrite Hs in Hres |- *. simpl in Hres. right; right. congruence.
Qed.

Lemma resolveSendJid_fail_safe_witness :
  Outbound.resolveSendJid (js "15551234567@s.whatsapp.net")
    {| Outbound.signalRepository := None |}
    {| Outbound.selfChatLid := js "214542927831175@lid";
       Outbound.myNumber := js "15551234567"; Outbound.lidToJid := ∅ |}
  = Fulfilled (js "15551234567@s.whatsapp.net")
  /\
  Outbound.resolveSendJid (js "214542927831175@lid")
    {| Outbound.signalRepository := None |}
    {| Outbound.selfChatLid := js "214542927831175@lid";
       Outbound.myNumber := js "15551234567"; Outbound.lidToJid := ∅ |}
  = Fulfilled (js "15551234567" ++ js "@s.whatsapp.net")
  /\
  Outbound.resolveSendJid (js "999@lid")
    {| Outbound.signalRepository := Some {| Outbound.lidMapping := None |} |}
    {| Outbound.selfChatLid := js "214542927831175@lid";
       Outbound.myNumber := js "15551234567"; Outbound.lidToJid := ∅ |}
  = Rejected Outbound.UnknownLid.
Proof.
  split; [| split].
  - destruct (resolveSendJid_fail_safe (js "15551234567@s.whatsapp.net")
                {| Outbound.signalRepository := None |}
                {| Outbound.selfChatLid := js "214542927831175@lid";
                   Outbound.myNumber := js "15551234567"; Outbound.lidToJid := ∅ |})
      as (Hplain & _).
    apply Hplain. reflexivity.
  - destruct (resolveSendJid_fail_safe (js "214542927831175@lid")
                {| Outbound.signalRepository := None |}
                {| Outbound.selfChatLid := js "214542927831175@lid";
                   Outbound.myNumber := js "15551234567"; Outbound.lidToJid := ∅ |})
      as (_ & Hself & _).
    apply Hself; [reflexivity | reflexivity | discriminate].
  - destruct (resolveSendJid_fail_safe (js "999@lid")
                {| Outbound.signalRepository := Some {| Outbound.lidMapping := None |} |}
                {| Outbound.selfChatLid := js "214542927831175@lid";
                   Outbound.myNumber := js "15551234567"; Outbound.lidToJid := ∅ |})
      as (_ & _ & Hnone & _).
    apply Hnone; [reflexivity | left; vm_compute; discriminate | reflexivity | reflexivity].
Defined.

(** ** Mention detector *)

Lemma existsb_false_forall {A} (f : A -> bool) (l : list A) :
  (forall x, In x l -> f x = false) -> existsb f l = false.
Proof.
  induction l as [| a l IH]; intros H; simpl; [reflexivity |].
  rewrite (H a (or_introl eq_refl)), IH; [reflexivity |].
  intros x Hx. apply H. right. exact Hx.
Qed.

(** C9: a supplied, non-empty native mention list that names neither the
    bot's normalized address nor its normalized linked identifier settles
    the answer as "not mentioned", for every message text, reply context and
    regular-expression engine: the later checks have no say. *)
Theorem detectMention_native_list_without_bot
  (regexp_test_i : jsstring -> jsstring -> option bool)
  (p : Mentions.Params) (mentioned : list jsstring) :
  Mentions.mentionedJids p = Some mentioned ->
  mentioned <> [] ->
  (forall j, In j mentioned ->
     Mentions.normalizeJid (Some j)
       <> Mentions.normalizeJid (Mentions.selfJid (Mentions.config p))
     /\ Mentions.normalizeJid (Some j)
       <> Mentions.normalizeJid (Mentions.selfLid (Mentions.config p))) ->
  Mentions.detectMention regexp_test_i p = not_mentioned.
Proof.
  intros Hlist Hne Hother.
  unfold Mentions.detectMention. rewrite Hlist.
  destruct mentioned as [| j rest]; [congruence |].
  change (0 <? length (j :: rest))%nat with true. cbv iota beta zeta.
  change (default [] (Some (j :: rest))) with (j :: rest).
  rewrite existsb_false_forall; [reflexivity |].
  intros x Hx. destruct (Hother x Hx) as [Hjid Hlid].
  unfold Mentions.mentions_self.
  rewrite (jsstring_eqb_neq _ _ Hjid), (jsstring_eqb_neq _ _ Hlid). reflexivity.
Qed.

Lemma detectMention_native_list_without_bot_witness :
  Mentions.detectMention (fun _ _ => Some true) third_party_mention = not_mentioned
  /\ Mentions.wasMentioned
       (Mentions.detect_by_text (fun _ _ => Some true) third_party_mention) = true.
Proof.
  split.
  - apply (detectMention_native_list_without_bot (fun _ _ => Some true)
             third_party_mention [js "9876543210:25@s.whatsapp.net"]).
    + reflexivity.
    + discriminate.
    + intros j [<- | []]. split; vm_compute; discriminate.
  - reflexivity.
Defined.

(** C10: an empty native mention list is treated exactly like a missing
    one: the answer is the one the pattern, phone-number and reply checks
    give, so the message counts as a mention as soon as one of them fires. *)
Theorem detectMention_empty_native_list
  (regexp_test_i : jsstring -> jsstring -> option bool)
  (body : jsstring) (replyToSenderJid replyToSenderE164 : option jsstring)
  (config : Mentions.MentionConfig) :
  let with_list l :=
    {| Mentions.body := body; Mentions.mentionedJids := l;
       Mentions.replyToSenderJid := replyToSenderJid;
       Mentions.replyToSenderE164 := replyToSenderE164;
       Mentions.config := config |} in
  Mentions.detectMention regexp_test_i (with_list (Some []))
    = Mentions.detectMention regexp_test_i (with_list None)
  /\ Mentions.wasMentioned (Mentions.detectMention regexp_test_i (with_list (Some [])))
     = Mentions.any_pattern_matches regexp_test_i (Mentions.mentionPatterns config)
         (Mentions.normalizeMentionText body)
       || Mentions.e164_in_body config (Mentions.normalizeMentionText body)
       || Mentions.isReplyToBot (with_list (Some [])).
Proof.
  intros with_list. split; [reflexivity |].
  unfold Mentions.detectMention, Mentions.detect_by_text. simpl.
  destruct (Mentions.any_pattern_matches _ _ _); [reflexivity |].
  destruct (Mentions.e164_in_body _ _); [reflexivity |].
  destruct (Mentions.isReplyToBot _); reflexivity.
Qed.

(** ** Deduplication cache: the map operations *)

Section DedupeMap.
Import Dedupe.
Implicit Types (c : cache) (k : jsstring) (e : entry).

Lemma eqb_decide (a b : jsstring) :
  jsstring_eqb a b = if decide (a = b) then true else false.
Proof. unfold jsstring_eqb. destruct (decide (a = b)); [by apply bool_decide_eq_true | by apply bool_decide_eq_false]. Qed.

Lemma map_get_None k c : map_get k c = None <-> k ∉ c.*1.
Proof.
  induction c as [| [k' ts] c IH]; simpl.
  - split; [intros _; apply not_elem_of_nil | done].
  - rewrite eqb_decide. destruct (decide (k' = k)) as [-> | Hne].
    + split; [done | intros H; exfalso; apply H; left].
    + rewrite IH, not_elem_of_cons. intuition congruence.
Qed.

Lemma map_get_Some k c ts : map_get k c = Some ts -> (k, ts) ∈ c.
Proof.
  induction c as [| [k' ts'] c IH]; simpl; [done |].
  rewrite eqb_decide. destruct (decide (k' = k)) as [-> | Hne].
  - intros [= ->]. left.
  - intros H. right. by apply IH.
Qed.

Lemma map_get_unique k c ts ts' :
  NoDup c.*1 -> map_get k c = Some ts -> (k, ts') ∈ c -> ts' = ts.
Proof.
  induction c as [| [k' t'] c IH]; simpl; [done |].
  rewrite NoDup_cons. intros [Hnotin Hnd].
  rewrite eqb_decide. destruct (decide (k' = k)) as [-> | Hne].
  - intros [= ->]. rewrite elem_of_cons. intros [[= ->] | Hin]; [done |].
    exfalso. apply Hnotin. by apply (list_elem_of_fmap_2 fst _ (k, ts')).
  - intros Hget. rewrite elem_of_cons. intros [[= -> _] | Hin]; [done |].
    by apply IH.
Qed.

Lemma map_get_set_eq k v c : map_get k (map_set k v c) = Some v.
Proof.
  induction c as [| [k' ts] c IH]; simpl.
  - by rewrite jsstring_eqb_refl.
  - rewrite eqb_decide. destruct (decide (k' = k)) as [-> | Hne]; simpl.
    + by rewrite jsstring_eqb_refl.
    + by rewrite (jsstring_eqb_neq _ _ Hne).
Qed.

Lemma map_get_set_ne k k' v c : k <> k' -> map_get k (map_set k' v c) = map_get k c.
Proof.
  intros Hne. induction c as [| [k0 ts] c IH]; simpl.
  - by rewrite jsstring_eqb_neq.
  - rewrite (eqb_decide k0 k'). destruct (decide (k0 = k')) as [-> | Hne0]; simpl.
    + by rewrite !(jsstring_eqb_neq k' k).
    + by rewrite IH.
Qed.

Lemma map_set_keys_present k v c : k ∈ c.*1 -> (map_set k v c).*1 = c.*1.
Proof.
  induction c as [| [k' ts] c IH]; [by intros ?%elem_of_nil |].
  cbn [map_set]. rewrite eqb_decide.
  destruct (decide (k' = k)) as [-> | Hne]; [done |].
  rewrite !fmap_cons, elem_of_cons. cbn [fst].
  intros [-> | Hin]; [done |]. by rewrite IH.
Qed.

Lemma map_set_keys_absent k v c : k ∉ c.*1 -> map_set k v c = c ++ [(k, v)].
Proof.
  induction c as [| [k' ts] c IH]; simpl; [done |].
  rewrite not_elem_of_cons. intros [Hne Hnotin].
  rewrite jsstring_eqb_neq by done. by rewrite IH.
Qed.

Lemma map_set_keys k v c : (map_set k v c).*1 ⊆ k :: c.*1.
Proof.
  destruct (decide (k ∈ c.*1)) as [Hin | Hnotin].
  - rewrite map_set_keys_present by done. set_solver.
  - rewrite map_set_keys_absent, fmap_app by done. set_solver.
Qed.

Lemma map_set_NoDup k v c : NoDup c.*1 -> NoDup (map_set k v c).*1.
Proof.
  intros Hnd. destruct (decide (k ∈ c.*1)) as [Hin | Hnotin].
  - by rewrite map_set_keys_present.
  - rewrite map_set_keys_absent, fmap_app by done. simpl.
    apply NoDup_app. split_and!; [done | | apply NoDup_singleton].
    intros x Hx ->%list_elem_of_singleton. done.
Qed.

Lemma map_set_length_present k v c : k ∈ c.*1 -> length (map_set k v c) = length c.
Proof.
  intros Hin. rewrite <- (length_fmap fst (map_set k v c)), <- (length_fmap fst c).
  by rewrite map_set_keys_present.
Qed.

Lemma elem_of_map_delete e k c : e ∈ map_delete k c <-> e ∈ c /\ e.1 <> k.
Proof.
  induction c as [| [k' ts] c IH]; simpl.
  - rewrite elem_of_nil. naive_solver.
  - rewrite eqb_decide. destruct (decide (k' = k)) as [-> | Hne].
    + rewrite IH, elem_of_cons. naive_solver.
    + rewrite !elem_of_cons, IH. naive_solver.
Qed.

Lemma map_get_delete k k' c :
  map_get k (map_delete k' c) = if decide (k = k') then None else map_get k c.
Proof.
  induction c as [| [k0 ts] c IH]; simpl; [by destruct (decide _) |].
  rewrite (eqb_decide k0 k'). destruct (decide (k0 = k')) as [-> | Hne0].
  - rewrite IH. destruct (decide (k = k')) as [-> | Hne]; [done |].
    by rewrite (jsstring_eqb_neq k' k).
  - simpl. rewrite IH. destruct (decide (k = k')) as [-> | Hne]; [| done].
    by rewrite jsstring_eqb_neq.
Qed.

Lemma map_delete_sublist k c : sublist (map_delete k c) c.
Proof.
  induction c as [| [k' ts] c IH]; simpl; [done |].
  destruct (jsstring_eqb k' k); [by apply sublist_cons | by apply sublist_skip].
Qed.

Lemma map_delete_NoDup k c : NoDup c.*1 -> NoDup (map_delete k c).*1.
Proof.
  intros Hnd. eapply sublist_NoDup; [exact Hnd |].
  apply fmap_sublist, map_delete_sublist.
Qed.

Lemma map_delete_length k c :
  NoDup c.*1 -> k ∈ c.*1 -> S (length (map_delete k c)) = length c.
Proof.
  induction c as [| [k' ts] c IH]; simpl; [by intros _ ?%elem_of_nil |].
  rewrite NoDup_cons. intros [Hnotin Hnd].
  rewrite eqb_decide. destruct (decide (k' = k)) as [-> | Hne].
  - intros _. f_equal. clear IH Hnd.
    induction c as [| [k0 t0] c IH]; simpl; [done |].
    simpl in Hnotin. rewrite not_elem_of_cons in Hnotin. destruct Hnotin as [Hne Hnotin].
    rewrite jsstring_eqb_neq by done. simpl. by rewrite IH.
  - rewrite elem_of_cons. intros [-> | Hin]; [done |]. simpl. by rewrite IH.
Qed.
End DedupeMap.

(** ** Deduplication cache: pruning *)

Section DedupePrune.
Import Dedupe.
Implicit Types (c acc : cache) (k : jsstring) (e x : entry) (l : list entry).

(** Both loops of [prune] delete the keys of some of the entries of a
    list: all of them, or those a test selects. *)
Local Abbreviation delete_where P l acc :=
  (fold_left (fun a e => if P e then map_delete e.1 a else a) l acc).

Lemma delete_where_elem (P : entry -> bool) l acc x :
  x ∈ delete_where P l acc <->
  x ∈ acc /\ forall e, e ∈ l -> P e = true -> e.1 <> x.1.
Proof.
  revert acc. induction l as [| e0 l IH]; intros acc; cbn [fold_left].
  - split; [intros H; split; [done | by intros e ?%elem_of_nil] | by intros [H _]].
  - rewrite IH. split.
    + intros [Hin Hl]. destruct (P e0) eqn:HP.
      * apply elem_of_map_delete in Hin as [Hin Hne]. split; [done |].
        intros e [-> | He]%elem_of_cons HPe; [congruence | by apply Hl].
      * split; [done |].
        intros e [-> | He]%elem_of_cons HPe; [congruence | by apply Hl].
    + intros [Hin Hl]. split.
      * destruct (P e0) eqn:HP; [| done].
        apply elem_of_map_delete. split; [done |].
        intros Heq. by apply (Hl e0); [left | | ].
      * intros e He. apply Hl. by right.
Qed.

Lemma delete_where_sublist (P : entry -> bool) l acc :
  sublist (delete_where P l acc) acc.
Proof.
  revert acc. induction l as [| e0 l IH]; intros acc; cbn [fold_left]; [done |].
  etrans; [apply IH |]. destruct (P e0); [apply map_delete_sublist | done].
Qed.

Lemma delete_where_NoDup (P : entry -> bool) l acc :
  NoDup acc.*1 -> NoDup (delete_where P l acc).*1.
Proof.
  intros Hnd. eapply sublist_NoDup; [exact Hnd |].
  apply fmap_sublist, delete_where_sublist.
Qed.

Lemma delete_where_get_keep (P : entry -> bool) l acc k :
  (forall e, e ∈ l -> P e = true -> e.1 <> k) ->
  map_get k (delete_where P l acc) = map_get k acc.
Proof.
  revert acc. induction l as [| e0 l IH]; intros acc Hl; cbn [fold_left]; [done |].
  rewrite IH by (intros e He; apply Hl; by right).
  destruct (P e0) eqn:HP; [| done].
  rewrite map_get_delete. destruct (decide (k = e0.1)) as [-> | Hne]; [| done].
  exfalso. by apply (Hl e0); [left | | ].
Qed.

Lemma delete_where_get (P : entry -> bool) l acc k :
  map_get k (delete_where P l acc) = None
  \/ map_get k (delete_where P l acc) = map_get k acc.
Proof.
  revert acc. induction l as [| e0 l IH]; intros acc; cbn [fold_left]; [by right |].
  destruct (IH (if P e0 then map_delete e0.1 acc else acc)) as [-> | ->]; [by left |].
  destruct (P e0); [| by right].
  rewrite map_get_delete. destruct (decide (k = e0.1)); [by left | by right].
Qed.

Lemma key_in_map_delete k k' c :
  k ∈ c.*1 -> k <> k' -> k ∈ (map_delete k' c).*1.
Proof.
  intros ([k0 ts] & -> & Hin)%list_elem_of_fmap_1 Hne.
  apply (list_elem_of_fmap_2 fst _ (k0, ts)).
  apply elem_of_map_delete. by split.
Qed.

(** Deleting [n] distinct keys that are present removes [n] entries. *)
Lemma delete_all_length l acc :
  NoDup acc.*1 -> NoDup l.*1 -> (forall e, e ∈ l -> e.1 ∈ acc.*1) ->
  (length (fold_left (fun a e => map_delete e.1 a) l acc) + length l)%nat
  = length acc.
Proof.
  revert acc. induction l as [| e0 l IH]; intros acc Hacc Hl Hsub; cbn [fold_left].
  - simpl. lia.
  - rewrite fmap_cons, NoDup_cons in Hl. destruct Hl as [Hnotin Hl].
    rewrite <- (map_delete_length e0.1 acc); [| done | apply Hsub; left].
    rewrite <- (IH (map_delete e0.1 acc)); [simpl; lia | | done |].
    + by apply map_delete_NoDup.
    + intros e He. apply key_in_map_delete; [apply Hsub; by right |].
      intros Heq. apply Hnotin. rewrite <- Heq. by apply list_elem_of_fmap_2.
Qed.

(** The sort of [prune] rearranges the entries and loses none. *)
Lemma insert_by_ts_perm e l : insert_by_ts e l ≡ₚ e :: l.
Proof.
  induction l as [| x l IH]; cbn [insert_by_ts]; [done |].
  destruct (e.2 <=? x.2); [done |].
  rewrite IH. apply Permutation_swap.
Qed.

Lemma sort_by_ts_perm l : sort_by_ts l ≡ₚ l.
Proof.
  induction l as [| x l IH]; [done |].
  unfold sort_by_ts. cbn [fold_right]. rewrite insert_by_ts_perm.
  by apply Permutation_cons.
Qed.

Section WithOptions.
Variable options : DedupeCacheOptions.

Lemma remove_expired_sublist now c : sublist (remove_expired options now c) c.
Proof. apply (delete_where_sublist (fun e => now - e.2 >? ttlMs options)). Qed.

Lemma enforce_max_size_sublist c : sublist (enforce_max_size options c) c.
Proof.
  unfold enforce_max_size. destruct (size c >? maxSize options); [| done].
  apply (delete_where_sublist (fun _ => true)).
Qed.

Lemma prune_sublist now c : sublist (prune options now c) c.
Proof.
  unfold prune. etrans; [apply enforce_max_size_sublist | apply remove_expired_sublist].
Qed.

Lemma prune_NoDup now c : NoDup c.*1 -> NoDup (prune options now c).*1.
Proof.
  intros Hnd. eapply sublist_NoDup; [exact Hnd |].
  apply fmap_sublist, prune_sublist.
Qed.

(** No entry that survives the first loop is older than the window. *)
Lemma remove_expired_fresh now c e :
  e ∈ remove_expired options now c -> now - e.2 <= ttlMs options.
Proof.
  intros [Hin Hl]%(delete_where_elem (fun e => now - e.2 >? ttlMs options)).
  destruct (now - e.2 >? ttlMs options) eqn:Hstale; [| lia].
  exfalso. by apply (Hl e).
Qed.

Lemma prune_fresh now c e :
  e ∈ prune options now c -> now - e.2 <= ttlMs options.
Proof.
  intros Hin. apply (remove_expired_fresh now c).
  eapply elem_of_sublist; [exact Hin |]. apply enforce_max_size_sublist.
Qed.

(** The second part of [prune] leaves at most [maxSize] entries. *)
Lemma enforce_max_size_bound c :
  0 <= maxSize options -> NoDup c.*1 ->
  size (enforce_max_size options c) <= maxSize options.
Proof.
  intros Hmax Hnd. unfold enforce_max_size.
  destruct (size c >? maxSize options) eqn:Hover; [| lia].
  unfold size in *. unfold slice0.
  destruct (Z.of_nat (length c) - maxSize options <? 0) eqn:Hneg; [lia |].
  set (n := Z.to_nat (Z.of_nat (length c) - maxSize options)).
  pose proof (sort_by_ts_perm c) as Hperm.
  assert ((length (fold_left (fun a e => map_delete e.1 a)
                     (firstn n (sort_by_ts c)) c)
           + length (firstn n (sort_by_ts c)))%nat = length c) as Hlen.
  { apply delete_all_length; [done | |].
    - eapply sublist_NoDup; [| apply fmap_sublist, sublist_take].
      by rewrite Hperm.
    - intros e He. apply list_elem_of_fmap_2. rewrite <- Hperm.
      eapply elem_of_sublist; [exact He | apply sublist_take]. }
  rewrite length_take, (Permutation_length Hperm) in Hlen.
  apply Z.gtb_lt in Hover. subst n. lia.
Qed.

Lemma prune_bound now c :
  0 <= maxSize options -> NoDup c.*1 ->
  size (prune options now c) <= maxSize options.
Proof.
  intros Hmax Hnd. apply enforce_max_size_bound; [done |].
  eapply sublist_NoDup; [exact Hnd |].
  apply fmap_sublist, remove_expired_sublist.
Qed.

(** Below the cap the second part of [prune] does nothing. *)
Lemma enforce_max_size_id c :
  size c <= maxSize options -> enforce_max_size options c = c.
Proof.
  intros Hle. unfold enforce_max_size.
  destruct (size c >? maxSize options) eqn:Hover; [lia | done].
Qed.
End WithOptions.
End DedupePrune.

(** ** Deduplication cache: [check] and histories of calls *)

Section DedupeCheck.
Import Dedupe.
Variable options : DedupeCacheOptions.
Implicit Types (c : cache) (k : jsstring) (key : option jsstring)
  (calls : list call) (cl : call).

Lemma truthy_opt_true key :
  truthy_opt key = true -> exists k, key = Some k /\ k <> [].
Proof. apply truthy_opt_Some. Qed.

(** The three ways a call can go. *)
Lemma check_cases key now c :
  (truthy_opt key = false /\ check options key now c = (false, c))
  \/ (exists k existing, key = Some k /\ k <> [] /\ map_get k c = Some existing
        /\ now - existing < ttlMs options
        /\ check options key now c = (true, map_set k now c))
  \/ (exists k, key = Some k /\ k <> []
        /\ (forall existing, map_get k c = Some existing ->
              ttlMs options <= now - existing)
        /\ check options key now c = (false, prune options now (map_set k now c))).
Proof.
  unfold check. destruct (truthy_opt key) eqn:Hkey; simpl negb; cbv iota.
  - destruct (truthy_opt_true _ Hkey) as (k & -> & Hne). right. simpl default.
    destruct (map_get k c) as [existing |] eqn:Hget.
    + destruct (now - existing <? ttlMs options) eqn:Hlt.
      * left. exists k, existing. split_and!; try done. lia.
      * right. exists k. split_and!; try done. intros ? ?. simplify_eq. lia.
    + right. exists k. split_and!; try done. intros ? ?. congruence.
  - by left.
Qed.

Lemma check_NoDup key now c :
  NoDup c.*1 -> NoDup (check options key now c).2.*1.
Proof.
  intros Hnd.
  destruct (check_cases key now c)
    as [[_ ->] | [(k & ex & _ & _ & _ & _ & ->) | (k & _ & _ & _ & ->)]]; simpl.
  - done.
  - by apply map_set_NoDup.
  - by apply prune_NoDup, map_set_NoDup.
Qed.

Lemma check_keys key now c k' :
  k' ∈ (check options key now c).2.*1 -> k' ∈ c.*1 \/ key = Some k'.
Proof.
  destruct (check_cases key now c)
    as [[_ ->] | [(k & ex & -> & _ & _ & _ & ->) | (k & -> & _ & _ & ->)]]; simpl.
  - by left.
  - intros [-> | Hin]%map_set_keys%elem_of_cons; [by right | by left].
  - intros Hin.
    assert (k' ∈ (map_set k now c).*1) as [-> | ?]%map_set_keys%elem_of_cons;
      [| by right | by left].
    eapply elem_of_sublist; [exact Hin |]. apply fmap_sublist, prune_sublist.
Qed.

Lemma check_size key now c :
  0 <= maxSize options -> NoDup c.*1 -> size c <= maxSize options ->
  size (check options key now c).2 <= maxSize options.
Proof.
  intros Hmax Hnd Hsize.
  destruct (check_cases key now c)
    as [[_ ->] | [(k & ex & _ & _ & Hget & _ & ->) | (k & _ & _ & _ & ->)]]; simpl.
  - done.
  - unfold size. rewrite map_set_length_present; [done |].
    apply map_get_Some in Hget. by apply (list_elem_of_fmap_2 fst _ (k, ex)).
  - by apply prune_bound, map_set_NoDup.
Qed.

(** A property kept by every call of a history holds at its end. *)
Lemma after_calls_ind (I : cache -> Prop) calls c :
  (forall cl c', cl ∈ calls -> I c' -> I (check options cl.1 cl.2 c').2) ->
  I c -> I (after_calls options calls c).
Proof.
  revert c. induction calls as [| cl calls IH]; intros c Hstep Hc; [done |].
  unfold after_calls. cbn [fold_left]. apply IH.
  - intros cl' c' Hin. apply Hstep. by right.
  - apply Hstep; [left | done].
Qed.

Lemma after_calls_app calls1 calls2 c :
  after_calls options (calls1 ++ calls2) c
  = after_calls options calls2 (after_calls options calls1 c).
Proof. unfold after_calls. apply fold_left_app. Qed.

Lemma after_calls_NoDup calls c :
  NoDup c.*1 -> NoDup (after_calls options calls c).*1.
Proof.
  apply (after_calls_ind (fun c => NoDup c.*1)).
  intros cl c' _. apply check_NoDup.
Qed.

(** Only keys that were checked are stored. *)
Lemma after_calls_keys calls k :
  k ∈ (cache_after options calls).*1 -> Some k ∈ calls.*1.
Proof.
  unfold cache_after.
  assert (forall c, (forall k', k' ∈ c.*1 -> Some k' ∈ calls.*1) ->
            forall k', k' ∈ (after_calls options calls c).*1 -> Some k' ∈ calls.*1)
    as Hgen.
  { intros c Hc.
    apply (after_calls_ind (fun c => forall k', k' ∈ c.*1 -> Some k' ∈ calls.*1));
      [| done].
    intros cl c' Hcl Hc' k' [Hin | Heq]%check_keys; [by apply Hc' |].
    rewrite <- Heq. by apply list_elem_of_fmap_2. }
  apply Hgen. intros k' Hin. by apply elem_of_nil in Hin.
Qed.

(** Pruning never changes the timestamp stored for a key. *)
Lemma prune_get now c k :
  map_get k (prune options now c) = None
  \/ map_get k (prune options now c) = map_get k c.
Proof.
  unfold prune, enforce_max_size.
  pose proof (delete_where_get (fun e => now - e.2 >? ttlMs options) c c k) as Hexp.
  fold (remove_expired options now c) in Hexp.
  destruct (size (remove_expired options now c) >? maxSize options); [| done].
  set (toDelete := slice0 _ _).
  destruct (delete_where_get (fun _ => true) toDelete (remove_expired options now c) k)
    as [Hnone | Hsame]; [by left |].
  rewrite Hsame. done.
Qed.

(** Pruning keeps a fresh entry as long as the cap is respected. *)
Lemma prune_keeps now c k ts :
  NoDup c.*1 -> map_get k c = Some ts -> now - ts <= ttlMs options ->
  size c <= maxSize options ->
  map_get k (prune options now c) = Some ts.
Proof.
  intros Hnd Hget Hfresh Hsize. unfold prune.
  rewrite enforce_max_size_id.
  - unfold remove_expired.
    rewrite (delete_where_get_keep (fun e => now - e.2 >? ttlMs options)); [done |].
    intros [k' ts'] Hin Hstale Heq. simpl in *. subst k'.
    rewrite (map_get_unique k c ts ts' Hnd Hget Hin) in Hstale. lia.
  - pose proof (sublist_length _ _ (remove_expired_sublist options now c)).
    unfold size in *. lia.
Qed.

(** Once a non-empty key has been checked at [now], it is either gone or
    stored with [now]. *)
Lemma check_same_key_get k now c :
  k <> [] ->
  map_get k (check options (Some k) now c).2 = None
  \/ map_get k (check options (Some k) now c).2 = Some now.
Proof.
  intros Hne.
  destruct (check_cases (Some k) now c)
    as [[Hf ->] | [(k' & ex & [= <-] & _ & _ & _ & ->) | (k' & [= <-] & _ & _ & ->)]];
    simpl.
  - destruct k; [done | discriminate].
  - right. apply map_get_set_eq.
  - destruct (prune_get now (map_set k now c) k) as [-> | ->]; [by left |].
    right. apply map_get_set_eq.
Qed.

(** A check of another key leaves the timestamp of [k] alone, or drops it. *)
Lemma check_other_key_get k key now c :
  key <> Some k ->
  map_get k (check options key now c).2 = None
  \/ map_get k (check options key now c).2 = map_get k c.
Proof.
  intros Hne.
  destruct (check_cases key now c)
    as [[_ ->] | [(k' & ex & -> & _ & _ & _ & ->) | (k' & -> & _ & _ & ->)]]; simpl.
  - by right.
  - right. apply map_get_set_ne. congruence.
  - destruct (prune_get now (map_set k' now c) k) as [-> | ->]; [by left |].
    right. apply map_get_set_ne. congruence.
Qed.

(** After a check of [k] at [t0] and further checks of other keys, the
    entry of [k], if any, still carries [t0]. *)
Lemma last_check_timestamp k t0 calls1 calls2 :
  k <> [] -> (forall cl, cl ∈ calls2 -> cl.1 <> Some k) ->
  let c := cache_after options (calls1 ++ (Some k, t0) :: calls2) in
  map_get k c = None \/ map_get k c = Some t0.
Proof.
  intros Hne Hother. unfold cache_after.
  rewrite after_calls_app. change ((Some k, t0) :: calls2) with ([(Some k, t0)] ++ calls2).
  rewrite after_calls_app.
  apply (after_calls_ind (fun c => map_get k c = None \/ map_get k c = Some t0)).
  - intros cl c' Hcl [Hnone | Hsome];
      destruct (check_other_key_get k cl.1 cl.2 c' (Hother cl Hcl)) as [-> | ->];
      auto.
  - apply check_same_key_get, Hne.
Qed.
End DedupeCheck.

(** ** Deduplication cache: size bound and pruning *)

(** C6: whatever calls of [check] a cache has served, it holds at most
    [maxSize] entries (for a cap that is a count, that is, not negative). *)
Theorem dedupe_size_at_most_maxSize
  (options : Dedupe.DedupeCacheOptions) (calls : list Dedupe.call) :
  0 <= Dedupe.maxSize options ->
  Dedupe.size (Dedupe.cache_after options calls) <= Dedupe.maxSize options.
Proof.
  intros Hmax. unfold Dedupe.cache_after.
  apply (after_calls_ind options
           (fun c => NoDup c.*1 /\ Dedupe.size c <= Dedupe.maxSize options)).
  - intros cl c' _ [Hnd Hsize]. split.
    + by apply check_NoDup.
    + by apply check_size.
  - split; [apply NoDup_nil_2 | exact Hmax].
Qed.

Lemma dedupe_size_at_most_maxSize_witness :
  Dedupe.size
    (Dedupe.cache_after {| Dedupe.ttlMs := 1000; Dedupe.maxSize := 2 |}
       [(Some (js "a"), 0); (Some (js "b"), 1); (Some (js "c"), 2);
        (Some (js "a"), 3); (None, 4); (Some (js "d"), 5)])
  <= 2.
Proof.
  apply (dedupe_size_at_most_maxSize {| Dedupe.ttlMs := 1000; Dedupe.maxSize := 2 |}).
  simpl. lia.
Defined.

(** C7, as stated, fails: a call that finds its key to be a duplicate
    returns without pruning, so an entry older than the window stays. *)
Lemma dedupe_duplicate_hit_does_not_prune :
  let options := {| Dedupe.ttlMs := 10; Dedupe.maxSize := 5 |} in
  let before := Dedupe.cache_after options [(Some (js "b"), 0); (Some (js "a"), 5)] in
  Dedupe.check options (Some (js "a")) 12 before
    = (true, [(js "b", 0); (js "a", 12)])
  /\ 12 - 0 > Dedupe.ttlMs options.
Proof. split; [reflexivity | simpl; lia]. Qed.

(** C7 (amended): every call of [check] that records its key as new (a
    non-empty key, answer [false]) prunes: afterwards no entry is older than
    [ttlMs] at the time of the call. *)
Theorem dedupe_insert_prunes_expired
  (options : Dedupe.DedupeCacheOptions) (key : option jsstring) (now : Z)
  (c : Dedupe.cache) (e : Dedupe.entry) :
  truthy_opt key = true ->
  (Dedupe.check options key now c).1 = false ->
  e ∈ (Dedupe.check options key now c).2 ->
  now - e.2 <= Dedupe.ttlMs options.
Proof.
  intros Hkey Hnew.
  destruct (check_cases options key now c)
    as [[Hf _] | [(k & ex & _ & _ & _ & _ & Heq) | (k & _ & _ & _ & Heq)]].
  - congruence.
  - rewrite Heq in Hnew. discriminate.
  - rewrite Heq. simpl. apply prune_fresh.
Qed.

Lemma dedupe_insert_prunes_expired_witness :
  let options := {| Dedupe.ttlMs := 10; Dedupe.maxSize := 5 |} in
  (Dedupe.check options (Some (js "c")) 12 [(js "b", 0); (js "a", 5)]).2
    = [(js "a", 5); (js "c", 12)]
  /\ 12 - 5 <= 10.
Proof.
  split; [reflexivity |].
  apply (dedupe_insert_prunes_expired {| Dedupe.ttlMs := 10; Dedupe.maxSize := 5 |}
           (Some (js "c")) 12 [(js "b", 0); (js "a", 5)] (js "a", 5)).
  - reflexivity.
  - reflexivity.
  - vm_compute. left.
Defined.

(** ** Deduplication cache: what the cap and the window spare *)

Section DedupeEviction.
Import Dedupe.
Variable options : DedupeCacheOptions.
Implicit Types (c acc : cache) (k : jsstring) (e d x : entry) (l : list entry).

Local Abbreviation older := (fun a b : jsstring * Z => a.2 <= b.2).
Local Abbreviation fresh now := (fun e : jsstring * Z => negb (now - e.2 >? ttlMs options)).

Lemma map_delete_filter k c :
  map_delete k c = List.filter (fun e => negb (jsstring_eqb e.1 k)) c.
Proof.
  induction c as [| [k' ts] c IH]; [done |]. cbn [map_delete List.filter fst].
  destruct (jsstring_eqb k' k); simpl; by rewrite IH.
Qed.

Lemma filter_filter_bool {A} (f g : A -> bool) (l : list A) :
  List.filter f (List.filter g l) = List.filter (fun a => g a && f a) l.
Proof.
  induction l as [| a l IH]; [done |]. simpl.
  destruct (g a); simpl; [destruct (f a) |]; by rewrite IH.
Qed.

(** The loops of [prune] as a filter: an entry stays unless an entry of the
    list that the test selects carries its key. *)
Lemma delete_where_filter (P : entry -> bool) l acc :
  fold_left (fun a e => if P e then map_delete e.1 a else a) l acc
  = List.filter
      (fun e => negb (existsb (fun d => P d && jsstring_eqb e.1 d.1) l)) acc.
Proof.
  revert acc. induction l as [| d l IH]; intros acc; cbn [fold_left existsb].
  - induction acc as [| a acc IHacc]; [done |]. simpl. by f_equal.
  - rewrite IH. destruct (P d) eqn:HP.
    + rewrite map_delete_filter, filter_filter_bool.
      apply List.filter_ext. intros e. simpl.
      by rewrite negb_orb.
    + apply List.filter_ext. intros e. done.
Qed.

Lemma entry_unique c e d :
  NoDup c.*1 -> e ∈ c -> d ∈ c -> e.1 = d.1 -> e = d.
Proof.
  intros Hnd He Hd Hkey. destruct e as [k t], d as [k' t']. simpl in Hkey. subst k'.
  f_equal.
  destruct (map_get k c) as [ts |] eqn:Hget.
  - rewrite (map_get_unique k c ts t Hnd Hget He).
    by rewrite (map_get_unique k c ts t' Hnd Hget Hd).
  - apply map_get_None in Hget. exfalso. apply Hget.
    by apply (list_elem_of_fmap_2 fst _ (k, t)).
Qed.

(** With one entry per key, the first loop keeps exactly the entries that
    are not older than the window. *)
Lemma remove_expired_filter now c :
  NoDup c.*1 -> remove_expired options now c = List.filter (fresh now) c.
Proof.
  intros Hnd. unfold remove_expired.
  rewrite (delete_where_filter (fun e => now - e.2 >? ttlMs options)).
  apply List.filter_ext_in. intros e He%list_elem_of_In. f_equal.
  destruct (now - e.2 >? ttlMs options) eqn:Hstale.
  - apply existsb_exists. exists e. split; [by apply list_elem_of_In |].
    by rewrite Hstale, jsstring_eqb_refl.
  - apply not_true_is_false. intros (d & Hd%list_elem_of_In & Hsel)%existsb_exists.
    apply andb_true_iff in Hsel as [Hd_stale Hkey%jsstring_eqb_eq].
    rewrite (entry_unique c e d Hnd He Hd Hkey) in Hstale. congruence.
Qed.

Lemma insert_by_ts_sorted e l :
  StronglySorted older l -> StronglySorted older (insert_by_ts e l).
Proof.
  induction 1 as [| x l Hsorted IH Hall]; cbn [insert_by_ts].
  - by repeat constructor.
  - destruct (Z.leb_spec e.2 x.2) as [Hle | Hgt].
    + constructor; [by constructor |]. constructor; [done |].
      eapply Forall_impl; [exact Hall |]. simpl. intros y Hy. lia.
    + constructor; [done |]. rewrite insert_by_ts_perm. constructor; [simpl; lia | done].
Qed.

Lemma sort_by_ts_sorted l : StronglySorted older (sort_by_ts l).
Proof.
  induction l as [| x l IH]; [constructor |]. by apply insert_by_ts_sorted.
Qed.

(** A newest entry at the end of the map is still last after the sort. *)
Lemma insert_by_ts_last e l x :
  e.2 <= x.2 -> insert_by_ts e (l ++ [x]) = insert_by_ts e l ++ [x].
Proof.
  intros Hle. induction l as [| y l IH]; cbn [insert_by_ts app].
  - by destruct (Z.leb_spec e.2 x.2); [| lia].
  - destruct (e.2 <=? y.2); [done |]. by rewrite IH.
Qed.

Lemma sort_by_ts_last l x :
  (forall e, e ∈ l -> e.2 <= x.2) -> sort_by_ts (l ++ [x]) = sort_by_ts l ++ [x].
Proof.
  induction l as [| y l IH]; intros Hmax; [done |].
  unfold sort_by_ts in *. cbn [app fold_right].
  rewrite IH by (intros e He; apply Hmax; by right).
  apply insert_by_ts_last. apply Hmax. left.
Qed.

(** The second part of [prune] leaves exactly [maxSize] entries when there
    were more, and everything otherwise. *)
Lemma enforce_max_size_length c :
  0 <= maxSize options -> NoDup c.*1 ->
  size (enforce_max_size options c) = Z.min (size c) (maxSize options).
Proof.
  intros Hmax Hnd. unfold enforce_max_size.
  destruct (size c >? maxSize options) eqn:Hover; [| lia].
  unfold size in *. unfold slice0.
  destruct (Z.of_nat (length c) - maxSize options <? 0) eqn:Hneg; [lia |].
  set (n := Z.to_nat (Z.of_nat (length c) - maxSize options)).
  pose proof (sort_by_ts_perm c) as Hperm.
  assert ((length (fold_left (fun a e => map_delete e.1 a)
                     (firstn n (sort_by_ts c)) c)
           + length (firstn n (sort_by_ts c)))%nat = length c) as Hlen.
  { apply delete_all_length; [done | |].
    - eapply sublist_NoDup; [| apply fmap_sublist, sublist_take].
      by rewrite Hperm.
    - intros e He. apply list_elem_of_fmap_2. rewrite <- Hperm.
      eapply elem_of_sublist; [exact He | apply sublist_take]. }
  rewrite length_take, (Permutation_length Hperm) in Hlen.
  apply Z.gtb_lt in Hover. subst n. lia.
Qed.
Lemma elem_of_map_set e k v c :
  NoDup c.*1 -> e ∈ map_set k v c -> e = (k, v) \/ (e ∈ c /\ e.1 <> k).
Proof.
  induction c as [| [k' ts] c IH]; cbn [map_set].
  - intros _ ->%list_elem_of_singleton. by left.
  - rewrite fmap_cons, NoDup_cons. intros [Hnotin Hnd].
    rewrite eqb_decide. destruct (decide (k' = k)) as [-> | Hne]; cbv iota.
    + intros [-> | He]%elem_of_cons; [by left |].
      right. split; [by right |]. intros Hk. apply Hnotin. simpl. rewrite <- Hk.
      by apply list_elem_of_fmap_2.
    + intros [-> | He]%elem_of_cons; [right; split; [left | done] |].
      destruct (IH Hnd He) as [-> | [Hin Hk]]; [by left |].
      right. split; [by right | done].
Qed.
End DedupeEviction.

Section DedupeSurvival.
Import Dedupe.
Variable options : DedupeCacheOptions.
(** The key under watch and the time of its last check. *)
Variable k : jsstring.
Variable t0 : Z.
Implicit Types (c : cache) (key : option jsstring) (e : entry).

(** The entries that the sort of [prune] can place after the entry of
    [k]: those of other keys stamped [t0] or later. *)
Local Abbreviation rival :=
  (fun e : jsstring * Z => negb (jsstring_eqb e.1 k) && (t0 <=? e.2)).

Lemma rival_spec e : rival e = true <-> e.1 <> k /\ t0 <= e.2.
Proof.
  rewrite andb_true_iff, negb_true_iff, Z.leb_le. rewrite eqb_decide.
  destruct (decide (e.1 = k)); split; intros [? ?]; split; try done.
Qed.

Lemma filter_length_sublist {A} (P : A -> bool) (l1 l2 : list A) :
  sublist l1 l2 -> (length (List.filter P l1) <= length (List.filter P l2))%nat.
Proof.
  induction 1 as [| x l1 l2 _ IH | x l1 l2 _ IH]; simpl; [done | |].
  - destruct (P x); simpl; lia.
  - destruct (P x); simpl; lia.
Qed.

Lemma filter_all {A} (P : A -> bool) (l : list A) :
  (forall x, x ∈ l -> P x = true) -> List.filter P l = l.
Proof.
  induction l as [| x l IH]; intros Hall; [done |]. simpl.
  rewrite (Hall x) by left. f_equal. apply IH. intros y Hy. apply Hall. by right.
Qed.

Lemma filter_length_perm {A} (P : A -> bool) (l1 l2 : list A) :
  l1 ≡ₚ l2 -> length (List.filter P l1) = length (List.filter P l2).
Proof.
  induction 1 as [| x l1 l2 _ IH | x y l | l1 l2 l3 _ IH1 _ IH2]; simpl; [done | | |].
  - destruct (P x); simpl; lia.
  - destruct (P x), (P y); simpl; lia.
  - congruence.
Qed.

(** The size cap spares the entry of [k] when fewer than [maxSize] entries
    can be sorted after it, and expiry spares it while it is fresh. *)
Lemma prune_keeps_recent now c :
  NoDup c.*1 -> map_get k c = Some t0 -> now - t0 <= ttlMs options ->
  Z.of_nat (length (List.filter rival c)) < maxSize options ->
  map_get k (prune options now c) = Some t0.
Proof.
  intros Hnd Hget Hfresh Hfew. unfold prune.
  set (c1 := remove_expired options now c).
  assert (sublist c1 c) as Hsub by apply remove_expired_sublist.
  assert (NoDup c1.*1) as Hnd1.
  { eapply sublist_NoDup; [exact Hnd | by apply fmap_sublist]. }
  assert (map_get k c1 = Some t0) as Hget1.
  { unfold c1, remove_expired.
    rewrite (delete_where_get_keep (fun e => now - e.2 >? ttlMs options)); [done |].
    intros [k' ts'] Hin Hstale Heq. simpl in *. subst k'.
    rewrite (map_get_unique k c t0 ts' Hnd Hget Hin) in Hstale. lia. }
  assert (Z.of_nat (length (List.filter rival c1)) < maxSize options) as Hfew1.
  { pose proof (filter_length_sublist rival c1 c Hsub). lia. }
  clearbody c1. clear Hsub Hfew Hget Hnd c.
  unfold enforce_max_size.
  destruct (size c1 >? maxSize options) eqn:Hover; [| done].
  apply Z.gtb_lt in Hover.
  rewrite (delete_where_get_keep (fun _ => true)); [done |].
  intros e He _ Hkey.
  set (sorted := sort_by_ts c1) in *.
  assert (sorted ≡ₚ c1) as Hperm by apply sort_by_ts_perm.
  unfold slice0, size in He, Hover.
  destruct (Z.ltb_spec (Z.of_nat (length c1) - maxSize options) 0) in He; [lia |].
  set (m := Z.to_nat (Z.of_nat (length c1) - maxSize options)) in *.
  assert (e = (k, t0)) as ->.
  { apply (entry_unique c1); [done | | by apply map_get_Some | done].
    rewrite <- Hperm. eapply elem_of_sublist; [exact He | apply sublist_take]. }
  assert (NoDup sorted.*1) as Hnds by (by rewrite Hperm).
  assert (forall x, x ∈ drop m sorted -> rival x = true) as Hrivals.
  { intros x Hx. apply rival_spec. split.
    - intros Hk.
      assert (x = (k, t0)) as ->.
      { apply (entry_unique c1); [done | | by apply map_get_Some | done].
        rewrite <- Hperm. eapply elem_of_sublist; [exact Hx | apply sublist_drop]. }
      rewrite <- (take_drop m sorted), fmap_app in Hnds.
      apply NoDup_app in Hnds as (_ & Hdisj & _).
      apply (Hdisj k); by apply (list_elem_of_fmap_2 fst _ (k, t0)).
    - apply (StronglySorted_app_1_elem_of (fun a b : jsstring * Z => a.2 <= b.2)
               (take m sorted) (drop m sorted) (k, t0) x); [| done | done].
      rewrite take_drop. apply sort_by_ts_sorted. }
  assert (length (drop m sorted) <= length (List.filter rival c1))%nat as Hlen.
  { rewrite <- (filter_length_perm rival sorted c1 Hperm).
    rewrite <- (take_drop m sorted) at 2. rewrite List.filter_app, length_app.
    rewrite (filter_all rival (drop m sorted) Hrivals). lia. }
  rewrite length_drop, (Permutation_length Hperm) in Hlen. lia.
Qed.

(** The other keys that may be stamped [t0] or later are in [R], and [R]
    has fewer than [maxSize] elements. *)
Variable R : gset jsstring.
Hypothesis R_small : Z.of_nat (base.size R) < maxSize options.

Local Abbreviation watched c :=
  (NoDup c.*1 /\ forall e : jsstring * Z, e ∈ c -> e.1 <> k -> t0 <= e.2 -> e.1 ∈ R).

Lemma list_filter_sublist {A} (P : A -> bool) (l : list A) : sublist (List.filter P l) l.
Proof.
  induction l as [| x l IH]; [constructor |]. simpl.
  destruct (P x); by constructor.
Qed.

Lemma watched_few c : watched c -> Z.of_nat (length (List.filter rival c)) < maxSize options.
Proof.
  intros [Hnd Hin].
  assert (NoDup (List.filter rival c).*1) as Hndf.
  { eapply sublist_NoDup; [exact Hnd | apply fmap_sublist, list_filter_sublist]. }
  rewrite <- (length_fmap fst), <- (size_list_to_set (C := gset jsstring)) by done.
  assert (base.size (list_to_set (C := gset jsstring) (List.filter rival c).*1)
          <= base.size R)%nat; [| lia].
  apply subseteq_size. intros k' Hk'. apply elem_of_list_to_set in Hk'.
  apply list_elem_of_fmap_1 in Hk' as (e & -> & He).
  apply list_elem_of_In, List.filter_In in He as [He Hrival].
  apply rival_spec in Hrival as [Hne Hlate]. apply Hin; [by apply list_elem_of_In | done | done].
Qed.

Lemma watched_map_set k' v c :
  (k' <> k -> t0 <= v -> k' ∈ R) -> watched c -> watched (map_set k' v c).
Proof.
  intros Hk' [Hnd Hin]. split; [by apply map_set_NoDup |].
  intros e [-> | [He _]]%elem_of_map_set; [| | done].
  - apply Hk'.
  - by apply Hin.
Qed.

Lemma watched_prune now c : watched c -> watched (prune options now c).
Proof.
  intros [Hnd Hin]. split; [by apply prune_NoDup |].
  intros e He. apply Hin. eapply elem_of_sublist; [exact He | apply prune_sublist].
Qed.

Lemma watched_check key now c :
  (forall k', key = Some k' -> k' <> k -> t0 <= now -> k' ∈ R) ->
  watched c -> watched (check options key now c).2.
Proof.
  intros Hkey Hc.
  destruct (check_cases options key now c)
    as [[_ ->] | [(k' & ex & -> & _ & _ & _ & ->) | (k' & -> & _ & _ & ->)]]; cbn [snd].
  - done.
  - apply watched_map_set; [by apply Hkey | done].
  - apply watched_prune, watched_map_set; [by apply Hkey | done].
Qed.

(** A check of another key does not remove a fresh entry of [k]. *)
Lemma watched_keeps key now c :
  (forall k', key = Some k' -> k' <> k -> t0 <= now -> k' ∈ R) ->
  watched c -> key <> Some k -> map_get k c = Some t0 -> now - t0 <= ttlMs options ->
  map_get k (check options key now c).2 = Some t0.
Proof.
  intros Hkey Hc Hne Hget Hfresh.
  destruct (check_cases options key now c)
    as [[_ ->] | [(k' & ex & -> & _ & _ & _ & ->) | (k' & -> & _ & _ & ->)]]; cbn [snd].
  - done.
  - rewrite map_get_set_ne; [done | congruence].
  - assert (watched (map_set k' now c)) as Hc'
      by (apply watched_map_set; [by apply Hkey | done]).
    apply prune_keeps_recent; [apply Hc' | | done | by apply watched_few].
    rewrite map_get_set_ne; [done | congruence].
Qed.

(** The check of [k] at [t0] leaves [k] stored with [t0]. *)
Lemma watched_records c :
  k <> [] -> 0 <= ttlMs options -> watched c ->
  map_get k (check options (Some k) t0 c).2 = Some t0.
Proof.
  intros Hne Httl Hc.
  destruct (check_cases options (Some k) t0 c)
    as [[Hf _] | [(k' & ex & [= <-] & _ & _ & _ & ->) | (k' & [= <-] & _ & _ & ->)]];
    cbn [snd].
  - destruct k; [done | discriminate].
  - apply map_get_set_eq.
  - assert (watched (map_set k t0 c)) as Hc' by (by apply watched_map_set).
    apply prune_keeps_recent; [apply Hc' | apply map_get_set_eq | lia | by apply watched_few].
Qed.
End DedupeSurvival.

(** C3, as stated, fails for the repeated check: the size cap may have
    evicted the key in between, an empty key is never recorded, and a check
    of another key stamped far ahead prunes the key as expired. *)
Lemma dedupe_repeat_within_ttl_may_miss :
  let options := {| Dedupe.ttlMs := 10; Dedupe.maxSize := 1 |} in
  let roomy := {| Dedupe.ttlMs := 10; Dedupe.maxSize := 5 |} in
  (Dedupe.check options (Some (js "a")) 2
     (Dedupe.cache_after options [(Some (js "a"), 0); (Some (js "b"), 1)])).1 = false
  /\ 2 - 0 < Dedupe.ttlMs options
  /\ (Dedupe.check options (Some []) 1
        (Dedupe.cache_after options [(Some [], 0)])).1 = false
  /\ 1 - 0 < Dedupe.ttlMs options
  /\ (Dedupe.check roomy (Some (js "a")) 5
        (Dedupe.cache_after roomy [(Some (js "a"), 0); (Some (js "b"), 100)])).1 = false
  /\ 5 - 0 < Dedupe.ttlMs roomy.
Proof. repeat split; reflexivity. Qed.

(** C3 (amended): the first check of a key answers [false]; a later check
    of a non-empty key, made less than [ttlMs] after the previous check of
    that key, answers [true] provided the key was not removed in between,
    that is, provided it is still stored.  It is still stored in particular
    when no check made in between is stamped more than [ttlMs] after that
    previous check (so the key did not expire) and fewer than [maxSize]
    other keys were checked with a time at or after it (so the cap, which
    evicts the oldest entries, did not reach the key).  And once [ttlMs]
    has passed since the last check of the key, the next check answers
    [false] again. *)
Theorem dedupe_check_first_repeat_expired
  (options : Dedupe.DedupeCacheOptions) (k : jsstring)
  (calls1 calls2 : list Dedupe.call) (t0 now : Z) :
  let history := calls1 ++ (Some k, t0) :: calls2 in
  ((forall cl, cl ∈ calls1 -> cl.1 <> Some k) ->
     (Dedupe.check options (Some k) now (Dedupe.cache_after options calls1)).1 = false)
  /\
  (k <> [] ->
   (forall cl, cl ∈ calls2 -> cl.1 <> Some k) ->
   now - t0 < Dedupe.ttlMs options ->
   k ∈ (Dedupe.cache_after options history).*1 ->
     (Dedupe.check options (Some k) now (Dedupe.cache_after options history)).1 = true)
  /\
  (k <> [] ->
   (forall cl, cl ∈ calls2 -> cl.1 <> Some k /\ cl.2 - t0 <= Dedupe.ttlMs options) ->
   t0 <= now -> now - t0 < Dedupe.ttlMs options ->
   Z.of_nat (size (Dedupe.rivals k t0 (calls1 ++ calls2))) < Dedupe.maxSize options ->
     k ∈ (Dedupe.cache_after options history).*1
     /\ (Dedupe.check options (Some k) now (Dedupe.cache_after options history)).1 = true)
  /\
  ((forall cl, cl ∈ calls2 -> cl.1 <> Some k) ->
   Dedupe.ttlMs options <= now - t0 ->
     (Dedupe.check options (Some k) now (Dedupe.cache_after options history)).1 = false).
Proof.
  intros history.
  assert (forall t, Dedupe.map_get k (Dedupe.cache_after options history) = Some t ->
            k <> [] -> now - t < Dedupe.ttlMs options ->
            (Dedupe.check options (Some k) now (Dedupe.cache_after options history)).1
            = true) as Hhit.
  { intros t Hget Hne Hwindow.
    destruct (check_cases options (Some k) now (Dedupe.cache_after options history))
      as [[Hf _] | [(k' & ex & _ & _ & _ & _ & ->) | (k' & [= <-] & _ & Hold & _)]].
    - simpl in Hf. rewrite (truthy_nonempty _ Hne) in Hf. discriminate.
    - done.
    - specialize (Hold t Hget). lia. }
  split_and!.
  - (* first check *)
    intros Hfresh.
    assert (Dedupe.map_get k (Dedupe.cache_after options calls1) = None) as Hget.
    { apply map_get_None. intros Hin%after_calls_keys.
      apply list_elem_of_fmap_1 in Hin as (cl & Heq & Hcl). by apply (Hfresh cl). }
    destruct (check_cases options (Some k) now (Dedupe.cache_after options calls1))
      as [[_ ->] | [(k' & ex & [= <-] & _ & Hsome & _) | (k' & _ & _ & _ & ->)]];
      [done | congruence | done].
  - (* repeated check inside the window, the key still being stored *)
    intros Hne Hother Hwindow Hstored.
    destruct (last_check_timestamp options k t0 calls1 calls2 Hne Hother) as [Hget | Hget];
      fold history in Hget.
    + by apply map_get_None in Hget.
    + by apply (Hhit t0).
  - (* the key is still stored when neither expiry nor the cap reached it *)
    intros Hne Hother Hclock Hwindow Hcap.
    set (R := Dedupe.rivals k t0 (calls1 ++ calls2)) in *.
    assert (forall cl k', cl ∈ calls1 ++ calls2 -> cl.1 = Some k' -> k' <> k ->
              t0 <= cl.2 -> k' ∈ R) as Hrival.
    { intros cl k' Hcl Hk Hk' Hlate. apply elem_of_difference. split; [| set_solver].
      apply elem_of_list_to_set, list_elem_of_omap. exists cl. split; [| done].
      apply list_elem_of_In, List.filter_In. split; [by apply list_elem_of_In |].
      by apply Z.leb_le. }
    assert (Dedupe.map_get k (Dedupe.cache_after options history) = Some t0) as Hget.
    { unfold Dedupe.cache_after, history.
      rewrite after_calls_app. change ((Some k, t0) :: calls2) with ([(Some k, t0)] ++ calls2).
      rewrite after_calls_app.
      apply (after_calls_ind options
               (fun c => (NoDup c.*1
                          /\ forall e : jsstring * Z, e ∈ c -> e.1 <> k -> t0 <= e.2 -> e.1 ∈ R)
                         /\ Dedupe.map_get k c = Some t0)).
      - intros cl c' Hcl [Hc' Hget]. destruct (Hother cl Hcl) as [Hkey Htime].
        assert (forall k', cl.1 = Some k' -> k' <> k -> t0 <= cl.2 -> k' ∈ R) as HclR.
        { intros k'. apply Hrival. set_solver. }
        split.
        + by apply watched_check.
        + by apply (watched_keeps options k t0 R).
      - assert (NoDup (Dedupe.after_calls options calls1 Dedupe.empty).*1
                /\ forall e : jsstring * Z,
                     e ∈ Dedupe.after_calls options calls1 Dedupe.empty ->
                     e.1 <> k -> t0 <= e.2 -> e.1 ∈ R) as Hc1.
        { apply (after_calls_ind options
                   (fun c => NoDup c.*1
                             /\ forall e : jsstring * Z, e ∈ c -> e.1 <> k -> t0 <= e.2 ->
                                                         e.1 ∈ R)).
          - intros cl c' Hcl Hc'. apply watched_check; [| done].
            intros k'. apply Hrival. set_solver.
          - split; [apply NoDup_nil_2 | by intros e ?%elem_of_nil]. }
        unfold Dedupe.after_calls at 1. cbn [fold_left fst snd]. split.
        + apply watched_check; [| done]. by intros k' [= <-].
        + apply (watched_records options k t0 R); [done | done | lia | done]. }
    split; [| by apply (Hhit t0)].
    apply map_get_Some in Hget. by apply (list_elem_of_fmap_2 fst _ (k, t0)).
  - (* check after the window *)
    intros Hother Hexpired.
    destruct (check_cases options (Some k) now (Dedupe.cache_after options history))
      as [[_ ->] | [(k' & ex & [= <-] & Hne & Hsome & Hlt & _) | (k' & _ & _ & _ & ->)]];
      [done | | done].
    destruct (last_check_timestamp options k t0 calls1 calls2 Hne Hother) as [Hget | Hget];
      fold history in Hget; rewrite Hget in Hsome; [done |].
    injection Hsome as <-. lia.
Qed.

Lemma dedupe_check_first_repeat_expired_witness :
  let options := {| Dedupe.ttlMs := 10; Dedupe.maxSize := 2 |} in
  let history :=
    [(Some (js "b"), 0); (Some (js "c"), 1)] ++ (Some (js "a"), 3) :: [(Some (js "d"), 4)] in
  (Dedupe.check options (Some (js "a")) 0
     (Dedupe.cache_after options [(Some (js "b"), 0)])).1 = false
  /\ (Dedupe.check options (Some (js "a")) 5 (Dedupe.cache_after options history)).1 = true
  /\ (js "a" ∈ (Dedupe.cache_after options history).*1
      /\ (Dedupe.check options (Some (js "a")) 5
            (Dedupe.cache_after options history)).1 = true)
  /\ (Dedupe.check options (Some (js "a")) 13 (Dedupe.cache_after options history)).1 = false.
Proof.
  intros options history. split; [| split; [| split]].
  - destruct (dedupe_check_first_repeat_expired options (js "a")
                [(Some (js "b"), 0)] [] 0 0) as (Hfirst & _).
    apply Hfirst. intros cl [-> | []%elem_of_nil]%elem_of_cons. vm_compute. discriminate.
  - destruct (dedupe_check_first_repeat_expired options (js "a")
                [(Some (js "b"), 0); (Some (js "c"), 1)] [(Some (js "d"), 4)] 3 5)
      as (_ & Hstored & _).
    apply Hstored.
    + discriminate.
    + intros cl [-> | []%elem_of_nil]%elem_of_cons. vm_compute. discriminate.
    + simpl. lia.
    + apply list_elem_of_In. vm_compute. auto.
  - destruct (dedupe_check_first_repeat_expired options (js "a")
                [(Some (js "b"), 0); (Some (js "c"), 1)] [(Some (js "d"), 4)] 3 5)
      as (_ & _ & Hrepeat & _).
    apply Hrepeat.
    + discriminate.
    + intros cl [-> | []%elem_of_nil]%elem_of_cons.
      split; [vm_compute; discriminate | simpl; lia].
    + lia.
    + simpl. lia.
    + vm_compute. reflexivity.
  - destruct (dedupe_check_first_repeat_expired options (js "a")
                [(Some (js "b"), 0); (Some (js "c"), 1)] [(Some (js "d"), 4)] 3 13)
      as (_ & _ & _ & Hexpired).
    apply Hexpired.
    + intros cl [-> | []%elem_of_nil]%elem_of_cons. vm_compute. discriminate.
    + simpl. lia.
Defined.

(** ** JavaScript numbers: rounding to the nearest double *)

Section NumberFacts.
Import JSNumber.
Local Open Scope Q_scope.

Lemma pow2_pos (k : Z) : 0 < pow2 k.
Proof. apply Qpower_0_lt. reflexivity. Qed.

Lemma pow2_plus (a b : Z) : pow2 (a + b) == pow2 a * pow2 b.
Proof. apply Qpower_plus. discriminate. Qed.

Lemma pow2_le (a b : Z) : (a <= b)%Z -> pow2 a <= pow2 b.
Proof. intros Hab. apply Qpower_le_compat_l; [done | discriminate]. Qed.

Lemma pow2_Z (n : Z) : (0 <= n)%Z -> pow2 n == inject_Z (2 ^ n).
Proof. intros Hn. unfold pow2. by rewrite Zpower_Qpower. Qed.

Lemma pow2_succ (a : Z) : pow2 (a + 1) == 2 * pow2 a.
Proof. rewrite pow2_plus. change (pow2 1) with 2. ring. Qed.

Lemma inject_Z_lt (a b : Z) : (a < b)%Z -> inject_Z a < inject_Z b.
Proof. intros H. by rewrite <- Zlt_Qlt. Qed.

Lemma inject_Z_le (a b : Z) : (a <= b)%Z -> inject_Z a <= inject_Z b.
Proof. intros H. by rewrite <- Zle_Qle. Qed.

(** [binade] brackets a positive rational between two powers of two. *)
Lemma binade_spec (q : Q) : 0 < q -> pow2 (binade q) <= q /\ q < pow2 (binade q + 1).
Proof.
  intros Hq. destruct q as [n d]. unfold binade. cbn [Qnum Qden].
  assert (0 < n)%Z as Hn by (unfold Qlt in Hq; simpl in Hq; lia).
  set (ln := Z.log2 n). set (ld := Z.log2 (Z.pos d)).
  destruct (Z.log2_spec n Hn) as [Hn1 Hn2]. fold ln in Hn1, Hn2.
  destruct (Z.log2_spec (Z.pos d) ltac:(lia)) as [Hd1 Hd2]. fold ld in Hd1, Hd2.
  assert (0 <= ln)%Z as Hln by apply Z.log2_nonneg.
  assert (0 <= ld)%Z as Hld by apply Z.log2_nonneg.
  assert (n # d == inject_Z n / inject_Z (Z.pos d)) as Hdiv by apply Qmake_Qdiv.
  assert (0 < inject_Z (Z.pos d)) as Hdpos by (apply (inject_Z_lt 0); lia).
  assert (pow2 ln <= inject_Z n) as Hn1q by (rewrite pow2_Z by done; by apply inject_Z_le).
  assert (inject_Z n < pow2 (ln + 1)) as Hn2q.
  { rewrite pow2_Z by lia. apply inject_Z_lt. by rewrite <- Z.add_1_r in Hn2. }
  assert (pow2 ld <= inject_Z (Z.pos d)) as Hd1q by (rewrite pow2_Z by done; by apply inject_Z_le).
  assert (inject_Z (Z.pos d) < pow2 (ld + 1)) as Hd2q.
  { rewrite pow2_Z by lia. apply inject_Z_lt. by rewrite <- Z.add_1_r in Hd2. }
  assert (forall k, pow2 k * inject_Z (Z.pos d) <= inject_Z n -> pow2 k <= n # d) as Hlow.
  { intros k Hk. rewrite Hdiv. apply Qle_shift_div_l; done. }
  assert (forall k, inject_Z n < pow2 k * inject_Z (Z.pos d) -> n # d < pow2 k) as Hhigh.
  { intros k Hk. rewrite Hdiv. apply Qlt_shift_div_r; done. }
  assert (n # d < pow2 (ln - ld + 1)) as Hupper.
  { apply Hhigh. replace (ln - ld + 1)%Z with ((ln + 1) + - ld)%Z by lia.
    rewrite pow2_plus.
    assert (pow2 (- ld) * pow2 ld == 1) as Hinv.
    { rewrite <- pow2_plus. by replace (- ld + ld)%Z with 0%Z by lia. }
    pose proof (pow2_pos (- ld)) as HA. pose proof (pow2_pos (ln + 1)) as HP.
    assert (1 <= pow2 (- ld) * inject_Z (Z.pos d)) as Hone.
    { rewrite <- Hinv. apply Qmult_le_l; done. }
    rewrite <- Qmult_assoc.
    apply Qlt_le_trans with (pow2 (ln + 1) * 1); [by rewrite Qmult_1_r |].
    apply Qmult_le_l; done. }
  assert (pow2 (ln - ld - 1) <= n # d) as Hlower.
  { apply Hlow. replace (ln - ld - 1)%Z with (ln + - (ld + 1))%Z by lia.
    rewrite pow2_plus.
    assert (pow2 (- (ld + 1)) * pow2 (ld + 1) == 1) as Hinv.
    { rewrite <- pow2_plus. by replace (- (ld + 1) + (ld + 1))%Z with 0%Z by lia. }
    pose proof (pow2_pos (- (ld + 1))) as HA. pose proof (pow2_pos ln) as HP.
    assert (pow2 (- (ld + 1)) * inject_Z (Z.pos d) <= 1) as Hone.
    { rewrite <- Hinv. apply Qmult_le_l; [done |]. by apply Qlt_le_weak. }
    rewrite <- Qmult_assoc.
    apply Qle_trans with (pow2 ln * 1); [| by rewrite Qmult_1_r].
    apply Qmult_le_l; done. }
  destruct (Qle_bool (pow2 (ln - ld)) (n # d)) eqn:Hcmp.
  - apply Qle_bool_iff in Hcmp. done.
  - split; [done |]. replace (ln - ld - 1 + 1)%Z with (ln - ld)%Z by lia.
    apply Qnot_le_lt. intros Hle. apply Qle_bool_iff in Hle. congruence.
Qed.

Lemma binade_le (p q : Q) : 0 < p -> p <= q -> (binade p <= binade q)%Z.
Proof.
  intros Hp Hpq.
  destruct (binade_spec p Hp) as [Hp1 _].
  destruct (binade_spec q ltac:(lra)) as [_ Hq2].
  destruct (Z.le_gt_cases (binade p) (binade q)) as [? | Hgt]; [done |].
  pose proof (pow2_le (binade q + 1) (binade p) ltac:(lia)). lra.
Qed.

Lemma round_half_even_le (x y : Q) :
  x <= y -> (round_half_even x <= round_half_even y)%Z.
Proof.
  intros Hxy. unfold round_half_even.
  pose proof (Qfloor_resp_le x y Hxy) as Hfg.
  pose proof (Qfloor_le x) as Hx1. pose proof (Qlt_floor x) as Hx2.
  pose proof (Qfloor_le y) as Hy1. pose proof (Qlt_floor y) as Hy2.
  set (f := Qfloor x) in *. set (g := Qfloor y) in *.
  destruct (Z.eq_dec f g) as [Heq | Hne].
  - rewrite <- Heq in *. clear Heq Hfg.
    destruct (Qcompare_spec (x - inject_Z f) (1 # 2)) as [Hx | Hx | Hx];
      destruct (Qcompare_spec (y - inject_Z f) (1 # 2)) as [Hy | Hy | Hy];
      try destruct (Z.even f); try lia; lra.
  - assert (f + 1 <= g)%Z as Hlt by lia.
    destruct (x - inject_Z f ?= 1 # 2); destruct (y - inject_Z g ?= 1 # 2);
      try destruct (Z.even f); try destruct (Z.even g); lia.
Qed.

Lemma round_half_even_Z (z : Z) : round_half_even (inject_Z z) = z.
Proof.
  unfold round_half_even. rewrite Qfloor_Z.
  destruct (Qcompare_spec (inject_Z z - inject_Z z) (1 # 2)) as [H | H | H];
    [lra | done | lra].
Qed.

Lemma round_half_even_comp (x y : Q) : x == y -> round_half_even x = round_half_even y.
Proof.
  intros Hxy. apply Z.le_antisymm; apply round_half_even_le; lra.
Qed.

Lemma round_half_even_upper (x : Q) (z : Z) :
  x <= inject_Z z -> (round_half_even x <= z)%Z.
Proof.
  intros Hx. rewrite <- (round_half_even_Z z). by apply round_half_even_le.
Qed.

Lemma round_half_even_lower (x : Q) (z : Z) :
  inject_Z z <= x -> (z <= round_half_even x)%Z.
Proof.
  intros Hx. rewrite <- (round_half_even_Z z). by apply round_half_even_le.
Qed.

Lemma Qdiv_pow2_le (p q : Q) (e : Z) : p <= q -> p / pow2 e <= q / pow2 e.
Proof.
  intros Hpq. unfold Qdiv. apply Qmult_le_compat_r; [done |].
  apply Qinv_le_0_compat, Qlt_le_weak, pow2_pos.
Qed.

Lemma Qdiv_pow2 (a e : Z) : pow2 a / pow2 e == pow2 (a - e).
Proof.
  unfold Z.sub. rewrite pow2_plus. unfold pow2 at 4. rewrite Qpower_opp. reflexivity.
Qed.

(** Rounding to the grid never goes down when the rational goes up. *)
Lemma nearest_le (p q : Q) : 0 < p -> p <= q -> nearest p <= nearest q.
Proof.
  intros Hp Hpq. assert (0 < q) as Hq by lra.
  pose proof (binade_le p q Hp Hpq) as Hk.
  destruct (binade_spec p Hp) as [_ Hp2]. destruct (binade_spec q Hq) as [Hq1 _].
  unfold nearest, grid.
  set (kp := binade p) in *. set (kq := binade q) in *.
  set (ep := Z.max (kp - 52) (-1074)). set (eq := Z.max (kq - 52) (-1074)).
  assert (ep <= eq)%Z as He by lia.
  pose proof (pow2_pos ep) as Hep. pose proof (pow2_pos eq) as Heq.
  destruct (Z.eq_dec ep eq) as [Hsame | Hne].
  - rewrite <- Hsame. apply Qmult_le_compat_r; [| lra].
    apply inject_Z_le, round_half_even_le, Qdiv_pow2_le, Hpq.
  - assert (eq = kq - 52)%Z as Heq' by lia.
    set (u := Z.max (kp + 1) ep).
    apply Qle_trans with (pow2 u); [| apply Qle_trans with (pow2 kq)].
    + assert (pow2 u == inject_Z (2 ^ (u - ep)) * pow2 ep) as ->.
      { rewrite <- pow2_Z by lia. rewrite <- pow2_plus. by replace (u - ep + ep)%Z with u by lia. }
      apply Qmult_le_compat_r; [| lra].
      apply inject_Z_le, round_half_even_upper.
      rewrite <- pow2_Z by lia. rewrite <- Qdiv_pow2.
      apply Qdiv_pow2_le. pose proof (pow2_le (kp + 1) u ltac:(lia)). lra.
    + apply pow2_le. lia.
    + assert (pow2 kq == inject_Z (2 ^ 52) * pow2 eq) as ->.
      { rewrite <- pow2_Z by lia. rewrite <- pow2_plus. by replace (52 + eq)%Z with kq by lia. }
      apply Qmult_le_compat_r; [| lra].
      apply inject_Z_le, round_half_even_lower.
      rewrite <- pow2_Z by lia.
      assert (pow2 52 == pow2 kq / pow2 eq) as -> by (rewrite Qdiv_pow2; by replace (kq - eq)%Z with 52%Z by lia).
      by apply Qdiv_pow2_le.
Qed.

Lemma nearest_nonneg (q : Q) : 0 < q -> 0 <= nearest q.
Proof.
  intros Hq. unfold nearest. apply Qmult_le_0_compat; [| apply Qlt_le_weak, pow2_pos].
  apply (inject_Z_le 0), round_half_even_lower.
  apply Qle_shift_div_l; [apply pow2_pos |]. change (inject_Z 0) with 0. lra.
Qed.
End NumberFacts.

Section NumberOrder.
Import JSNumber.
Local Open Scope Q_scope.
Implicit Types (x y z : number) (p q : Q).

Lemma Qle_bool_true p q : Qle_bool p q = true <-> p <= q.
Proof. apply Qle_bool_iff. Qed.

Lemma Qle_bool_false p q : Qle_bool p q = false <-> q < p.
Proof.
  split.
  - intros Hf. apply Qnot_le_lt. intros Hle. apply Qle_bool_iff in Hle. congruence.
  - intros Hlt. apply not_true_is_false. intros Hle%Qle_bool_iff. lra.
Qed.

Lemma le_Finite p q : le (Finite p) (Finite q) = true <-> p <= q.
Proof. apply Qle_bool_iff. Qed.

Lemma le_refl x : is_NaN x = false -> le x x = true.
Proof. destruct x; try done. intros _. apply le_Finite. lra. Qed.

Lemma le_trans x y z : le x y = true -> le y z = true -> le x z = true.
Proof.
  destruct x, y, z; try done. rewrite !le_Finite. lra.
Qed.

Lemma le_antisym x y : le x y = true -> le y x = true -> same x y.
Proof.
  destruct x, y; try done. rewrite !le_Finite. simpl. lra.
Qed.

Lemma same_le x x' y y' : same x x' -> same y y' -> le x y = le x' y'.
Proof.
  destruct x, x', y, y'; try done. simpl. intros Hx Hy.
  destruct (Qle_bool q q1) eqn:H1.
  - symmetry. apply Qle_bool_true in H1. apply Qle_bool_true. lra.
  - symmetry. apply Qle_bool_false in H1. apply Qle_bool_false. lra.
Qed.

Lemma same_refl x : same x x.
Proof. destruct x; simpl; done. Qed.

Lemma same_sym x y : same x y -> same y x.
Proof. destruct x, y; simpl; try done; lra. Qed.

Lemma same_trans x y z : same x y -> same y z -> same x z.
Proof. destruct x, y, z; simpl; try done; lra. Qed.

Lemma same_le_true x y : same x y -> is_NaN x = false -> le x y = true.
Proof.
  intros Hxy Hx. rewrite <- (same_le x x x y (same_refl x) Hxy). by apply le_refl.
Qed.

(** [y < x] is the negation of [x <= y], except on NaN. *)
Lemma lt_le x y : is_NaN x = false -> is_NaN y = false -> lt y x = negb (le x y).
Proof. destruct x, y; done. Qed.

Lemma le_neg x y : le (neg x) (neg y) = le y x.
Proof.
  destruct x, y; try done. simpl.
  destruct (Qle_bool q0 q) eqn:H.
  - apply Qle_bool_true in H. apply Qle_bool_true. lra.
  - apply Qle_bool_false in H. apply Qle_bool_false. lra.
Qed.

Lemma round_pos_not_NaN q : is_NaN (round_pos q) = false.
Proof. unfold round_pos. by destruct (Qle_bool _ _). Qed.

Lemma round_pos_le p q : 0 < p -> p <= q -> le (round_pos p) (round_pos q) = true.
Proof.
  intros Hp Hpq. pose proof (nearest_le p q Hp Hpq) as Hle. unfold round_pos.
  destruct (Qle_bool (pow2 1024) (nearest q)) eqn:Hq.
  - by destruct (Qle_bool (pow2 1024) (nearest p)).
  - apply Qle_bool_false in Hq.
    destruct (Qle_bool (pow2 1024) (nearest p)) eqn:Hp'.
    + apply Qle_bool_true in Hp'. lra.
    + by apply le_Finite.
Qed.

Lemma round_pos_nonneg q : 0 < q -> le (Finite 0) (round_pos q) = true.
Proof.
  intros Hq. unfold round_pos. destruct (Qle_bool _ _); [done |].
  apply le_Finite. by apply nearest_nonneg.
Qed.

Lemma RN_not_NaN q : is_NaN (RN q) = false.
Proof.
  unfold RN. destruct (q ?= 0); [done | |].
  - pose proof (round_pos_not_NaN (- q)). by destruct (round_pos (- q)).
  - apply round_pos_not_NaN.
Qed.

(** Rounding to the nearest double is monotone. *)
Lemma RN_le p q : p <= q -> le (RN p) (RN q) = true.
Proof.
  intros Hpq. unfold RN.
  destruct (Qcompare_spec p 0) as [Hp | Hp | Hp];
    destruct (Qcompare_spec q 0) as [Hq | Hq | Hq]; try lra.
  - by apply le_Finite.
  - by apply round_pos_nonneg.
  - change (Finite 0) with (neg (Finite 0)). rewrite le_neg. apply round_pos_nonneg. lra.
  - rewrite le_neg. apply round_pos_le; lra.
  - apply le_trans with (Finite 0).
    + change (Finite 0) with (neg (Finite 0)). rewrite le_neg. apply round_pos_nonneg. lra.
    + by apply round_pos_nonneg.
  - by apply round_pos_le.
Qed.

Lemma RN_comp p q : p == q -> same (RN p) (RN q).
Proof. intros Hpq. apply le_antisym; apply RN_le; lra. Qed.

Lemma RN_0 : RN 0 = Finite 0.
Proof. reflexivity. Qed.

Lemma RN_zero q : q == 0 -> RN q = Finite 0.
Proof. intros Hq. unfold RN. by destruct (Qcompare_spec q 0); [| lra | lra]. Qed.

Lemma Math_round_le x y : le x y = true -> le (Math_round x) (Math_round y) = true.
Proof.
  destruct x, y; try done. rewrite le_Finite. intros Hpq.
  apply le_Finite, inject_Z_le, Qfloor_resp_le. lra.
Qed.

Lemma Math_round_whole q (z : Z) : q == inject_Z z -> Math_round (Finite q) = Finite (inject_Z z).
Proof.
  intros Hq. unfold Math_round. do 2 f_equal.
  assert (Qfloor (q + (1 # 2)) = Qfloor (inject_Z z + (1 # 2))) as ->.
  { apply Z.le_antisymm; apply Qfloor_resp_le; lra. }
  pose proof (Qfloor_le (inject_Z z + (1 # 2))) as H1.
  pose proof (Qlt_floor (inject_Z z + (1 # 2))) as H2.
  set (f := Qfloor _) in *.
  assert (inject_Z f < inject_Z (z + 1)) as Ha
    by (rewrite inject_Z_plus; change (inject_Z 1) with 1; lra).
  assert (inject_Z z < inject_Z (f + 1)) as Hb by lra.
  rewrite <- Zlt_Qlt in Ha, Hb. lia.
Qed.

Lemma Math_min_not_above x y : lt x (Math_min x y) = false.
Proof.
  unfold Math_min. destruct x as [a | | |], y as [b | | |]; try done; simpl.
  - destruct (Qle_bool a b) eqn:H; simpl.
    + apply negb_false_iff, Qle_bool_true. lra.
    + apply negb_false_iff, Qle_bool_true. apply Qle_bool_false in H. lra.
  - apply negb_false_iff, Qle_bool_true. lra.
Qed.

Lemma Math_min_capped x y :
  is_NaN (Math_min x y) = false -> le (Math_min x y) x = true.
Proof.
  intros Hr. pose proof (Math_min_not_above x y) as Hlt.
  assert (is_NaN x = false) as Hx by (by destruct x, y).
  rewrite lt_le in Hlt by done. by apply negb_false_iff in Hlt.
Qed.

Lemma Math_min_NaN x y : is_NaN (Math_min x y) = is_NaN x || is_NaN y.
Proof.
  unfold Math_min. destruct x, y; try done; by destruct (lt _ _).
Qed.

Lemma Math_min_le x y y' :
  is_NaN x = false -> le y y' = true -> le (Math_min x y) (Math_min x y') = true.
Proof.
  intros Hx Hy.
  assert (is_NaN y = false) as Hy1 by (by destruct y, y').
  assert (is_NaN y' = false) as Hy2 by (by destruct y, y').
  unfold Math_min.
  destruct x as [a | | |], y as [b | | |], y' as [b' | | |]; try done; simpl in *;
    repeat match goal with
           | |- context [Qle_bool ?u ?v] =>
               let H := fresh in destruct (Qle_bool u v) eqn:H; simpl;
               [apply Qle_bool_true in H | apply Qle_bool_false in H]
           end;
    try done; try apply Qle_bool_true; try apply Qle_bool_true in Hy; try lra.
Qed.
End NumberOrder.

(** ** Backoff engine *)

Section BackoffFacts.
Import JSNumber Backoff.
Local Open Scope Q_scope.
Variable pow_approx : number -> number -> number.
Implicit Types (policy : BackoffPolicy) (attempt : number).

Lemma Math_pow_zero (b : number) (e : Q) :
  e == 0 -> Math_pow pow_approx b (Finite e) = Finite 1.
Proof. intros He. unfold Math_pow. by apply Qeq_bool_iff in He as ->. Qed.

(** An attempt number of at most 1 gives the exponent 0. *)
Lemma exponent_first attempt :
  le attempt (Finite 1) = true -> exists e, exponent attempt = Finite e /\ e == 0.
Proof.
  unfold exponent, sub. destruct attempt as [a | | |]; try done.
  - intros Ha%le_Finite. cbn [neg add].
    assert (le (RN (a + Qopp 1)) (Finite 0) = true) as Hle.
    { rewrite <- RN_0. apply RN_le. lra. }
    pose proof (RN_not_NaN (a + Qopp 1)) as Hnan.
    destruct (RN (a + Qopp 1)) as [d | | |]; try done.
    + unfold Math_max. destruct (lt (Finite d) (Finite 0)) eqn:Hlt.
      * exists 0. split; [done | reflexivity].
      * exists d. split; [done |]. apply le_Finite in Hle.
        apply negb_false_iff, Qle_bool_true in Hlt. lra.
    + exists 0. split; [done | reflexivity].
  - intros _. exists 0. split; [done | reflexivity].
Qed.

Lemma base_first policy attempt :
  le attempt (Finite 1) = true ->
  base pow_approx policy attempt = mul (initialMs policy) (Finite 1).
Proof.
  intros (e & He & Hzero)%exponent_first. unfold base. by rewrite He, Math_pow_zero.
Qed.

(** Without jitter a finite base is rounded and capped, nothing else. *)
Lemma computeBackoff_no_jitter (rand : Q) policy attempt (b j : Q) :
  base pow_approx policy attempt = Finite b -> jitter policy = Finite j -> j == 0 ->
  computeBackoff pow_approx rand policy attempt
  = Math_min (maxMs policy) (Math_round (RN (b + 0))).
Proof.
  intros Hb Hj Hzero. unfold computeBackoff. rewrite Hb, Hj. cbn [mul].
  rewrite (RN_zero (b * j)) by (rewrite Hzero; ring). cbn [mul].
  rewrite (RN_zero (0 * rand)) by ring. done.
Qed.

(** The delay of a first attempt. *)
Lemma computeBackoff_first (rand : Q) policy attempt (i j : Q) (z : Z) :
  initialMs policy = Finite i -> representable (Finite i) -> i == inject_Z z ->
  jitter policy = Finite j -> j == 0 ->
  le (initialMs policy) (maxMs policy) = true ->
  le attempt (Finite 1) = true ->
  same (computeBackoff pow_approx rand policy attempt) (initialMs policy).
Proof.
  intros Hi Hrep Hwhole Hj Hzero Hcap Hfirst.
  assert (exists b, base pow_approx policy attempt = Finite b /\ b == i) as (b & Hb & Hbi).
  { rewrite base_first, Hi by done. cbn [mul].
    assert (same (RN (i * 1)) (Finite i)) as Hsame.
    { eapply same_trans; [apply RN_comp | exact Hrep]. ring. }
    destruct (RN (i * 1)) as [b | | |]; try done. by exists b. }
  rewrite (computeBackoff_no_jitter rand policy attempt b j Hb Hj Hzero).
  assert (exists s, RN (b + 0) = Finite s /\ s == i) as (s & -> & Hsi).
  { assert (same (RN (b + 0)) (Finite i)) as Hsame.
    { eapply same_trans; [apply RN_comp | exact Hrep]. lra. }
    destruct (RN (b + 0)) as [s | | |]; try done. by exists s. }
  rewrite (Math_round_whole s z) by lra.
  rewrite Hi in *. unfold Math_min.
  destruct (maxMs policy) as [m | | |]; try done.
  apply le_Finite in Hcap.
  destruct (lt (Finite (inject_Z z)) (Finite m)) eqn:Hlt; simpl; [lra |].
  apply negb_false_iff, Qle_bool_true in Hlt. lra.
Qed.

(** Without jitter and without overflow, the delay follows the power. *)
Lemma computeBackoff_grows (rand rand' : Q) policy (attempt attempt' : number) (i j : Q) :
  initialMs policy = Finite i -> 0 <= i ->
  jitter policy = Finite j -> j == 0 ->
  is_NaN (maxMs policy) = false ->
  le (Math_pow pow_approx (factor policy) (exponent attempt))
     (Math_pow pow_approx (factor policy) (exponent attempt')) = true ->
  is_finite (base pow_approx policy attempt) = true ->
  is_finite (base pow_approx policy attempt') = true ->
  le (computeBackoff pow_approx rand policy attempt)
     (computeBackoff pow_approx rand' policy attempt') = true.
Proof.
  intros Hi Hpos Hj Hzero Hmax Hpow Hfin Hfin'.
  destruct (base pow_approx policy attempt) as [b | | |] eqn:Hb; try done.
  destruct (base pow_approx policy attempt') as [b' | | |] eqn:Hb'; try done.
  rewrite (computeBackoff_no_jitter rand policy attempt b j Hb Hj Hzero).
  rewrite (computeBackoff_no_jitter rand' policy attempt' b' j Hb' Hj Hzero).
  apply Math_min_le; [done |]. apply Math_round_le, RN_le.
  assert (b <= b'); [| lra].
  apply le_Finite. rewrite <- Hb, <- Hb'. unfold base in *. rewrite Hi in *.
  destruct (Math_pow pow_approx (factor policy) (exponent attempt)) as [p | | |];
    try (simpl in Hb; by destruct (i ?= 0));
  destruct (Math_pow pow_approx (factor policy) (exponent attempt')) as [p' | | |];
    try (simpl in Hb'; by destruct (i ?= 0)).
  cbn [mul]. apply RN_le. apply le_Finite in Hpow. nra.
Qed.
End BackoffFacts.

(** ** Backoff on a platform whose powers are exact *)

Section WholePowers.
Import JSNumber Backoff.
Local Open Scope Q_scope.

Lemma binade_whole (z : Z) : (0 < z <= 2 ^ 53)%Z -> (0 <= binade (inject_Z z) <= 53)%Z.
Proof.
  intros [Hpos Hmax].
  assert (0 < inject_Z z) as Hq by (by apply (inject_Z_lt 0)).
  destruct (binade_spec (inject_Z z) Hq) as [Hlow Hhigh].
  set (k := binade (inject_Z z)) in *. split.
  - destruct (Z.le_gt_cases 0 k) as [? | Hneg]; [done |].
    pose proof (pow2_le (k + 1) 0 ltac:(lia)) as Hle. change (pow2 0) with 1 in Hle.
    assert (inject_Z 1 <= inject_Z z) by (apply inject_Z_le; lia).
    change (inject_Z 1) with 1 in *. lra.
  - destruct (Z.le_gt_cases k 53) as [? | Hbig]; [done |].
    pose proof (pow2_le 54 k ltac:(lia)) as Hle. rewrite (pow2_Z 54) in Hle by lia.
    assert (inject_Z z < inject_Z (2 ^ 54)) by (apply inject_Z_lt; lia). lra.
Qed.

(** Whole numbers up to [2^53] are doubles. *)
Lemma nearest_whole (z : Z) : (0 < z <= 2 ^ 53)%Z -> nearest (inject_Z z) == inject_Z z.
Proof.
  intros Hz. pose proof (binade_whole z Hz) as Hk.
  assert (0 < inject_Z z) as Hq by (apply (inject_Z_lt 0); lia).
  destruct (binade_spec (inject_Z z) Hq) as [Hlow _].
  unfold nearest, grid. set (k := binade (inject_Z z)) in *.
  replace (Z.max (k - 52) (-1074)) with (k - 52)%Z by lia.
  destruct (Z.le_gt_cases (k - 52) 0) as [Hsmall | Hbig].
  - assert (inject_Z z / pow2 (k - 52) == inject_Z (z * 2 ^ (52 - k))) as Hscaled.
    { rewrite inject_Z_mult, <- pow2_Z by lia.
      replace (52 - k)%Z with (- (k - 52))%Z by lia. unfold pow2 at 2.
      rewrite Qpower_opp. reflexivity. }
    rewrite (round_half_even_comp _ _ Hscaled), round_half_even_Z, <- Hscaled.
    field. pose proof (pow2_pos (k - 52)). lra.
  - assert (k = 53)%Z as -> by lia. change (53 - 52)%Z with 1%Z.
    rewrite (pow2_Z 53) in Hlow by lia.
    assert (z = 2 ^ 53)%Z as ->.
    { apply Z.le_antisymm; [lia |]. by rewrite Zle_Qle. }
    vm_compute. reflexivity.
Qed.

Lemma representable_whole (z : Z) :
  (- 2 ^ 53 <= z <= 2 ^ 53)%Z -> same (RN (inject_Z z)) (Finite (inject_Z z)).
Proof.
  intros Hz. unfold RN.
  destruct (Qcompare_spec (inject_Z z) 0) as [Hzero | Hneg | Hpos].
  - simpl. lra.
  - assert (z < 0)%Z as Hz' by (by rewrite (Zlt_Qlt z 0)).
    pose proof (nearest_whole (- z) ltac:(lia)) as Hnear.
    rewrite inject_Z_opp in Hnear. unfold round_pos.
    destruct (Qle_bool (pow2 1024) (nearest (- inject_Z z))) eqn:Hover.
    + apply Qle_bool_true in Hover. rewrite Hnear in Hover.
      pose proof (pow2_le 53 1024 ltac:(lia)) as Hle. rewrite (pow2_Z 53) in Hle by lia.
      assert (inject_Z (- z) <= inject_Z (2 ^ 53)) by (apply inject_Z_le; lia).
      rewrite inject_Z_opp in *.
      assert (pow2 53 < pow2 1024) by (vm_compute; reflexivity).
      rewrite (pow2_Z 53) in * by lia. lra.
    + simpl. lra.
  - assert (0 < z)%Z as Hz' by (by rewrite (Zlt_Qlt 0 z)).
    pose proof (nearest_whole z ltac:(lia)) as Hnear. unfold round_pos.
    destruct (Qle_bool (pow2 1024) (nearest (inject_Z z))) eqn:Hover.
    + apply Qle_bool_true in Hover. rewrite Hnear in Hover.
      assert (inject_Z z <= inject_Z (2 ^ 53)) by (apply inject_Z_le; lia).
      assert (pow2 53 < pow2 1024) by (vm_compute; reflexivity).
      rewrite (pow2_Z 53) in * by lia. lra.
    + simpl. lra.
Qed.

(** The exponent of a whole attempt number. *)
Lemma exponent_whole (n : Z) :
  (n <= 2 ^ 53)%Z ->
  exists e, exponent (Finite (inject_Z n)) = Finite e /\ e == inject_Z (Z.max (n - 1) 0).
Proof.
  intros Hn. destruct (Z.le_gt_cases n 1) as [Hfirst | Hlater].
  - destruct (exponent_first (Finite (inject_Z n))) as (e & He & Hzero).
    + apply le_Finite. by apply (inject_Z_le n 1).
    + exists e. split; [done |]. by replace (Z.max (n - 1) 0) with 0%Z by lia.
  - unfold exponent, sub. cbn [neg add].
    assert (same (RN (inject_Z n + Qopp 1)) (Finite (inject_Z (n - 1)))) as Hsame.
    { eapply same_trans; [apply (RN_comp _ (inject_Z (n - 1))) |].
      - unfold Z.sub. rewrite inject_Z_plus. reflexivity.
      - apply representable_whole. lia. }
    destruct (RN (inject_Z n + Qopp 1)) as [d | | |]; try done. simpl in Hsame.
    exists d. split; [| by replace (Z.max (n - 1) 0) with (n - 1)%Z by lia].
    unfold Math_max.
    assert (lt (Finite d) (Finite 0) = false) as ->; [| done].
    apply negb_false_iff, Qle_bool_true. rewrite Hsame. apply (inject_Z_le 0). lia.
Qed.

Lemma Qfloor_whole (e : Q) (k : Z) : e == inject_Z k -> Qfloor e = k.
Proof.
  intros He. rewrite <- (Qfloor_Z k). apply Z.le_antisymm; apply Qfloor_resp_le; lra.
Qed.

(** [Math.pow] at the exponent of a whole attempt number, on the platform
    with exact whole powers. *)
Lemma Math_pow_whole (f : Q) (n : Z) :
  (n <= 2 ^ 53)%Z ->
  same (Math_pow whole_power (Finite f) (exponent (Finite (inject_Z n))))
       (RN (f ^ Z.max (n - 1) 0)).
Proof.
  intros Hn. destruct (exponent_whole n Hn) as (e & -> & He).
  unfold Math_pow. destruct (Qeq_bool e 0) eqn:Hzero.
  - apply Qeq_bool_iff in Hzero.
    assert (Z.max (n - 1) 0 = 0)%Z as ->.
    { apply inject_Z_injective. rewrite <- He, Hzero. reflexivity. }
    vm_compute. reflexivity.
  - unfold whole_power. rewrite (Qfloor_whole e _ He).
    assert (Qeq_bool e (inject_Z (Z.max (n - 1) 0)) = true) as -> by (by apply Qeq_bool_iff).
    assert ((0 <=? Z.max (n - 1) 0)%Z = true) as -> by (apply Z.leb_le; lia).
    apply same_refl.
Qed.

Lemma finite_between (x : number) (b : Q) :
  le (Finite 0) x = true -> le x (Finite b) = true -> is_finite x = true.
Proof. by destruct x. Qed.

(** On a platform whose whole powers are exact, a policy without jitter
    whose factor is at least 1 yields delays that do not decrease with the
    attempt number, as long as [initialMs * factor^exponent] does not
    overflow. *)
Lemma computeBackoff_grows_with_attempts
  (rand rand' : Q) (policy : BackoffPolicy) (f i j : Q) (n m : Z) :
  factor policy = Finite f -> 1 <= f ->
  initialMs policy = Finite i -> 0 <= i ->
  jitter policy = Finite j -> j == 0 ->
  is_NaN (maxMs policy) = false ->
  (n <= m <= 2 ^ 53)%Z ->
  is_finite (base whole_power policy (Finite (inject_Z m))) = true ->
  le (computeBackoff whole_power rand policy (Finite (inject_Z n)))
     (computeBackoff whole_power rand' policy (Finite (inject_Z m))) = true.
Proof.
  intros Hf Hgrow Hi Hpos Hj Hzero Hmax [Hnm Hm] Hfin.
  pose proof (Math_pow_whole f n ltac:(lia)) as Hpn.
  pose proof (Math_pow_whole f m Hm) as Hpm.
  assert (le (RN 0) (RN (f ^ Z.max (n - 1) 0)) = true) as Hlow.
  { apply RN_le, Qpower_0_le. lra. }
  assert (le (RN (f ^ Z.max (n - 1) 0)) (RN (f ^ Z.max (m - 1) 0)) = true) as Hle.
  { apply RN_le, Qpower_le_compat_l; [lia | done]. }
  rewrite RN_0 in Hlow.
  rewrite <- (same_le _ _ _ _ (same_refl (Finite 0)) Hpn) in Hlow.
  rewrite <- (same_le _ _ _ _ Hpn Hpm) in Hle.
  assert (is_finite (base whole_power policy (Finite (inject_Z n))) = true) as Hfin'.
  { unfold base in *. rewrite Hf, Hi in *.
    destruct (Math_pow whole_power (Finite f) (exponent (Finite (inject_Z m))))
      as [pm | | |]; try (simpl in Hfin; by destruct (i ?= 0)).
    destruct (Math_pow whole_power (Finite f) (exponent (Finite (inject_Z n))))
      as [pn | | |]; try done.
    cbn [mul] in *. apply le_Finite in Hlow, Hle.
    destruct (RN (i * pm)) as [bm | | |] eqn:Hbm; try done.
    apply (finite_between _ bm).
    - rewrite <- RN_0. apply RN_le. nra.
    - rewrite <- Hbm. apply RN_le. nra. }
  apply (computeBackoff_grows whole_power rand rand' policy _ _ i j); try done.
  by rewrite Hf.
Qed.
End WholePowers.

(** C8, as stated, fails: a policy whose initial delay lies above its cap
    yields the cap, not [initialMs], on the first attempt; a fractional
    [initialMs] is rounded; a factor below 1 makes the delays shrink; and
    once [factor^exponent] overflows, a policy without jitter yields NaN
    (infinity times zero), which is neither at most [maxMs] nor at least
    the delay before it. *)
Lemma computeBackoff_first_attempt_is_capped :
  let policy :=
    {| Backoff.initialMs := JSNumber.Finite 5000; Backoff.maxMs := JSNumber.Finite 1000;
       Backoff.factor := JSNumber.Finite 2; Backoff.jitter := JSNumber.Finite 0 |} in
  let fractional :=
    {| Backoff.initialMs := JSNumber.Finite (3 # 2); Backoff.maxMs := JSNumber.Finite 1000;
       Backoff.factor := JSNumber.Finite 2; Backoff.jitter := JSNumber.Finite 0 |} in
  let shrinking :=
    {| Backoff.initialMs := JSNumber.Finite 1000; Backoff.maxMs := JSNumber.Finite 10000;
       Backoff.factor := JSNumber.Finite (1 # 2); Backoff.jitter := JSNumber.Finite 0 |} in
  let doubling :=
    {| Backoff.initialMs := JSNumber.Finite 1000; Backoff.maxMs := JSNumber.Finite 10000;
       Backoff.factor := JSNumber.Finite 2; Backoff.jitter := JSNumber.Finite 0 |} in
  let delay policy (attempt : Z) :=
    Backoff.computeBackoff JSNumber.whole_power (1 # 2) policy
      (JSNumber.Finite (inject_Z attempt)) in
  delay policy 1 = JSNumber.Finite 1000
  /\ ~ JSNumber.same (delay policy 1) (Backoff.initialMs policy)
  /\ delay fractional 1 = JSNumber.Finite 2
  /\ delay shrinking 1 = JSNumber.Finite 1000
  /\ delay shrinking 2 = JSNumber.Finite 500
  /\ delay doubling 1015 = JSNumber.Finite 10000
  /\ delay doubling 1100 = JSNumber.NaN
  /\ JSNumber.le (delay doubling 1100) (Backoff.maxMs doubling) = false
  /\ JSNumber.le (delay doubling 1015) (delay doubling 1100) = false.
Proof. split_and!; [vm_compute; reflexivity | vm_compute; discriminate | vm_compute; reflexivity ..]. Qed.

(** C8 (amended), for every policy, random draw and platform power
    function.  The delay is never greater than [maxMs], and it is at most
    [maxMs] whenever it is a number (not NaN).  Without jitter, a policy
    whose [initialMs] is a whole number not above [maxMs] yields
    [initialMs] for every attempt up to 1 (0, negative ones and minus
    infinity included).  Without jitter, with a non-negative [initialMs]
    and a [maxMs] that is a number, the delay of one attempt is at most
    that of another whenever [Math.pow(factor, exponent)] is at most as
    large for the first as for the second and [initialMs] times that power
    is finite for both (no overflow); on a platform whose whole powers are
    exact that is so for every factor of at least 1 and all whole attempt
    numbers [n <= m] (up to [2^53]), as long as the product for [m] is
    finite. *)
Theorem computeBackoff_capped_initial_monotone
  (pow_approx : JSNumber.number -> JSNumber.number -> JSNumber.number)
  (rand : Q) (policy : Backoff.BackoffPolicy) :
  (forall attempt : JSNumber.number,
     let delay := Backoff.computeBackoff pow_approx rand policy attempt in
     JSNumber.lt (Backoff.maxMs policy) delay = false
     /\ (JSNumber.is_NaN delay = false ->
         JSNumber.le delay (Backoff.maxMs policy) = true))
  /\
  (forall (i j : Q) (z : Z) (attempt : JSNumber.number),
     Backoff.jitter policy = JSNumber.Finite j -> (j == 0)%Q ->
     Backoff.initialMs policy = JSNumber.Finite i ->
     JSNumber.representable (JSNumber.Finite i) -> (i == inject_Z z)%Q ->
     JSNumber.le (Backoff.initialMs policy) (Backoff.maxMs policy) = true ->
     JSNumber.le attempt (JSNumber.Finite 1) = true ->
     JSNumber.same (Backoff.computeBackoff pow_approx rand policy attempt)
       (Backoff.initialMs policy))
  /\
  (forall (i j : Q) (n m : JSNumber.number),
     Backoff.jitter policy = JSNumber.Finite j -> (j == 0)%Q ->
     Backoff.initialMs policy = JSNumber.Finite i -> (0 <= i)%Q ->
     JSNumber.is_NaN (Backoff.maxMs policy) = false ->
     JSNumber.le
       (JSNumber.Math_pow pow_approx (Backoff.factor policy) (Backoff.exponent n))
       (JSNumber.Math_pow pow_approx (Backoff.factor policy) (Backoff.exponent m)) = true ->
     JSNumber.is_finite (Backoff.base pow_approx policy n) = true ->
     JSNumber.is_finite (Backoff.base pow_approx policy m) = true ->
     JSNumber.le (Backoff.computeBackoff pow_approx rand policy n)
       (Backoff.computeBackoff pow_approx rand policy m) = true)
  /\
  (forall (f i j : Q) (n m : Z),
     Backoff.jitter policy = JSNumber.Finite j -> (j == 0)%Q ->
     Backoff.initialMs policy = JSNumber.Finite i -> (0 <= i)%Q ->
     Backoff.factor policy = JSNumber.Finite f -> (1 <= f)%Q ->
     JSNumber.is_NaN (Backoff.maxMs policy) = false ->
     n <= m <= 2 ^ 53 ->
     JSNumber.is_finite
       (Backoff.base JSNumber.whole_power policy (JSNumber.Finite (inject_Z m))) = true ->
     JSNumber.le
       (Backoff.computeBackoff JSNumber.whole_power rand policy
          (JSNumber.Finite (inject_Z n)))
       (Backoff.computeBackoff JSNumber.whole_power rand policy
          (JSNumber.Finite (inject_Z m))) = true).
Proof.
  split_and!.
  - intros attempt delay. unfold delay, Backoff.computeBackoff. split.
    + apply Math_min_not_above.
    + apply Math_min_capped.
  - intros i j z attempt Hj Hzero Hi Hrep Hwhole Hcap Hfirst.
    by apply (computeBackoff_first pow_approx rand policy attempt i j z).
  - intros i j n m Hj Hzero Hi Hpos Hmax Hpow Hn Hm.
    by apply (computeBackoff_grows pow_approx rand rand policy n m i j).
  - intros f i j n m Hj Hzero Hi Hpos Hf Hgrow Hmax Hnm Hfin.
    by apply (computeBackoff_grows_with_attempts rand rand policy f i j n m).
Qed.

Lemma computeBackoff_capped_initial_monotone_witness :
  let policy :=
    {| Backoff.initialMs := JSNumber.Finite 1000; Backoff.maxMs := JSNumber.Finite 10000;
       Backoff.factor := JSNumber.RN (18 # 10); Backoff.jitter := JSNumber.Finite 0 |} in
  let delay (attempt : Z) :=
    Backoff.computeBackoff JSNumber.whole_power (1 # 3) policy
      (JSNumber.Finite (inject_Z attempt)) in
  JSNumber.le (delay 10) (JSNumber.Finite 10000) = true
  /\ JSNumber.same (delay (-1)) (JSNumber.Finite 1000)
  /\ JSNumber.le (delay 3) (delay 4) = true
  /\ JSNumber.le (delay 2) (delay 12) = true.
Proof.
  intros policy delay.
  destruct (computeBackoff_capped_initial_monotone JSNumber.whole_power (1 # 3) policy)
    as (Hcap & Hfirst & Hmono & Hwhole).
  split_and!.
  - apply (Hcap (JSNumber.Finite (inject_Z 10))). reflexivity.
  - apply (Hfirst 1000%Q 0%Q 1000%Z);
      [reflexivity | reflexivity | reflexivity | vm_compute; reflexivity | reflexivity
      | reflexivity | reflexivity].
  - apply (Hmono 1000%Q 0%Q);
      [reflexivity | reflexivity | reflexivity | discriminate | reflexivity
      | vm_compute; reflexivity | vm_compute; reflexivity | vm_compute; reflexivity].
  - apply (Hwhole (8106479329266893 # 4503599627370496)%Q 1000%Q 0%Q 2 12);
      [reflexivity | reflexivity | reflexivity | discriminate | vm_compute; reflexivity
      | vm_compute; discriminate | reflexivity | lia | vm_compute; reflexivity].
Defined.

(** ** Credential save queue *)

Section CredsFacts.
Import Creds.
Variable resolve : jsstring -> jsstring -> jsstring.
Variable utf8_decode : list Byte.byte -> jsstring.
Variable JSON_parse_ok : jsstring -> bool.
Variable o : Options.

Local Abbreviation credsPath := (resolve (authDir o) (credsFilename o)).
Local Abbreviation backupPath := (resolve (authDir o) (backupFilename o)).
Local Abbreviation backup := (backup_step resolve utf8_decode JSON_parse_ok o).
Local Abbreviation corrupted_warning :=
  ("Current credentials file is corrupted, preserving existing backup"%string,
   JsonSyntaxError).

Lemma warn_files message error (w : world) : files (warn o message error w) = files w.
Proof. unfold warn. by destruct (logger o). Qed.

Lemma warn_warnings message error (w : world) :
  logger o = true -> warnings (warn o message error w) = warnings w ++ [(message, error)].
Proof. unfold warn. by intros ->. Qed.

(** The backup step either leaves the files alone or copies a main file
    that parses over the backup. *)
Lemma backup_step_files (w : world) :
  files (backup w) = files w
  \/ exists bytes,
       files w !! credsPath = Some (File bytes)
       /\ JSON_parse_ok (utf8_decode bytes) = true
       /\ files (backup w) = <[backupPath := File bytes]> (files w).
Proof.
  unfold backup_step, readCredsJsonRaw, copyFileSync.
  destruct (files w !! credsPath) as [[bytes |] |] eqn:Hmain; [| by left | by left].
  destruct (Z.of_nat (length bytes) <=? 1); [by left |].
  destruct (truthy (utf8_decode bytes)); [| by left].
  destruct (JSON_parse_ok (utf8_decode bytes)) eqn:Hjson;
    [| left; apply warn_files].
  destruct (files w !! backupPath) as [[? |] |];
    [right; by exists bytes | left; apply warn_files | right; by exists bytes].
Qed.

(** With a main file that does not parse, the backup step changes no
    file and logs at most the one warning. *)
Lemma backup_step_corrupted (w : world) :
  (forall bytes, files w !! credsPath = Some (File bytes) ->
                 JSON_parse_ok (utf8_decode bytes) = false) ->
  files (backup w) = files w
  /\ (warnings (backup w) = warnings w
      \/ warnings (backup w) = warnings w ++ [corrupted_warning]).
Proof.
  intros Hbad. unfold backup_step, readCredsJsonRaw.
  destruct (files w !! credsPath) as [[bytes |] |] eqn:Hmain;
    [| split; [done | by left] ..].
  destruct (Z.of_nat (length bytes) <=? 1); [split; [done | by left] |].
  destruct (truthy (utf8_decode bytes)); [| split; [done | by left]].
  rewrite (Hbad bytes eq_refl). split; [apply warn_files |].
  unfold warn. destruct (logger o); [by right | by left].
Qed.

Lemma safeSaveCreds_files (saveCreds : SaveOp) (w : world) :
  files (safeSaveCreds resolve utf8_decode JSON_parse_ok saveCreds o w).2
  = (saveCreds (files (backup w))).2.
Proof.
  unfold safeSaveCreds.
  destruct (saveCreds (files (backup w))) as [[[] | e] fs2]; simpl; [done |].
  apply warn_files.
Qed.

(** Whatever the queue held before, one more [enqueue] yields a chain that
    settles as fulfilled after running the new operation. *)
Lemma enqueue_runs (queue : Promise) (saveCreds : SaveOp) (w w1 : world) :
  queue w = (Fulfilled tt, w1) ->
  enqueue resolve utf8_decode JSON_parse_ok o saveCreds queue w
  = (Fulfilled tt, run_one resolve utf8_decode JSON_parse_ok o w1 saveCreds).
Proof.
  intros Hq. unfold enqueue, catch_, then_, run_one. rewrite Hq.
  by destruct (safeSaveCreds _ _ _ saveCreds o w1) as [[[] | e] w2].
Qed.

Lemma enqueue_all_runs (ops : list SaveOp) (queue : Promise) (w w1 : world) :
  queue w = (Fulfilled tt, w1) ->
  enqueue_all resolve utf8_decode JSON_parse_ok o ops queue w
  = (Fulfilled tt, fold_left (run_one resolve utf8_decode JSON_parse_ok o) ops w1).
Proof.
  revert queue w1. induction ops as [| op ops IH]; intros queue w1 Hq; [done |].
  unfold enqueue_all. cbn [fold_left]. apply IH. by apply enqueue_runs.
Qed.
End CredsFacts.

(** C2: running a queued save operation (one that does not itself write the
    backup file) changes the backup only by copying a main file that parses
    as JSON; when the main file does not parse, the backup is untouched, the
    backup step changes no file at all, and its only effect is at most the
    one "corrupted" warning -- which is logged whenever the unparsable file
    was read and a logger is present. *)
Theorem backup_never_overwritten_by_corrupt_main
  (resolve : jsstring -> jsstring -> jsstring)
  (utf8_decode : list Byte.byte -> jsstring)
  (JSON_parse_ok : jsstring -> bool)
  (o : Creds.Options) (saveCreds : Creds.SaveOp) (w : Creds.world) :
  let credsPath := resolve (Creds.authDir o) (Creds.credsFilename o) in
  let backupPath := resolve (Creds.authDir o) (Creds.backupFilename o) in
  let backed_up := Creds.backup_step resolve utf8_decode JSON_parse_ok o w in
  let after := (Creds.safeSaveCreds resolve utf8_decode JSON_parse_ok saveCreds o w).2 in
  let corrupted_warning :=
    ("Current credentials file is corrupted, preserving existing backup"%string,
     JsonSyntaxError) in
  (forall fs, (saveCreds fs).2 !! backupPath = fs !! backupPath) ->
  (Creds.files after !! backupPath <> Creds.files w !! backupPath ->
     exists bytes,
       Creds.files w !! credsPath = Some (Creds.File bytes)
       /\ JSON_parse_ok (utf8_decode bytes) = true
       /\ Creds.files after !! backupPath = Some (Creds.File bytes))
  /\
  ((forall bytes, Creds.files w !! credsPath = Some (Creds.File bytes) ->
                  JSON_parse_ok (utf8_decode bytes) = false) ->
     Creds.files after !! backupPath = Creds.files w !! backupPath
     /\ Creds.files backed_up = Creds.files w
     /\ (Creds.warnings backed_up = Creds.warnings w
         \/ Creds.warnings backed_up = Creds.warnings w ++ [corrupted_warning])
     /\ (forall bytes,
           Creds.files w !! credsPath = Some (Creds.File bytes) ->
           1 < Z.of_nat (length bytes) -> utf8_decode bytes <> [] ->
           Creds.logger o = true ->
           Creds.warnings backed_up = Creds.warnings w ++ [corrupted_warning])).
Proof.
  intros credsPath backupPath backed_up after corrupted_warning Hsave.
  assert (Creds.files after !! backupPath = Creds.files backed_up !! backupPath) as Hafter.
  { unfold after. rewrite safeSaveCreds_files. apply Hsave. }
  split.
  - intros Hchanged. rewrite Hafter in Hchanged |- *.
    destruct (backup_step_files resolve utf8_decode JSON_parse_ok o w)
      as [Hsame | (bytes & Hmain & Hjson & Hcopy)].
    + fold backed_up in Hsame. by rewrite Hsame in Hchanged.
    + exists bytes. split_and!; [done | done |].
      fold backed_up in Hcopy. rewrite Hcopy. apply lookup_insert_eq.
  - intros Hbad.
    destruct (backup_step_corrupted resolve utf8_decode JSON_parse_ok o w Hbad)
      as [Hfiles Hwarn].
    fold backed_up in Hfiles, Hwarn.
    split_and!; [by rewrite Hafter, Hfiles | done | done |].
    intros bytes Hmain Hsize Hraw Hlogger.
    unfold backed_up, Creds.backup_step, Creds.readCredsJsonRaw.
    fold credsPath. rewrite Hmain.
    destruct (Z.leb_spec (Z.of_nat (length bytes)) 1) as [| _]; [lia |].
    rewrite (truthy_nonempty _ Hraw), (Hbad bytes Hmain).
    by apply warn_warnings.
Qed.

Lemma backup_never_overwritten_by_corrupt_main_witness :
  let after :=
    (Creds.safeSaveCreds sample_resolve sample_decode sample_JSON_parse_ok
       save_fresh sample_options corrupted_main).2 in
  Creds.files after !! backup_path = Some (Creds.File (list_byte_of_string "{}"))
  /\ Creds.warnings
       (Creds.backup_step sample_resolve sample_decode sample_JSON_parse_ok
          sample_options corrupted_main)
     = [("Current credentials file is corrupted, preserving existing backup"%string,
         JsonSyntaxError)].
Proof.
  intros after.
  destruct (backup_never_overwritten_by_corrupt_main sample_resolve sample_decode
              sample_JSON_parse_ok sample_options save_fresh corrupted_main)
    as [_ Hcorrupted].
  - intros fs. simpl. apply lookup_insert_ne. vm_compute. discriminate.
  - destruct Hcorrupted as (Hbackup & _ & _ & Hlogged).
    + intros bytes Hmain. vm_compute in Hmain. injection Hmain as <-. reflexivity.
    + split.
      * unfold after. etrans; [exact Hbackup |]. reflexivity.
      * apply (Hlogged (list_byte_of_string "{oops"));
          [reflexivity | simpl; lia | discriminate | reflexivity].
Defined.

(** C4, as stated, fails: the queue catches the error of a failed save, so
    the promise [flush] awaits is fulfilled, not rejected with that error;
    the failure only shows in the log. *)
Lemma flush_resolves_after_failed_save :
  let queue :=
    Creds.enqueue sample_resolve sample_decode sample_JSON_parse_ok sample_options
      save_failing Creds.initial_queue in
  (Creds.flush queue corrupted_main).1 = Fulfilled tt
  /\ (Creds.flush queue corrupted_main).1 <> Rejected (Thrown "disk full")
  /\ Creds.warnings (Creds.flush queue corrupted_main).2
     = [("Current credentials file is corrupted, preserving existing backup"%string,
         JsonSyntaxError);
        ("Failed to save credentials"%string, Thrown "disk full");
        ("Credential save queue error"%string, Thrown "disk full")].
Proof. split_and!; [reflexivity | discriminate | reflexivity]. Qed.

(** C4 (amended): [flush] is fulfilled once every queued operation has run,
    in order, whether or not some of them failed; a failed save is re-raised
    by [safeSaveCreds] to the queue only, which logs it a second time and
    carries on with the next operation. *)
Theorem save_failure_is_logged_and_queue_continues
  (resolve : jsstring -> jsstring -> jsstring)
  (utf8_decode : list Byte.byte -> jsstring)
  (JSON_parse_ok : jsstring -> bool)
  (o : Creds.Options) :
  (forall (ops : list Creds.SaveOp) (w : Creds.world),
     Creds.flush
       (Creds.enqueue_all resolve utf8_decode JSON_parse_ok o ops Creds.initial_queue) w
     = (Fulfilled tt,
        fold_left (Creds.run_one resolve utf8_decode JSON_parse_ok o) ops w))
  /\
  (forall (saveCreds : Creds.SaveOp) (w : Creds.world) (saveErr : exn) fs',
     let backed_up := Creds.backup_step resolve utf8_decode JSON_parse_ok o w in
     saveCreds (Creds.files backed_up) = (Rejected saveErr, fs') ->
     Creds.logger o = true ->
     Creds.safeSaveCreds resolve utf8_decode JSON_parse_ok saveCreds o w
       = (Rejected saveErr,
          {| Creds.files := fs';
             Creds.warnings :=
               Creds.warnings backed_up
               ++ [("Failed to save credentials"%string, saveErr)] |})
     /\ Creds.run_one resolve utf8_decode JSON_parse_ok o w saveCreds
       = {| Creds.files := fs';
            Creds.warnings :=
              Creds.warnings backed_up
              ++ [("Failed to save credentials"%string, saveErr);
                  ("Credential save queue error"%string, saveErr)] |}).
Proof.
  split.
  - intros ops w. unfold Creds.flush. by apply enqueue_all_runs.
  - intros saveCreds w saveErr fs' backed_up Hfail Hlogger.
    assert (Creds.safeSaveCreds resolve utf8_decode JSON_parse_ok saveCreds o w
            = (Rejected saveErr,
               {| Creds.files := fs';
                  Creds.warnings :=
                    Creds.warnings backed_up
                    ++ [("Failed to save credentials"%string, saveErr)] |})) as Hsafe.
    { unfold Creds.safeSaveCreds. fold backed_up. rewrite Hfail.
      unfold Creds.warn. by rewrite Hlogger. }
    split; [exact Hsafe |].
    unfold Creds.run_one. rewrite Hsafe. unfold Creds.warn. rewrite Hlogger. simpl.
    by rewrite <- app_assoc.
Qed.

Lemma save_failure_is_logged_and_queue_continues_witness :
  Creds.run_one sample_resolve sample_decode sample_JSON_parse_ok sample_options
    corrupted_main save_failing
  = {| Creds.files := Creds.files corrupted_main;
       Creds.warnings :=
         [("Current credentials file is corrupted, preserving existing backup"%string,
           JsonSyntaxError);
          ("Failed to save credentials"%string, Thrown "disk full");
          ("Credential save queue error"%string, Thrown "disk full")] |}
  /\ Creds.files
       (Creds.flush
          (Creds.enqueue_all sample_resolve sample_decode sample_JSON_parse_ok
             sample_options [save_failing; save_fresh] Creds.initial_queue)
          corrupted_main).2 !! creds_path
     = Some (Creds.File (list_byte_of_string "{new}")).
Proof.
  destruct (save_failure_is_logged_and_queue_continues sample_resolve sample_decode
              sample_JSON_parse_ok sample_options) as [Hflush Hfail].
  split.
  - apply (Hfail save_failing corrupted_main (Thrown "disk full")
             (Creds.files corrupted_main)); reflexivity.
  - rewrite Hflush. reflexivity.
Defined.

(** ** Debouncer *)

(** The buffered path: [flushBuffer] catches a handler failure, hands it to
    the error callback and is fulfilled. *)
Lemma flushBuffer_reports_handler_failure
  (T : Type) (options : Debouncer.DebouncerOptions T)
  (key : jsstring) (buffer : Debouncer.DebounceBuffer T) (st : Debouncer.state T) :
  (Debouncer.flushBuffer T options key buffer st).1 = Fulfilled tt
  /\ forall err,
       Debouncer.items T buffer <> [] ->
       Debouncer.onFlush T options (Debouncer.items T buffer) = Rejected err ->
       Debouncer.onError T options = true ->
       Debouncer.reported T (Debouncer.flushBuffer T options key buffer st).2
       = Debouncer.reported T st ++ [(err, Debouncer.items T buffer)].
Proof.
  unfold Debouncer.flushBuffer, Debouncer.call_onFlush, Debouncer.call_onError.
  split.
  - destruct (length (Debouncer.items T buffer) =? 0)%nat; [done |].
    by destruct (Debouncer.onFlush T options (Debouncer.items T buffer)).
  - intros err Hne Hfail Herr.
    destruct (Debouncer.items T buffer) as [| i l] eqn:Hitems; [done |].
    simpl. rewrite Hfail, Herr. reflexivity.
Qed.

(** C5 fails on the immediate path: with debouncing disabled, a throwing
    batch handler makes the promise of [enqueue] reject with the handler's
    error, and the error callback is never called.  Behind a debounce window
    the same failure is caught by [flushBuffer] and reported. *)
Theorem enqueue_immediate_flush_propagates_handler_failure :
  Debouncer.enqueue jsstring failing_debouncer (js "hello") idle_debouncer
  = (Rejected (Thrown "handler failed"),
     {| Debouncer.buffers := ∅; Debouncer.clock := 0;
        Debouncer.flushed := [[js "hello"]]; Debouncer.reported := [] |})
  /\
  (let '(r, pending) :=
     Debouncer.enqueue jsstring failing_debouncer_2s (js "hello") idle_debouncer in
   let fired :=
     Debouncer.on_timeout jsstring failing_debouncer_2s (js "chat:user")
       {| Debouncer.buffers := Debouncer.buffers jsstring pending;
          Debouncer.clock := 2000;
          Debouncer.flushed := Debouncer.flushed jsstring pending;
          Debouncer.reported := Debouncer.reported jsstring pending |} in
   r = Fulfilled tt
   /\ Debouncer.flushed jsstring fired = [[js "hello"]]
   /\ Debouncer.reported jsstring fired = [(Thrown "handler failed", [js "hello"])]).
Proof. split; [reflexivity | vm_compute; split_and!; reflexivity]. Qed.

(** On the immediate path nothing stands between the handler and the
    caller: whenever the item bypasses the buffers (no window, a predicate
    that says no, or no key) and no buffer is pending for its key, the
    outcome of [enqueue] is the outcome of the handler. *)
Lemma enqueue_immediate_outcome
  (T : Type) (options : Debouncer.DebouncerOptions T) (item : T) (st : Debouncer.state T) :
  Debouncer.window T options = 0
  \/ (exists f, Debouncer.shouldDebounce T options = Some f /\ f item = false)
  \/ truthy_opt (Debouncer.buildKey T options item) = false ->
  (forall k, Debouncer.buildKey T options item = Some k ->
             Debouncer.buffers T st !! k = None) ->
  (Debouncer.enqueue T options item st).1 = Debouncer.onFlush T options [item]
  /\ Debouncer.reported T (Debouncer.enqueue T options item st).2
     = Debouncer.reported T st.
Proof.
  intros Himmediate Hidle. unfold Debouncer.enqueue.
  set (key := Debouncer.buildKey T options item) in *.
  assert ((0 <? Debouncer.window T options)
          && match Debouncer.shouldDebounce T options with
             | Some f => f item
             | None => true
             end = true -> truthy_opt key = false) as Hpath.
  { intros [Hwin Hpred]%andb_true_iff.
    destruct Himmediate as [H0 | [(f & Hf & Hno) | Hkey]]; [| | done].
    - rewrite H0 in Hwin. discriminate.
    - rewrite Hf in Hpred. congruence. }
  assert (truthy_opt key
          && bool_decide (is_Some (Debouncer.buffers T st !! default [] key)) = false)
    as Hnobuf.
  { destruct key as [k |]; [| done]. simpl default. rewrite (Hidle k eq_refl).
    rewrite bool_decide_eq_false_2; [apply andb_false_r |]. by intros [? ?]. }
  rewrite Hnobuf.
  destruct ((0 <? Debouncer.window T options)
            && match Debouncer.shouldDebounce T options with
               | Some f => f item
               | None => true
               end) eqn:Hcan.
  - rewrite (Hpath eq_refl). simpl. done.
  - simpl. done.
Qed.

(** ** The models on the values of the repository's tests and comments *)

Example normalizeJid_documented :
  Mentions.normalizeJid (Some (js "919888142915:26@s.whatsapp.net"))
    = js "919888142915@s.whatsapp.net"
  /\ Mentions.normalizeJid (Some (js "214542927831175:25@lid")) = js "214542927831175@lid"
  /\ Mentions.normalizeJid (Some (js "123@s.whatsapp.net")) = js "123@s.whatsapp.net"
  /\ Mentions.normalizeJid (Some (js "123:25")) = js "123"
  /\ Mentions.normalizeJid None = [].
Proof. repeat split; reflexivity. Qed.

Example detectMention_tested :
  let matches_bot (pattern text : jsstring) :=
    Some (includes (js "bot") text) in
  Mentions.method
    (Mentions.detectMention matches_bot
       {| Mentions.body := js "@bot hello";
          Mentions.mentionedJids := Some [js "15551234567:25@s.whatsapp.net"];
          Mentions.replyToSenderJid := None; Mentions.replyToSenderE164 := None;
          Mentions.config := baseConfig |}) = Some Mentions.jid
  /\ Mentions.method
       (Mentions.detectMention matches_bot
          {| Mentions.body := js "call 15551234567 for help";
             Mentions.mentionedJids := None;
             Mentions.replyToSenderJid := None; Mentions.replyToSenderE164 := None;
             Mentions.config := baseConfig |}) = Some Mentions.e164
  /\ Mentions.method
       (Mentions.detectMention matches_bot
          {| Mentions.body := js "thanks";
             Mentions.mentionedJids := None;
             Mentions.replyToSenderJid := Some (js "214542927831175@lid");
             Mentions.replyToSenderE164 := None;
             Mentions.config := baseConfig |}) = Some Mentions.reply.
Proof. repeat split; reflexivity. Qed.

Example computeBackoff_tested :
  let policy :=
    {| Backoff.initialMs := JSNumber.Finite 1000; Backoff.maxMs := JSNumber.Finite 10000;
       Backoff.factor := JSNumber.Finite 2; Backoff.jitter := JSNumber.Finite 0 |} in
  let default_policy :=
    {| Backoff.initialMs := JSNumber.Finite 2000; Backoff.maxMs := JSNumber.Finite 30000;
       Backoff.factor := JSNumber.RN (18 # 10); Backoff.jitter := JSNumber.RN (25 # 100) |} in
  map (fun attempt : Z =>
         Backoff.computeBackoff JSNumber.whole_power (1 # 2) policy
           (JSNumber.Finite (inject_Z attempt)))
    [1; 2; 3; 4; 10; 0; -1]%Z
  = map JSNumber.Finite [1000; 2000; 4000; 8000; 10000; 1000; 1000]%Q
  /\ Backoff.computeBackoff JSNumber.whole_power 0 default_policy (JSNumber.Finite 3)
     = JSNumber.Finite 6480
  /\ Backoff.computeBackoff JSNumber.whole_power 0 default_policy (JSNumber.Finite 20)
     = JSNumber.Finite 30000.
Proof. split_and!; vm_compute; reflexivity. Qed.

Example dedupe_cap_evicts_oldest :
  Dedupe.cache_after {| Dedupe.ttlMs := 1000; Dedupe.maxSize := 2 |}
    [(Some (js "a"), 0); (Some (js "b"), 1); (Some (js "c"), 2)]
  = [(js "b", 1); (js "c", 2)].
Proof. reflexivity. Qed.

(** * Further properties of the modelled code *)

(** ** Deduplication cache: what pruning keeps *)

(** X1: [prune] removes every entry older than the window and then just
    enough of the rest to meet the cap: of a map with one entry per key it
    leaves as many entries as are not expired, or [maxSize] if that is
    fewer. *)
Theorem prune_leaves_min_of_fresh_and_cap
  (options : Dedupe.DedupeCacheOptions) (now : Z) (c : Dedupe.cache) :
  0 <= Dedupe.maxSize options -> NoDup c.*1 ->
  Dedupe.size (Dedupe.prune options now c)
  = Z.min
      (Z.of_nat (length (List.filter (fun e => now - e.2 <=? Dedupe.ttlMs options) c)))
      (Dedupe.maxSize options).
Proof.
  intros Hmax Hnd. unfold Dedupe.prune.
  rewrite enforce_max_size_length.
  - rewrite remove_expired_filter by done. unfold Dedupe.size. do 3 f_equal.
    apply List.filter_ext. intros e.
    destruct (Z.gtb_spec (now - e.2) (Dedupe.ttlMs options));
      destruct (Z.leb_spec (now - e.2) (Dedupe.ttlMs options)); simpl; lia || done.
  - done.
  - eapply sublist_NoDup; [exact Hnd |]. apply fmap_sublist, remove_expired_sublist.
Qed.

Lemma prune_leaves_min_of_fresh_and_cap_witness :
  Dedupe.size
    (Dedupe.prune {| Dedupe.ttlMs := 10; Dedupe.maxSize := 2 |} 20
       [(js "a", 5); (js "b", 12); (js "c", 15); (js "d", 11)])
  = 2.
Proof.
  rewrite (prune_leaves_min_of_fresh_and_cap {| Dedupe.ttlMs := 10; Dedupe.maxSize := 2 |}).
  - reflexivity.
  - simpl. lia.
  - vm_compute. repeat constructor; set_solver.
Defined.

(** X2: the cap evicts oldest first: an unexpired entry that [prune] drops
    is never newer than an entry it keeps. *)
Theorem prune_evicts_oldest_first
  (options : Dedupe.DedupeCacheOptions) (now : Z) (c : Dedupe.cache)
  (dropped kept : Dedupe.entry) :
  NoDup c.*1 ->
  dropped ∈ c -> now - dropped.2 <= Dedupe.ttlMs options ->
  dropped ∉ Dedupe.prune options now c ->
  kept ∈ Dedupe.prune options now c ->
  dropped.2 <= kept.2.
Proof.
  intros Hnd Hin Hfresh Hdropped Hkept. unfold Dedupe.prune in *.
  rewrite remove_expired_filter in * by done.
  set (c1 := List.filter _ c) in *.
  assert (NoDup c1.*1) as Hnd1.
  { eapply sublist_NoDup; [exact Hnd |]. apply fmap_sublist.
    unfold c1. rewrite <- remove_expired_filter by done. apply remove_expired_sublist. }
  assert (dropped ∈ c1) as Hin1.
  { apply list_elem_of_In, List.filter_In. split; [by apply list_elem_of_In |].
    by destruct (Z.gtb_spec (now - dropped.2) (Dedupe.ttlMs options)); [lia |]. }
  unfold Dedupe.enforce_max_size in *.
  destruct (Dedupe.size c1 >? Dedupe.maxSize options); [| done].
  set (sorted := Dedupe.sort_by_ts c1) in *.
  set (n := Dedupe.size c1 - Dedupe.maxSize options) in *.
  set (toDelete := Dedupe.slice0 n sorted) in *.
  assert (exists m, toDelete = take m sorted) as [m HtoDelete].
  { unfold toDelete, Dedupe.slice0. destruct (n <? 0); eauto. }
  assert (forall e, e ∈ sorted <-> e ∈ c1) as Hsorted.
  { intros e. unfold sorted. by rewrite sort_by_ts_perm. }
  apply (delete_where_elem (fun _ => true)) in Hkept as [Hkept1 Hkept_key].
  assert (dropped ∈ toDelete) as Hdel.
  { destruct (decide (dropped.1 ∈ toDelete.*1)) as [Hkey | Hkey].
    - apply list_elem_of_fmap_1 in Hkey as (d & Hd1 & Hd).
      assert (d ∈ c1) as Hdc1.
      { apply Hsorted. rewrite HtoDelete in Hd.
        eapply elem_of_sublist; [exact Hd | apply sublist_take]. }
      by rewrite (entry_unique c1 dropped d Hnd1 Hin1 Hdc1 Hd1).
    - exfalso. apply Hdropped. apply (delete_where_elem (fun _ => true)).
      split; [done |]. intros e He _ Heq. apply Hkey. rewrite <- Heq.
      by apply list_elem_of_fmap_2. }
  assert (kept ∈ drop m sorted) as Hrest.
  { apply Hsorted in Hkept1. rewrite <- (take_drop m sorted) in Hkept1.
    apply elem_of_app in Hkept1 as [Htaken | Hrest]; [| done].
    exfalso. rewrite <- HtoDelete in Htaken. by apply (Hkept_key kept). }
  rewrite HtoDelete in Hdel.
  apply (StronglySorted_app_1_elem_of (fun a b : jsstring * Z => a.2 <= b.2)
           (take m sorted) (drop m sorted)); [| done | done].
  rewrite take_drop. apply sort_by_ts_sorted.
Qed.

Lemma prune_evicts_oldest_first_witness :
  Dedupe.prune {| Dedupe.ttlMs := 100; Dedupe.maxSize := 2 |} 20
    [(js "a", 5); (js "b", 12); (js "c", 15)]
  = [(js "b", 12); (js "c", 15)]
  /\ 5 <= 12.
Proof.
  split; [reflexivity |].
  apply (prune_evicts_oldest_first {| Dedupe.ttlMs := 100; Dedupe.maxSize := 2 |} 20
           [(js "a", 5); (js "b", 12); (js "c", 15)] (js "a", 5) (js "b", 12)).
  - vm_compute. repeat constructor; set_solver.
  - left.
  - simpl. lia.
  - vm_compute. set_solver.
  - vm_compute. left.
Defined.

(** ** Deduplication cache: what a history of calls leaves behind *)

Section DedupeHistory.
Import Dedupe.
Variable options : DedupeCacheOptions.
Implicit Types (c : cache) (k : jsstring) (calls : list call).

(** Every entry is the trace of the last check of its key. *)
Lemma entries_are_last_checks calls k ts :
  (k, ts) ∈ cache_after options calls ->
  k <> []
  /\ exists calls1 calls2,
       calls = calls1 ++ (Some k, ts) :: calls2
       /\ forall cl, cl ∈ calls2 -> cl.1 <> Some k.
Proof.
  revert k ts. induction calls as [| cl calls IH] using rev_ind; intros k ts.
  - intros Hin. by apply elem_of_nil in Hin.
  - unfold cache_after. rewrite after_calls_app.
    change (after_calls options [cl] ?c) with (check options cl.1 cl.2 c).2.
    fold (cache_after options calls).
    assert (NoDup (cache_after options calls).*1) as Hnd
      by (apply after_calls_NoDup, NoDup_nil_2).
    assert (forall k' t', (k', t') ∈ cache_after options calls -> cl.1 <> Some k' ->
              k' <> []
              /\ exists calls1 calls2,
                   calls ++ [cl] = calls1 ++ (Some k', t') :: calls2
                   /\ forall cl', cl' ∈ calls2 -> cl'.1 <> Some k') as Hold.
    { intros k' t' Hin Hne. destruct (IH k' t' Hin) as (Hk & c1 & c2 & -> & Hlast).
      split; [done |]. exists c1, (c2 ++ [cl]). split; [by rewrite <- app_assoc |].
      intros cl' [Hcl | ->%list_elem_of_singleton]%elem_of_app; [by apply Hlast | done]. }
    assert (forall k', k' <> [] -> cl = (Some k', cl.2) ->
              forall e, e ∈ map_set k' cl.2 (cache_after options calls) ->
              e.1 <> []
              /\ exists calls1 calls2,
                   calls ++ [cl] = calls1 ++ (Some e.1, e.2) :: calls2
                   /\ forall cl', cl' ∈ calls2 -> cl'.1 <> Some e.1) as Hset.
    { intros k' Hk' Hcl e [-> | [Hin Hne]]%elem_of_map_set; [| | done].
      - split; [done |]. exists calls, []. simpl. split; [by rewrite <- Hcl |].
        by intros cl' ?%elem_of_nil.
      - destruct e as [k0 t0]. apply Hold; [done |].
        rewrite Hcl. simpl in *. congruence. }
    destruct (check_cases options cl.1 cl.2 (cache_after options calls))
      as [[Hf ->] | [(k' & ex & Hcl & Hk' & _ & _ & ->) | (k' & Hcl & Hk' & _ & ->)]];
      cbn [snd]; intros Hin.
    + apply Hold; [done |]. intros Heq. rewrite Heq in Hf.
      destruct (IH k ts Hin) as [Hk _]. simpl in Hf. by rewrite truthy_nonempty in Hf.
    + apply (Hset k' Hk') in Hin; [done |]. destruct cl; simpl in *; congruence.
    + apply (Hset k' Hk' ltac:(destruct cl; simpl in *; congruence) (k, ts)).
      eapply elem_of_sublist; [exact Hin | apply prune_sublist].
Qed.

(** No stored timestamp is later than the latest call. *)
Lemma entries_not_after calls now k ts :
  (forall cl, cl ∈ calls -> cl.2 <= now) ->
  (k, ts) ∈ cache_after options calls -> ts <= now.
Proof.
  intros Hclock (_ & c1 & c2 & -> & _)%entries_are_last_checks.
  apply (Hclock (Some k, ts)). set_solver.
Qed.

(** A key that was not stored and carries the latest timestamp survives
    its own [prune], as long as the cap leaves room for one entry. *)
Lemma prune_keeps_newest now c k :
  NoDup c.*1 -> k ∉ c.*1 -> (forall e, e ∈ c -> e.2 <= now) ->
  0 <= ttlMs options -> 1 <= maxSize options ->
  map_get k (prune options now (c ++ [(k, now)])) = Some now.
Proof.
  intros Hnd Hnew Hclock Httl Hcap.
  assert (NoDup (c ++ [(k, now)]).*1) as Hnd1.
  { rewrite fmap_app. apply NoDup_app. split_and!; [done | | apply NoDup_singleton].
    intros x Hx ->%list_elem_of_singleton. done. }
  unfold prune. rewrite remove_expired_filter by done.
  rewrite List.filter_app. cbn [List.filter snd].
  replace (now - now >? ttlMs options) with false
    by (by destruct (Z.gtb_spec (now - now) (ttlMs options)); [lia |]).
  cbn [negb]. set (cf := List.filter _ c).
  assert (sublist cf c) as Hsub.
  { unfold cf. rewrite <- remove_expired_filter by done. apply remove_expired_sublist. }
  assert (k ∉ cf.*1) as Hnewf.
  { intros Hin. apply Hnew. eapply elem_of_sublist; [exact Hin | by apply fmap_sublist]. }
  assert (map_get k (cf ++ [(k, now)]) = Some now) as Hget.
  { rewrite <- (map_set_keys_absent k now cf Hnewf). apply map_get_set_eq. }
  unfold enforce_max_size.
  destruct (size (cf ++ [(k, now)]) >? maxSize options) eqn:Hover; [| done].
  rewrite (delete_where_get_keep (fun _ => true)); [done |].
  intros e He _ Hkey. apply Hnewf. rewrite <- Hkey. apply list_elem_of_fmap_2.
  rewrite sort_by_ts_last in He.
  - apply Z.gtb_lt in Hover.
    unfold slice0, size in He, Hover. rewrite length_app in He, Hover. simpl in He, Hover.
    destruct (Z.ltb_spec (Z.of_nat (length cf + 1) - maxSize options) 0) in He; [lia |].
    rewrite take_app_le in He.
    + rewrite <- (sort_by_ts_perm cf).
      eapply elem_of_sublist; [exact He | apply sublist_take].
    + rewrite (Permutation_length (sort_by_ts_perm cf)). lia.
  - intros x Hx. simpl. apply Hclock. by eapply elem_of_sublist.
Qed.
End DedupeHistory.

(** X3: after any history of calls on a fresh cache, the cache holds each
    key once, never the empty key, and the timestamp stored for a key is the
    time of the last call that checked this key. *)
Theorem dedupe_entries_record_last_check
  (options : Dedupe.DedupeCacheOptions) (calls : list Dedupe.call) :
  NoDup (Dedupe.cache_after options calls).*1
  /\ forall (k : jsstring) (ts : Z),
       (k, ts) ∈ Dedupe.cache_after options calls ->
       k <> []
       /\ exists calls1 calls2,
            calls = calls1 ++ (Some k, ts) :: calls2
            /\ forall cl, cl ∈ calls2 -> cl.1 <> Some k.
Proof.
  split.
  - apply after_calls_NoDup, NoDup_nil_2.
  - intros k ts. apply entries_are_last_checks.
Qed.

Lemma dedupe_entries_record_last_check_witness :
  let options := {| Dedupe.ttlMs := 10; Dedupe.maxSize := 5 |} in
  let calls := [(Some (js "a"), 0); (Some (js "b"), 3); (Some (js "a"), 4); (None, 5)] in
  Dedupe.cache_after options calls = [(js "a", 4); (js "b", 3)]
  /\ exists calls1 calls2,
       calls = calls1 ++ (Some (js "a"), 4) :: calls2
       /\ forall cl, cl ∈ calls2 -> cl.1 <> Some (js "a").
Proof.
  intros options calls. split; [reflexivity |].
  destruct (dedupe_entries_record_last_check options calls) as [_ Hlast].
  apply (Hlast (js "a") 4). vm_compute. left.
Defined.

(** X4: a call that reports a duplicate only refreshes the timestamp of its
    key: the key is stored with the time of the call, the keys and their
    order stay as they were, and every other key keeps its timestamp. *)
Theorem dedupe_duplicate_hit_refreshes
  (options : Dedupe.DedupeCacheOptions) (key : option jsstring) (now : Z)
  (c : Dedupe.cache) :
  (Dedupe.check options key now c).1 = true ->
  exists k,
    key = Some k /\ k <> []
    /\ Dedupe.map_get k (Dedupe.check options key now c).2 = Some now
    /\ (Dedupe.check options key now c).2.*1 = c.*1
    /\ forall k', k' <> k ->
         Dedupe.map_get k' (Dedupe.check options key now c).2 = Dedupe.map_get k' c.
Proof.
  intros Hdup.
  destruct (check_cases options key now c)
    as [[_ Heq] | [(k & ex & -> & Hne & Hget & _ & Heq) | (k & _ & _ & _ & Heq)]];
    rewrite Heq in Hdup |- *; try discriminate.
  exists k. cbn [snd]. split_and!; [done | done | apply map_get_set_eq | |].
  - apply map_set_keys_present. apply map_get_Some in Hget.
    by apply (list_elem_of_fmap_2 fst _ (k, ex)).
  - intros k' Hk'. by apply map_get_set_ne.
Qed.

Lemma dedupe_duplicate_hit_refreshes_witness :
  let options := {| Dedupe.ttlMs := 10; Dedupe.maxSize := 5 |} in
  exists k,
    Some (js "a") = Some k /\ k <> []
    /\ Dedupe.map_get k
         (Dedupe.check options (Some (js "a")) 7 [(js "a", 0); (js "b", 3)]).2 = Some 7
    /\ (Dedupe.check options (Some (js "a")) 7 [(js "a", 0); (js "b", 3)]).2.*1
       = [(js "a", 0); (js "b", 3)].*1
    /\ forall k', k' <> k ->
         Dedupe.map_get k'
           (Dedupe.check options (Some (js "a")) 7 [(js "a", 0); (js "b", 3)]).2
         = Dedupe.map_get k' [(js "a", 0); (js "b", 3)].
Proof.
  intros options.
  apply (dedupe_duplicate_hit_refreshes options (Some (js "a")) 7
           [(js "a", 0); (js "b", 3)]).
  reflexivity.
Defined.

(** X5: with room for at least one entry, a repeat that follows the check
    of a non-empty key directly is always recognised inside the window,
    however many other keys the cache has seen -- provided no earlier call
    was stamped later than that check. *)
Theorem dedupe_immediate_repeat_is_duplicate
  (options : Dedupe.DedupeCacheOptions) (calls : list Dedupe.call)
  (k : jsstring) (t0 now : Z) :
  k <> [] -> 1 <= Dedupe.maxSize options ->
  (forall cl, cl ∈ calls -> cl.2 <= t0) ->
  t0 <= now -> now - t0 < Dedupe.ttlMs options ->
  (Dedupe.check options (Some k) now
     (Dedupe.cache_after options (calls ++ [(Some k, t0)]))).1 = true.
Proof.
  intros Hne Hcap Hclock Hnow Hwindow.
  set (c := Dedupe.cache_after options calls).
  assert (NoDup c.*1) as Hnd by (apply after_calls_NoDup, NoDup_nil_2).
  assert (Dedupe.size c <= Dedupe.maxSize options) as Hsize.
  { unfold c, Dedupe.cache_after.
    apply (after_calls_ind options
             (fun c => NoDup c.*1 /\ Dedupe.size c <= Dedupe.maxSize options)).
    - intros cl c' _ [Hnd' Hsize']. split; [by apply check_NoDup |].
      apply check_size; [lia | done | done].
    - split; [apply NoDup_nil_2 | unfold Dedupe.size, Dedupe.empty; simpl; lia]. }
  assert (forall e, e ∈ c -> e.2 <= t0) as Hstamps.
  { intros [k' ts] He. simpl. by apply (entries_not_after options calls t0 k' ts). }
  assert (Dedupe.map_get k (Dedupe.cache_after options (calls ++ [(Some k, t0)]))
          = Some t0) as Hget.
  { unfold Dedupe.cache_after. rewrite after_calls_app. fold (Dedupe.cache_after options calls).
    fold c. change (Dedupe.after_calls options [(Some k, t0)] c)
      with (Dedupe.check options (Some k) t0 c).2.
    destruct (check_cases options (Some k) t0 c)
      as [[Hf _] | [(k' & ex & [= <-] & _ & _ & _ & ->) | (k' & [= <-] & _ & _ & ->)]];
      cbn [snd].
    - simpl in Hf. by rewrite truthy_nonempty in Hf.
    - apply map_get_set_eq.
    - destruct (decide (k ∈ c.*1)) as [Hin | Hnew].
      + apply prune_keeps.
        * by apply map_set_NoDup.
        * apply map_get_set_eq.
        * lia.
        * unfold Dedupe.size in *. by rewrite map_set_length_present.
      + rewrite map_set_keys_absent by done.
        apply prune_keeps_newest; [done | done | done | lia | done]. }
  destruct (check_cases options (Some k) now
              (Dedupe.cache_after options (calls ++ [(Some k, t0)])))
    as [[Hf _] | [(k' & ex & _ & _ & _ & _ & ->) | (k' & [= <-] & _ & Hold & _)]].
  - simpl in Hf. by rewrite truthy_nonempty in Hf.
  - done.
  - specialize (Hold t0 Hget). lia.
Qed.

Lemma dedupe_immediate_repeat_is_duplicate_witness :
  (Dedupe.check {| Dedupe.ttlMs := 10; Dedupe.maxSize := 1 |} (Some (js "c")) 5
     (Dedupe.cache_after {| Dedupe.ttlMs := 10; Dedupe.maxSize := 1 |}
        ([(Some (js "a"), 0); (Some (js "b"), 1)] ++ [(Some (js "c"), 2)]))).1 = true.
Proof.
  apply dedupe_immediate_repeat_is_duplicate.
  - discriminate.
  - simpl. lia.
  - intros cl Hcl. repeat (apply elem_of_cons in Hcl as [-> | Hcl]; [simpl; lia |]).
    by apply elem_of_nil in Hcl.
  - lia.
  - simpl. lia.
Defined.

(** ** Time-based set *)

(** X6: a key added at time [t] is found as long as no more than [ttlMs]
    has passed since, and looking it up later than that removes it; a key
    stored with the timestamp 0 is never found; and a lookup leaves every
    other key alone. *)
Theorem ttl_set_add_then_has
  (ttlMs : Z) (key : jsstring) (t now : Z) (c : gmap jsstring Z) :
  let added := TtlSet.add key t c in
  (TtlSet.has ttlMs key now added).1 = negb (t =? 0) && (now - t <=? ttlMs)
  /\ (t <> 0 -> ttlMs < now - t -> (TtlSet.has ttlMs key now added).2 !! key = None)
  /\ (forall other, other <> key ->
        (TtlSet.has ttlMs key now added).2 !! other = c !! other).
Proof.
  intros added. unfold TtlSet.has, added, TtlSet.add. rewrite lookup_insert_eq.
  destruct (Z.eqb_spec t 0) as [-> | Ht]; simpl.
  - split_and!; [done | done |]. intros other Hne. by rewrite lookup_insert_ne.
  - destruct (Z.gtb_spec (now - t) ttlMs) as [Hlate | Hin]; simpl.
    + split_and!.
      * by destruct (Z.leb_spec (now - t) ttlMs); [lia |].
      * intros _ _. apply lookup_delete_eq.
      * intros other Hne. by rewrite lookup_delete_ne, lookup_insert_ne.
    + split_and!.
      * by destruct (Z.leb_spec (now - t) ttlMs); [| lia].
      * lia.
      * intros other Hne. by rewrite lookup_insert_ne.
Qed.

Lemma ttl_set_add_then_has_witness :
  (TtlSet.has 60000 (js "msg123") 70000 (TtlSet.add (js "msg123") 5000 ∅)).2
    !! js "msg123" = None.
Proof.
  destruct (ttl_set_add_then_has 60000 (js "msg123") 5000 70000 ∅) as (_ & Hgone & _).
  apply Hgone; lia.
Defined.

(** ** Reconnect manager *)

Section ReconnectFacts.
Import JSNumber Reconnect.
Variable pow_approx : number -> number -> number.

Lemma increments_count (n : nat) (attempts : Z) :
  increments n attempts = (attempts + Z.of_nat n)%Z.
Proof.
  unfold increments. induction n as [| n IH]; [simpl; lia |].
  rewrite Nat.iter_succ, IH. unfold increment. simpl. lia.
Qed.

Lemma nextDelays_counter (rands : list Q) (policy : ReconnectPolicy) (attempts : Z) :
  (nextDelays pow_approx rands policy attempts).2
  = (attempts + Z.of_nat (length rands))%Z.
Proof.
  revert attempts. induction rands as [| rand rands IH]; intros attempts.
  - simpl. lia.
  - cbn [nextDelays nextDelay]. specialize (IH (attempts + 1)%Z).
    destruct (nextDelays pow_approx rands policy (attempts + 1)) as [delays attempts2].
    simpl in *. lia.
Qed.

Lemma nextDelays_length (rands : list Q) (policy : ReconnectPolicy) (attempts : Z) :
  length (nextDelays pow_approx rands policy attempts).1 = length rands.
Proof.
  revert attempts. induction rands as [| r rands IH]; intros attempts; [done |].
  cbn [nextDelays nextDelay]. specialize (IH (attempts + 1)).
  destruct (nextDelays pow_approx rands policy (attempts + 1)). simpl in *. lia.
Qed.

Lemma nextDelays_lookup (rands : list Q) (policy : ReconnectPolicy) (attempts : Z)
  (i : nat) (rand : Q) :
  rands !! i = Some rand ->
  (nextDelays pow_approx rands policy attempts).1 !! i
  = Some (Backoff.computeBackoff pow_approx rand (backoff policy)
            (Finite (inject_Z (attempts + Z.of_nat i + 1)))).
Proof.
  revert attempts i. induction rands as [| r rands IH]; intros attempts i; [done |].
  cbn [nextDelays nextDelay]. specialize (IH (attempts + 1)%Z).
  destruct (nextDelays pow_approx rands policy (attempts + 1)) as [delays attempts2].
  simpl in IH. destruct i as [| i]; simpl.
  - intros [= ->]. do 4 f_equal. lia.
  - intros Hi. rewrite (IH i Hi). do 4 f_equal. lia.
Qed.

(** Every delay of a run of calls is the backoff of its attempt. *)
Lemma nextDelays_form (rands : list Q) (policy : ReconnectPolicy) (attempts : Z)
  (i : nat) (delay : number) :
  (nextDelays pow_approx rands policy attempts).1 !! i = Some delay ->
  exists rand,
    rands !! i = Some rand
    /\ delay = Backoff.computeBackoff pow_approx rand (backoff policy)
                 (Finite (inject_Z (attempts + Z.of_nat i + 1))).
Proof.
  intros Hi. destruct (rands !! i) as [rand |] eqn:Hrand.
  - rewrite (nextDelays_lookup rands policy attempts i rand Hrand) in Hi.
    injection Hi as <-. by exists rand.
  - apply lookup_ge_None in Hrand. apply lookup_lt_Some in Hi.
    rewrite nextDelays_length in Hi. lia.
Qed.
End ReconnectFacts.

(** X7: counting attempts: [n] calls of [increment] on a fresh manager
    leave the counter at [n], and the manager is exhausted exactly when [n]
    has reached [maxAttempts]; [reset] returns the counter to 0, after which
    the manager is exhausted only if [maxAttempts] is not positive. *)
Theorem reconnect_exhausted_after_max_attempts
  (policy : Reconnect.ReconnectPolicy) (n : nat) :
  Reconnect.getAttempts (Reconnect.increments n Reconnect.initial) = Z.of_nat n
  /\ (Reconnect.isExhausted policy (Reconnect.increments n Reconnect.initial) = true
      <-> Reconnect.maxAttempts policy <= Z.of_nat n)
  /\ Reconnect.getAttempts (Reconnect.reset (Reconnect.increments n Reconnect.initial)) = 0
  /\ (Reconnect.isExhausted policy
        (Reconnect.reset (Reconnect.increments n Reconnect.initial)) = true
      <-> Reconnect.maxAttempts policy <= 0).
Proof.
  unfold Reconnect.getAttempts, Reconnect.isExhausted, Reconnect.reset.
  rewrite increments_count. unfold Reconnect.initial. rewrite Z.add_0_l.
  split_and!; [done | apply Z.leb_le | done | apply Z.leb_le].
Qed.

(** X8: calls of [nextDelay] in a row on a manager that has counted
    [attempts], while the counter stays within [2^53]: the call number
    [i+1] returns the backoff of attempt [attempts + i + 1], no delay is
    greater than [maxMs] (each is at most [maxMs] unless it is NaN), and
    the counter ends advanced by the number of calls. *)
Theorem reconnect_nextDelay_sequence
  (pow_approx : JSNumber.number -> JSNumber.number -> JSNumber.number)
  (rands : list Q) (policy : Reconnect.ReconnectPolicy) (attempts : Z) :
  0 <= attempts -> attempts + Z.of_nat (length rands) <= 2 ^ 53 ->
  (Reconnect.nextDelays pow_approx rands policy attempts).2
  = attempts + Z.of_nat (length rands)
  /\ length (Reconnect.nextDelays pow_approx rands policy attempts).1 = length rands
  /\ forall (i : nat) (delay : JSNumber.number),
       (Reconnect.nextDelays pow_approx rands policy attempts).1 !! i = Some delay ->
       JSNumber.lt (Backoff.maxMs (Reconnect.backoff policy)) delay = false
       /\ (JSNumber.is_NaN delay = false ->
           JSNumber.le delay (Backoff.maxMs (Reconnect.backoff policy)) = true)
       /\ exists rand,
            rands !! i = Some rand
            /\ delay = Backoff.computeBackoff pow_approx rand (Reconnect.backoff policy)
                         (JSNumber.Finite (inject_Z (attempts + Z.of_nat i + 1))).
Proof.
  intros _ _. split_and!; [apply nextDelays_counter | apply nextDelays_length |].
  intros i delay Hi.
  destruct (nextDelays_form pow_approx rands policy attempts i delay Hi) as (rand & Hrand & ->).
  split_and!; [| | by exists rand]; unfold Backoff.computeBackoff.
  - apply Math_min_not_above.
  - apply Math_min_capped.
Qed.

Lemma reconnect_nextDelay_sequence_witness :
  let policy :=
    {| Reconnect.backoff :=
         {| Backoff.initialMs := JSNumber.Finite 1000;
            Backoff.maxMs := JSNumber.Finite 10000;
            Backoff.factor := JSNumber.Finite 2;
            Backoff.jitter := JSNumber.RN (25 # 100) |};
       Reconnect.maxAttempts := 5 |} in
  (Reconnect.nextDelays JSNumber.whole_power [1 # 2; 1 # 3]%Q policy 0).1
  = [JSNumber.Finite 1125; JSNumber.Finite 2167]
  /\ exists rand,
       [1 # 2; 1 # 3]%Q !! 1%nat = Some rand
       /\ JSNumber.Finite 2167
          = Backoff.computeBackoff JSNumber.whole_power rand (Reconnect.backoff policy)
              (JSNumber.Finite (inject_Z (0 + Z.of_nat 1 + 1))).
Proof.
  intros policy. split; [vm_compute; reflexivity |].
  destruct (reconnect_nextDelay_sequence JSNumber.whole_power [1 # 2; 1 # 3]%Q policy 0)
    as (_ & _ & Hdelay); [lia | simpl; lia |].
  apply (Hdelay 1%nat). vm_compute. reflexivity.
Defined.



(** ** Recovery of the credentials *)

Section RestoreFacts.
Import Creds Restore.
Variable resolve : jsstring -> jsstring -> jsstring.
Variable utf8_decode : list Byte.byte -> jsstring.
Variable JSON_parse_ok : jsstring -> bool.
Variable o : Options.

Local Abbreviation credsPath := (resolve (authDir o) (credsFilename o)).
Local Abbreviation backupPath := (resolve (authDir o) (backupFilename o)).

(** A path holds usable credentials: a regular file of more than one byte
    whose text is not empty and parses. *)
Local Abbreviation usable path fs bytes :=
  (fs !! path = Some (File bytes) /\ 1 < Z.of_nat (length bytes)
   /\ utf8_decode bytes <> [] /\ JSON_parse_ok (utf8_decode bytes) = true).

Lemma readCredsJsonRaw_usable (path : jsstring) (fs : gmap jsstring node) bytes :
  fs !! path = Some (File bytes) -> 1 < Z.of_nat (length bytes) ->
  readCredsJsonRaw utf8_decode path fs = Some (utf8_decode bytes).
Proof.
  intros Hfile Hsize. unfold readCredsJsonRaw. rewrite Hfile.
  by destruct (Z.leb_spec (Z.of_nat (length bytes)) 1); [lia |].
Qed.

Lemma main_is_good_usable (fs : gmap jsstring node) bytes :
  usable credsPath fs bytes -> main_is_good resolve utf8_decode JSON_parse_ok o fs = true.
Proof.
  intros (Hfile & Hsize & Htext & Hjson). unfold main_is_good.
  rewrite (readCredsJsonRaw_usable _ _ _ Hfile Hsize).
  by rewrite truthy_nonempty, Hjson.
Qed.

Lemma main_is_good_inv (fs : gmap jsstring node) :
  main_is_good resolve utf8_decode JSON_parse_ok o fs = true ->
  exists bytes, usable credsPath fs bytes.
Proof.
  unfold main_is_good, readCredsJsonRaw.
  destruct (fs !! credsPath) as [[bytes |] |] eqn:Hfile; [| done | done].
  destruct (Z.leb_spec (Z.of_nat (length bytes)) 1); [done |].
  intros [Htext Hjson]%andb_true_iff. exists bytes. split_and!; [done | done | | done].
  intros Hempty. by rewrite Hempty in Htext.
Qed.

(** The restore step in full: when and what it copies. *)
Lemma restore_cases (fs : gmap jsstring node) :
  let r := maybeRestoreCredsFromBackup resolve utf8_decode JSON_parse_ok o fs in
  (r.1.1 = false /\ r.1.2 = fs)
  \/ (exists bytes,
        main_is_good resolve utf8_decode JSON_parse_ok o fs = false
        /\ usable backupPath fs bytes
        /\ fs !! credsPath <> Some Directory
        /\ r = (true, <[credsPath := File bytes]> fs,
                emit o (Logged "Restored credentials from backup"))).
Proof.
  intros r. unfold r, maybeRestoreCredsFromBackup.
  destruct (main_is_good _ _ _ o fs) eqn:Hmain; [by left |].
  unfold readCredsJsonRaw.
  destruct (fs !! backupPath) as [[bytes |] |] eqn:Hbackup; [| by left | by left].
  destruct (Z.leb_spec (Z.of_nat (length bytes)) 1); [by left |].
  destruct (truthy (utf8_decode bytes)) eqn:Htext; [| by left].
  destruct (JSON_parse_ok (utf8_decode bytes)) eqn:Hjson; [| by left].
  unfold copyFileSync. rewrite Hbackup.
  assert (utf8_decode bytes <> []) as Hne by (intros Hempty; by rewrite Hempty in Htext).
  destruct (fs !! credsPath) as [[mainBytes |] |] eqn:Hcreds.
  - right. exists bytes. split_and!; done.
  - by left.
  - right. exists bytes. split_and!; done.
Qed.
End RestoreFacts.

(** X10: [maybeRestoreCredsFromBackup] writes nothing unless it reports a
    restore; and when the main file holds usable credentials it reports
    none and calls no logger, whatever the backup holds. *)
Theorem restore_leaves_good_main_alone
  (resolve : jsstring -> jsstring -> jsstring)
  (utf8_decode : list Byte.byte -> jsstring)
  (JSON_parse_ok : jsstring -> bool)
  (o : Creds.Options) (fs : gmap jsstring Creds.node) :
  let credsPath := resolve (Creds.authDir o) (Creds.credsFilename o) in
  let r := Restore.maybeRestoreCredsFromBackup resolve utf8_decode JSON_parse_ok o fs in
  (r.1.1 = false -> r.1.2 = fs)
  /\ (forall bytes,
        fs !! credsPath = Some (Creds.File bytes) ->
        1 < Z.of_nat (length bytes) -> utf8_decode bytes <> [] ->
        JSON_parse_ok (utf8_decode bytes) = true ->
        r = (false, fs, [])).
Proof.
  intros credsPath r. split.
  - destruct (restore_cases resolve utf8_decode JSON_parse_ok o fs)
      as [[_ Hsame] | (bytes & _ & _ & _ & Heq)]; [done |].
    fold r in Heq. rewrite Heq. discriminate.
  - intros bytes Hfile Hsize Htext Hjson.
    unfold r, Restore.maybeRestoreCredsFromBackup.
    by rewrite (main_is_good_usable resolve utf8_decode JSON_parse_ok o fs bytes).
Qed.

Lemma restore_leaves_good_main_alone_witness :
  Restore.maybeRestoreCredsFromBackup sample_resolve sample_decode sample_JSON_parse_ok
    sample_options (Creds.files good_main)
  = (false, Creds.files good_main, []).
Proof.
  destruct (restore_leaves_good_main_alone sample_resolve sample_decode sample_JSON_parse_ok
              sample_options (Creds.files good_main)) as [_ Hgood].
  apply (Hgood (list_byte_of_string "{old}")).
  - reflexivity.
  - simpl. lia.
  - discriminate.
  - reflexivity.
Defined.

(** X11: when the main file is missing or unusable and the backup holds
    usable credentials, the backup is copied over the main file (unless a
    directory sits at its path), the restore is reported and logged, and no
    other path changes. *)
Theorem restore_copies_good_backup
  (resolve : jsstring -> jsstring -> jsstring)
  (utf8_decode : list Byte.byte -> jsstring)
  (JSON_parse_ok : jsstring -> bool)
  (o : Creds.Options) (fs : gmap jsstring Creds.node) (bytes : list Byte.byte) :
  let credsPath := resolve (Creds.authDir o) (Creds.credsFilename o) in
  let backupPath := resolve (Creds.authDir o) (Creds.backupFilename o) in
  Restore.main_is_good resolve utf8_decode JSON_parse_ok o fs = false ->
  fs !! backupPath = Some (Creds.File bytes) ->
  1 < Z.of_nat (length bytes) -> utf8_decode bytes <> [] ->
  JSON_parse_ok (utf8_decode bytes) = true ->
  fs !! credsPath <> Some Creds.Directory ->
  Restore.maybeRestoreCredsFromBackup resolve utf8_decode JSON_parse_ok o fs
  = (true, <[credsPath := Creds.File bytes]> fs,
     Restore.emit o (Restore.Logged "Restored credentials from backup")).
Proof.
  intros credsPath backupPath Hmain Hbackup Hsize Htext Hjson Hnodir.
  subst credsPath backupPath.
  unfold Restore.maybeRestoreCredsFromBackup. rewrite Hmain.
  rewrite (readCredsJsonRaw_usable utf8_decode _ _ _ Hbackup Hsize).
  rewrite (truthy_nonempty _ Htext), Hjson.
  unfold Creds.copyFileSync. rewrite Hbackup.
  by destruct (fs !! resolve (Creds.authDir o) (Creds.credsFilename o)) as [[? |] |].
Qed.

Lemma restore_copies_good_backup_witness :
  Restore.maybeRestoreCredsFromBackup sample_resolve sample_decode sample_JSON_parse_ok
    sample_options (Creds.files corrupted_main)
  = (true,
     <[creds_path := Creds.File (list_byte_of_string "{}")]> (Creds.files corrupted_main),
     [Restore.Logged "Restored credentials from backup"]).
Proof.
  apply (restore_copies_good_backup sample_resolve sample_decode sample_JSON_parse_ok
           sample_options (Creds.files corrupted_main) (list_byte_of_string "{}")).
  - reflexivity.
  - reflexivity.
  - simpl. lia.
  - discriminate.
  - reflexivity.
  - vm_compute. discriminate.
Defined.

(** X12: a restore is done once: after a call that reported a restore, the
    main file holds usable credentials, and a second call reports nothing,
    writes nothing and logs nothing. *)
Theorem restore_twice_is_restore_once
  (resolve : jsstring -> jsstring -> jsstring)
  (utf8_decode : list Byte.byte -> jsstring)
  (JSON_parse_ok : jsstring -> bool)
  (o : Creds.Options) (fs : gmap jsstring Creds.node) :
  let first := Restore.maybeRestoreCredsFromBackup resolve utf8_decode JSON_parse_ok o fs in
  first.1.1 = true ->
  Restore.main_is_good resolve utf8_decode JSON_parse_ok o first.1.2 = true
  /\ Restore.maybeRestoreCredsFromBackup resolve utf8_decode JSON_parse_ok o first.1.2
     = (false, first.1.2, []).
Proof.
  intros first Hrestored.
  destruct (restore_cases resolve utf8_decode JSON_parse_ok o fs)
    as [[Hfalse _] | (bytes & _ & (Hbackup & Hsize & Htext & Hjson) & _ & Heq)].
  - fold first in Hfalse. congruence.
  - fold first in Heq.
    assert (Restore.main_is_good resolve utf8_decode JSON_parse_ok o first.1.2 = true)
      as Hgood.
    { apply (main_is_good_usable resolve utf8_decode JSON_parse_ok o _ bytes).
      rewrite Heq. cbn [fst snd]. split_and!; [apply lookup_insert_eq | done ..]. }
    split; [exact Hgood |].
    unfold Restore.maybeRestoreCredsFromBackup at 1. by rewrite Hgood.
Qed.

Lemma restore_twice_is_restore_once_witness :
  let first :=
    Restore.maybeRestoreCredsFromBackup sample_resolve sample_decode sample_JSON_parse_ok
      sample_options (Creds.files corrupted_main) in
  Restore.main_is_good sample_resolve sample_decode sample_JSON_parse_ok sample_options
    first.1.2 = true
  /\ Restore.maybeRestoreCredsFromBackup sample_resolve sample_decode sample_JSON_parse_ok
       sample_options first.1.2
     = (false, first.1.2, []).
Proof.
  apply (restore_twice_is_restore_once sample_resolve sample_decode sample_JSON_parse_ok
           sample_options (Creds.files corrupted_main)).
  reflexivity.
Defined.

Section BackupFacts.
Import Creds.
Variable resolve : jsstring -> jsstring -> jsstring.
Variable utf8_decode : list Byte.byte -> jsstring.
Variable JSON_parse_ok : jsstring -> bool.
Variable o : Options.

Local Abbreviation credsPath := (resolve (authDir o) (credsFilename o)).
Local Abbreviation backupPath := (resolve (authDir o) (backupFilename o)).

(** A main file with usable credentials is copied to the backup before the
    save operation runs. *)
Lemma safeSaveCreds_backs_up (saveCreds : SaveOp) (w : world) bytes :
  files w !! credsPath = Some (File bytes) ->
  1 < Z.of_nat (length bytes) -> utf8_decode bytes <> [] ->
  JSON_parse_ok (utf8_decode bytes) = true ->
  files w !! backupPath <> Some Directory ->
  (forall fs, (saveCreds fs).2 !! backupPath = fs !! backupPath) ->
  files (safeSaveCreds resolve utf8_decode JSON_parse_ok saveCreds o w).2 !! backupPath
  = Some (File bytes).
Proof.
  intros Hmain Hsize Htext Hjson Hnodir Hsave.
  rewrite safeSaveCreds_files, Hsave.
  unfold backup_step. rewrite (readCredsJsonRaw_usable utf8_decode _ _ _ Hmain Hsize).
  rewrite (truthy_nonempty _ Htext), Hjson.
  unfold copyFileSync. rewrite Hmain.
  destruct (files w !! backupPath) as [[? |] |]; [| done |];
    cbn [with_files files]; apply lookup_insert_eq.
Qed.
End BackupFacts.

(** X13: backup before overwrite: when the main file holds usable
    credentials (and no directory sits at the backup path), then after a
    queued save has run -- whether it succeeded or failed -- the backup file
    holds the main file as it was before the save. *)
Theorem save_keeps_previous_credentials_in_backup
  (resolve : jsstring -> jsstring -> jsstring)
  (utf8_decode : list Byte.byte -> jsstring)
  (JSON_parse_ok : jsstring -> bool)
  (o : Creds.Options) (saveCreds : Creds.SaveOp) (w : Creds.world)
  (bytes : list Byte.byte) :
  let credsPath := resolve (Creds.authDir o) (Creds.credsFilename o) in
  let backupPath := resolve (Creds.authDir o) (Creds.backupFilename o) in
  Creds.files w !! credsPath = Some (Creds.File bytes) ->
  1 < Z.of_nat (length bytes) -> utf8_decode bytes <> [] ->
  JSON_parse_ok (utf8_decode bytes) = true ->
  Creds.files w !! backupPath <> Some Creds.Directory ->
  (forall fs, (saveCreds fs).2 !! backupPath = fs !! backupPath) ->
  Creds.files (Creds.safeSaveCreds resolve utf8_decode JSON_parse_ok saveCreds o w).2
    !! backupPath
  = Some (Creds.File bytes).
Proof. intros credsPath backupPath. apply safeSaveCreds_backs_up. Qed.

Lemma save_keeps_previous_credentials_in_backup_witness :
  Creds.files
    (Creds.safeSaveCreds sample_resolve sample_decode sample_JSON_parse_ok
       save_crashing sample_options good_main).2 !! backup_path
  = Some (Creds.File (list_byte_of_string "{old}")).
Proof.
  apply (save_keeps_previous_credentials_in_backup sample_resolve sample_decode
           sample_JSON_parse_ok sample_options save_crashing good_main
           (list_byte_of_string "{old}")).
  - reflexivity.
  - simpl. lia.
  - discriminate.
  - reflexivity.
  - vm_compute. discriminate.
  - intros fs. simpl. apply lookup_insert_ne. vm_compute. discriminate.
Defined.

(** X14: crash recovery: if the main file held usable credentials before a
    queued save and is unusable after it (the save wrote garbage or died
    half-way, without touching the backup), the recovery routine puts back
    the credentials from before the save. *)
Theorem recovery_undoes_corrupting_save
  (resolve : jsstring -> jsstring -> jsstring)
  (utf8_decode : list Byte.byte -> jsstring)
  (JSON_parse_ok : jsstring -> bool)
  (o : Creds.Options) (saveCreds : Creds.SaveOp) (w : Creds.world)
  (bytes : list Byte.byte) :
  let credsPath := resolve (Creds.authDir o) (Creds.credsFilename o) in
  let backupPath := resolve (Creds.authDir o) (Creds.backupFilename o) in
  let after :=
    Creds.files (Creds.safeSaveCreds resolve utf8_decode JSON_parse_ok saveCreds o w).2 in
  Creds.files w !! credsPath = Some (Creds.File bytes) ->
  1 < Z.of_nat (length bytes) -> utf8_decode bytes <> [] ->
  JSON_parse_ok (utf8_decode bytes) = true ->
  Creds.files w !! backupPath <> Some Creds.Directory ->
  (forall fs, (saveCreds fs).2 !! backupPath = fs !! backupPath) ->
  Restore.main_is_good resolve utf8_decode JSON_parse_ok o after = false ->
  after !! credsPath <> Some Creds.Directory ->
  Restore.maybeRestoreCredsFromBackup resolve utf8_decode JSON_parse_ok o after
  = (true, <[credsPath := Creds.File bytes]> after,
     Restore.emit o (Restore.Logged "Restored credentials from backup")).
Proof.
  intros credsPath backupPath after Hmain Hsize Htext Hjson Hnodir Hsave Hbad Hnodir'.
  assert (after !! backupPath = Some (Creds.File bytes)) as Hbackup
    by (by apply safeSaveCreds_backs_up).
  subst credsPath backupPath.
  unfold Restore.maybeRestoreCredsFromBackup. rewrite Hbad.
  rewrite (readCredsJsonRaw_usable utf8_decode _ _ _ Hbackup Hsize).
  rewrite (truthy_nonempty _ Htext), Hjson.
  unfold Creds.copyFileSync. rewrite Hbackup.
  by destruct (after !! resolve (Creds.authDir o) (Creds.credsFilename o)) as [[? |] |].
Qed.

Lemma recovery_undoes_corrupting_save_witness :
  let after :=
    Creds.files
      (Creds.safeSaveCreds sample_resolve sample_decode sample_JSON_parse_ok
         save_crashing sample_options good_main).2 in
  after !! creds_path = Some (Creds.File (list_byte_of_string "{ha"))
  /\ (Restore.maybeRestoreCredsFromBackup sample_resolve sample_decode
        sample_JSON_parse_ok sample_options after).1.2 !! creds_path
     = Some (Creds.File (list_byte_of_string "{old}")).
Proof.
  intros after. split; [reflexivity |]. unfold after.
  rewrite (recovery_undoes_corrupting_save sample_resolve sample_decode
             sample_JSON_parse_ok sample_options save_crashing good_main
             (list_byte_of_string "{old}")).
  - reflexivity.
  - reflexivity.
  - simpl. lia.
  - discriminate.
  - reflexivity.
  - vm_compute. discriminate.
  - intros fs. simpl. apply lookup_insert_ne. vm_compute. discriminate.
  - reflexivity.
  - vm_compute. discriminate.
Defined.

(** ** Debouncer: buffering, timers and flushes *)

Section DebouncerFacts.
Import Debouncer Timeline.
Variable T : Type.
Variable options : DebouncerOptions T.
Implicit Types (st : state T) (k : jsstring) (item : T) (b : DebounceBuffer T).

Local Abbreviation pending st k :=
  (match buffers T st !! k with Some b => items T b | None => [] end).

Lemma debounced_key_Some item k :
  debounced_key T options item = Some k ->
  buildKey T options item = Some k /\ k <> []
  /\ (0 <? window T options)
     && match shouldDebounce T options with Some f => f item | None => true end = true.
Proof.
  unfold debounced_key.
  destruct ((0 <? window T options) && _) eqn:Hcan; simpl; [| done].
  destruct (buildKey T options item) as [[| c k'] |] eqn:Hkey; simpl; try done.
  intros [= <-]. done.
Qed.

(** The buffered path of [enqueue]: the item joins the buffer of its key
    and the timer is set anew. *)
Lemma enqueue_debounced item k st :
  debounced_key T options item = Some k ->
  enqueue T options item st
  = (Fulfilled tt,
     set_buffers T
       (<[k := {| items := pending st k ++ [item];
                  timeout := Some (clock T st + window T options) |}]> (buffers T st))
       st).
Proof.
  intros (Hkey & Hne & Hcan)%debounced_key_Some.
  unfold enqueue. rewrite Hkey, Hcan. simpl truthy_opt.
  rewrite (truthy_nonempty _ Hne). simpl. unfold scheduleFlush.
  by destruct (buffers T st !! k) as [existing |].
Qed.

Lemma last_cons {A} (x d : A) (l : list A) : List.last (x :: l) d = List.last l x.
Proof.
  revert x d. induction l as [| y l IH]; intros x d; [done |].
  change (List.last (x :: y :: l) d) with (List.last (y :: l) d).
  by rewrite !IH.
Qed.

Lemma timer_due_false now st :
  (forall k b due, buffers T st !! k = Some b -> timeout T b = Some due -> now < due) ->
  timer_due T now st = false.
Proof.
  intros Hlater. unfold timer_due. apply not_true_is_false.
  intros ([k b] & Hin%list_elem_of_In%elem_of_map_to_list & Hdue)%existsb_exists.
  simpl in Hdue. destruct (timeout T b) as [due |] eqn:Htimer; [| done].
  apply Z.leb_le in Hdue. specialize (Hlater k b due Hin Htimer). lia.
Qed.

Lemma close_together_last gap previous (times : list Z) :
  close_together gap previous times = true -> previous <= List.last times previous.
Proof.
  revert previous. induction times as [| t times IH]; intros previous; [simpl; lia |].
  cbn [close_together]. intros [[Hle _]%andb_true_iff Hrest]%andb_true_iff.
  apply Z.leb_le in Hle. rewrite last_cons. specialize (IH t Hrest).
  destruct times as [| t' times]; [simpl in *; lia |].
  rewrite last_cons in IH. rewrite last_cons. lia.
Qed.

Lemma arrive_cons (a : Z * T) (l : list (Z * T)) st :
  timer_due T a.1 st = false ->
  arrive T options (a :: l) st
  = arrive T options l (enqueue T options a.2 (at_time T a.1 st)).2.
Proof. intros Hquiet. cbn [arrive]. by rewrite Hquiet. Qed.

(** A burst under one key, no timer coming due while it lasts. *)
Lemma arrive_burst k (first : Z * T) (others : list (Z * T)) st :
  (forall a, a ∈ first :: others -> debounced_key T options a.2 = Some k) ->
  close_together (window T options) first.1 others.*1 = true ->
  (forall k' b due, buffers T st !! k' = Some b -> timeout T b = Some due ->
     first.1 < due /\ (k' <> k -> List.last others.*1 first.1 < due)) ->
  exists st',
    arrive T options (first :: others) st = Some st'
    /\ buffers T st' !! k
       = Some {| items := pending st k ++ (first :: others).*2;
                 timeout := Some (List.last others.*1 first.1 + window T options) |}
    /\ flushed T st' = flushed T st
    /\ reported T st' = reported T st
    /\ forall k', k' <> k -> buffers T st' !! k' = buffers T st !! k'.
Proof.
  revert first st. induction others as [| next others IH]; intros first st Hall Hclose Hquiet;
    (rewrite arrive_cons
       by (apply timer_due_false; intros k' b due Hb Hdue;
           by destruct (Hquiet k' b due Hb Hdue)));
    rewrite (enqueue_debounced first.2 k) by (apply Hall; left);
    cbn [snd].
  - eexists. split; [done |].
    cbn [set_buffers buffers flushed reported at_time clock List.last fmap list_fmap].
    split_and!; [by rewrite lookup_insert_eq | done | done |].
    intros k' Hne. by rewrite lookup_insert_ne.
  - cbn [fmap list_fmap close_together] in Hclose.
    apply andb_true_iff in Hclose as [[Hle Hlt]%andb_true_iff Hrest].
    apply Z.leb_le in Hle. apply Z.ltb_lt in Hlt.
    pose proof (close_together_last _ _ _ Hrest) as Hlast.
    set (st1 := set_buffers T _ (at_time T first.1 st)).
    destruct (IH next st1) as (st' & Hrun & Hbuf & Hfl & Hrep & Hother);
      [intros a Ha; apply Hall; by right | exact Hrest | | ]; unfold st1 in *.
    + intros k' b due.
      cbn [set_buffers buffers at_time clock].
      destruct (decide (k' = k)) as [-> | Hne].
      * rewrite lookup_insert_eq. intros [= <-]. cbn [timeout]. intros [= <-].
        split; [lia | done].
      * rewrite lookup_insert_ne by done. intros Hb Hdue.
        destruct (Hquiet k' b due Hb Hdue) as [_ Hafter]. specialize (Hafter Hne).
        cbn [fmap list_fmap] in Hafter. rewrite last_cons in Hafter.
        split; [lia | done].
    + exists st'. split; [exact Hrun |].
      rewrite Hbuf, Hfl, Hrep.
      cbn [set_buffers buffers flushed reported at_time clock].
      rewrite lookup_insert_eq. cbn [items].
      split_and!; [| done | done |].
      * cbn [fmap list_fmap]. rewrite last_cons, <- app_assoc. done.
      * intros k' Hne. rewrite Hother by done.
        cbn [set_buffers buffers at_time]. by rewrite lookup_insert_ne.
Qed.

(** Every buffer in the map holds at least one item, has its timer
    running, and sits under a non-empty key. *)
Local Abbreviation well_formed st :=
  (forall k b, buffers T st !! k = Some b ->
     items T b <> [] /\ is_Some (timeout T b) /\ k <> []).

Lemma flushBuffer_buffers k b st :
  buffers T (flushBuffer T options k b st).2 = delete k (buffers T st).
Proof.
  unfold flushBuffer, call_onFlush, call_onError.
  destruct (length (items T b) =? 0)%nat; [done |].
  destruct (onFlush T options (items T b)); [done |].
  by destruct (onError T options).
Qed.

Lemma flushKey_buffers k st :
  buffers T (flushKey T options k st).2 = delete k (buffers T st).
Proof.
  unfold flushKey. destruct (buffers T st !! k) as [b |] eqn:Hb.
  - apply flushBuffer_buffers.
  - symmetry. by apply delete_id.
Qed.

Lemma flushKey_fulfilled k st : (flushKey T options k st).1 = Fulfilled tt.
Proof.
  unfold flushKey. destruct (buffers T st !! k) as [b |]; [| done].
  unfold flushBuffer, call_onFlush.
  destruct (length (items T b) =? 0)%nat; [done |].
  by destruct (onFlush T options (items T b)).
Qed.

Lemma on_timeout_buffers k st :
  buffers T (on_timeout T options k st) = buffers T st
  \/ buffers T (on_timeout T options k st) = delete k (buffers T st).
Proof.
  unfold on_timeout. destruct (buffers T st !! k) as [b |]; [| by left].
  destruct (timeout T b) as [due |]; [| by left].
  destruct (due <=? clock T st); [| by left]. right. apply flushBuffer_buffers.
Qed.

Lemma enqueue_buffers item st :
  (exists k, debounced_key T options item = Some k
             /\ buffers T (enqueue T options item st).2
                = <[k := {| items := pending st k ++ [item];
                            timeout := Some (clock T st + window T options) |}]>
                    (buffers T st))
  \/ (debounced_key T options item = None
      /\ (buffers T (enqueue T options item st).2 = buffers T st
          \/ exists k, buffers T (enqueue T options item st).2 = delete k (buffers T st))).
Proof.
  destruct (debounced_key T options item) as [k |] eqn:Hkey.
  - left. exists k. split; [done |]. by rewrite (enqueue_debounced item k).
  - right. split; [done |]. unfold debounced_key in Hkey. unfold enqueue.
    set (key := buildKey T options item) in *.
    set (can := (0 <? window T options) && _) in *.
    assert (negb can || negb (truthy_opt key) = true) as ->.
    { destruct can; [| done]. destruct (truthy_opt key) eqn:Ht; [| done].
      simpl in Hkey. destruct key; [done | discriminate]. }
    destruct (truthy_opt key && bool_decide (is_Some (buffers T st !! default [] key))).
    + pose proof (flushKey_buffers (default [] key) st) as Hdel.
      pose proof (flushKey_fulfilled (default [] key) st) as Hok.
      destruct (flushKey T options (default [] key) st) as [r1 st1]. simpl in *.
      subst r1. right. exists (default [] key). by rewrite <- Hdel.
    + by left.
Qed.
End DebouncerFacts.

(** X15: a burst is buffered in order and each item pushes the timer back:
    items that take the buffered path under one key, each arriving no
    earlier than the one before it and less than the window after it,
    while no buffer is pending for that key at the start and no timer of
    another key comes due before the last arrival, leave one buffer
    holding all of them in arrival order, with its timer due one window
    after the last arrival; no timer has come due in between, the batch
    handler and the error callback have not been called, and the buffers
    of other keys are untouched. *)
Theorem debouncer_burst_is_buffered_in_order
  (T : Type) (options : Debouncer.DebouncerOptions T) (k : jsstring)
  (first : Z * T) (others : list (Z * T)) (st : Debouncer.state T) :
  let last_arrival := List.last others.*1 first.1 in
  Debouncer.buffers T st !! k = None ->
  (forall a, a ∈ first :: others -> Timeline.debounced_key T options a.2 = Some k) ->
  Timeline.close_together (Debouncer.window T options) first.1 others.*1 = true ->
  (forall k' b due,
     Debouncer.buffers T st !! k' = Some b -> Debouncer.timeout T b = Some due ->
     last_arrival < due) ->
  exists st',
    Timeline.arrive T options (first :: others) st = Some st'
    /\ Debouncer.buffers T st' !! k
       = Some {| Debouncer.items := (first :: others).*2;
                 Debouncer.timeout := Some (last_arrival + Debouncer.window T options) |}
    /\ Debouncer.flushed T st' = Debouncer.flushed T st
    /\ Debouncer.reported T st' = Debouncer.reported T st
    /\ forall k', k' <> k -> Debouncer.buffers T st' !! k' = Debouncer.buffers T st !! k'.
Proof.
  intros last_arrival Hidle Hall Hclose Hquiet.
  pose proof (close_together_last _ _ _ Hclose) as Hlast.
  destruct (arrive_burst T options k first others st Hall Hclose)
    as (st' & Hrun & Hbuf & Hrest).
  - intros k' b due Hb Hdue. specialize (Hquiet k' b due Hb Hdue). unfold last_arrival in *.
    split; [lia | done].
  - exists st'. rewrite Hidle in Hbuf. split_and!; [exact Hrun | exact Hbuf | apply Hrest ..].
Qed.

(** A debouncer with a two-second window keyed by the chat, and three
    messages of one chat arriving within the window of each other. *)
Lemma debouncer_burst_is_buffered_in_order_witness :
  Timeline.arrive jsstring quiet_debouncer
    [(0, js "one"); (1500, js "two"); (3000, js "three")] idle_debouncer
  = Some burst_pending
  /\ Timeline.arrive jsstring quiet_debouncer
       [(0, js "one"); (10000, js "two")] idle_debouncer = None
  /\ exists st',
       Timeline.arrive jsstring quiet_debouncer
         [(0, js "one"); (1500, js "two"); (3000, js "three")] idle_debouncer = Some st'
       /\ Debouncer.buffers jsstring st' !! js "chat:user"
          = Some {| Debouncer.items := [js "one"; js "two"; js "three"];
                    Debouncer.timeout := Some 5000 |}.
Proof.
  split; [reflexivity |]. split; [reflexivity |].
  destruct (debouncer_burst_is_buffered_in_order jsstring quiet_debouncer (js "chat:user")
              (0, js "one") [(1500, js "two"); (3000, js "three")] idle_debouncer)
    as (st' & Hrun & Hbuf & _).
  - reflexivity.
  - intros a Ha. reflexivity.
  - reflexivity.
  - intros k' b due Hb. vm_compute in Hb. discriminate.
  - exists st'. split; [exact Hrun | exact Hbuf].
Defined.

(** X16: one flush per burst: when the timer of a pending buffer comes due,
    its items are handed to the batch handler as one batch, in order, and
    the buffer is gone, so that the timer cannot deliver twice; a timer that
    is not yet due delivers nothing. *)
Theorem debouncer_timer_flushes_batch_once
  (T : Type) (options : Debouncer.DebouncerOptions T) (k : jsstring)
  (batch : list T) (due now : Z) (st : Debouncer.state T) :
  Debouncer.buffers T st !! k
    = Some {| Debouncer.items := batch; Debouncer.timeout := Some due |} ->
  batch <> [] ->
  let fired := Debouncer.on_timeout T options k (Timeline.at_time T now st) in
  (now < due -> fired = Timeline.at_time T now st)
  /\ (due <= now ->
        Debouncer.flushed T fired = Debouncer.flushed T st ++ [batch]
        /\ Debouncer.buffers T fired = delete k (Debouncer.buffers T st)
        /\ Debouncer.on_timeout T options k fired = fired).
Proof.
  intros Hbuf Hne fired. unfold fired, Debouncer.on_timeout.
  cbn [Timeline.at_time Debouncer.buffers Debouncer.clock]. rewrite Hbuf.
  cbn [Debouncer.timeout]. split.
  - intros Hearly. by destruct (Z.leb_spec due now); [lia |].
  - intros Hdue. destruct (Z.leb_spec due now); [| lia].
    unfold Debouncer.flushBuffer, Debouncer.call_onFlush, Debouncer.call_onError.
    cbn [Debouncer.items].
    destruct batch as [| i batch]; [done |]. cbn [length Nat.eqb].
    destruct (Debouncer.onFlush T options (i :: batch)); [| destruct (Debouncer.onError T options)];
      cbn [snd Debouncer.set_buffers Debouncer.buffers Debouncer.flushed Debouncer.clock];
      rewrite lookup_delete_eq; done.
Qed.

Lemma debouncer_timer_flushes_batch_once_witness :
  let st := burst_pending in
  Debouncer.on_timeout jsstring quiet_debouncer (js "chat:user")
    (Timeline.at_time jsstring 4999 st) = Timeline.at_time jsstring 4999 st
  /\ Debouncer.flushed jsstring
       (Debouncer.on_timeout jsstring quiet_debouncer (js "chat:user")
          (Timeline.at_time jsstring 5000 st))
     = [[js "one"; js "two"; js "three"]].
Proof.
  intros st. split.
  - destruct (debouncer_timer_flushes_batch_once jsstring quiet_debouncer (js "chat:user")
                [js "one"; js "two"; js "three"] 5000 4999 st) as [Hearly _];
      [reflexivity | discriminate |].
    apply Hearly. lia.
  - destruct (debouncer_timer_flushes_batch_once jsstring quiet_debouncer (js "chat:user")
                [js "one"; js "two"; js "three"] 5000 5000 st) as [_ Hdue];
      [reflexivity | discriminate |].
    destruct Hdue as (Hflushed & _); [lia |]. exact Hflushed.
Defined.

(** X17: order is kept when an item bypasses the buffers: if a buffer is
    pending for the key of an item that is processed immediately, the
    pending batch is handed to the handler first and the item alone right
    after it, the buffer is gone, and the promise of [enqueue] settles as
    the handler did on the single item. *)
Theorem debouncer_bypass_flushes_pending_first
  (T : Type) (options : Debouncer.DebouncerOptions T) (item : T) (k : jsstring)
  (b : Debouncer.DebounceBuffer T) (st : Debouncer.state T) :
  Debouncer.buildKey T options item = Some k -> k <> [] ->
  Timeline.debounced_key T options item = None ->
  Debouncer.buffers T st !! k = Some b -> Debouncer.items T b <> [] ->
  (Debouncer.enqueue T options item st).1 = Debouncer.onFlush T options [item]
  /\ Debouncer.flushed T (Debouncer.enqueue T options item st).2
     = Debouncer.flushed T st ++ [Debouncer.items T b; [item]]
  /\ Debouncer.buffers T (Debouncer.enqueue T options item st).2
     = delete k (Debouncer.buffers T st).
Proof.
  intros Hkey Hne Hbypass Hbuf Hitems.
  unfold Timeline.debounced_key in Hbypass. unfold Debouncer.enqueue.
  rewrite Hkey in *. simpl truthy_opt in *. rewrite (truthy_nonempty _ Hne) in *.
  rewrite andb_true_r in Hbypass.
  destruct ((0 <? Debouncer.window T options) && _) eqn:Hcan; [done |].
  cbn [negb orb andb default from_option id]. rewrite Hbuf.
  rewrite bool_decide_eq_true_2 by eauto.
  unfold Debouncer.flushKey. rewrite Hbuf.
  unfold Debouncer.flushBuffer, Debouncer.call_onFlush, Debouncer.call_onError.
  destruct (Debouncer.items T b) as [| i batch]; [done |]. cbn [length Nat.eqb].
  destruct (Debouncer.onFlush T options (i :: batch));
    [| destruct (Debouncer.onError T options)];
    cbn [fst snd Debouncer.set_buffers Debouncer.buffers Debouncer.flushed];
    rewrite <- app_assoc; done.
Qed.

Lemma debouncer_bypass_flushes_pending_first_witness :
  let pending := two_pending in
  Debouncer.flushed jsstring
    (Debouncer.enqueue jsstring picky_debouncer (js "/stop") pending).2
  = [[js "one"; js "two"]; [js "/stop"]].
Proof.
  intros pending.
  destruct (debouncer_bypass_flushes_pending_first jsstring picky_debouncer (js "/stop")
              (js "chat:user")
              {| Debouncer.items := [js "one"; js "two"]; Debouncer.timeout := Some 2010 |}
              pending) as (_ & Hflushed & _);
    [reflexivity | discriminate | reflexivity | reflexivity | discriminate |].
  exact Hflushed.
Defined.

(** X18: no empty buffer exists: if every pending buffer holds at least
    one item, has its timer running and sits under a non-empty key, the same
    is true after [enqueue], after [flushKey] and after a timer callback. *)
Theorem debouncer_buffers_stay_well_formed
  (T : Type) (options : Debouncer.DebouncerOptions T) (st : Debouncer.state T) :
  let well_formed (s : Debouncer.state T) :=
    forall k b, Debouncer.buffers T s !! k = Some b ->
      Debouncer.items T b <> [] /\ is_Some (Debouncer.timeout T b) /\ k <> [] in
  well_formed st ->
  (forall item, well_formed (Debouncer.enqueue T options item st).2)
  /\ (forall key, well_formed (Debouncer.flushKey T options key st).2)
  /\ (forall key, well_formed (Debouncer.on_timeout T options key st)).
Proof.
  intros well_formed Hwf.
  assert (forall key (s : Debouncer.state T),
            Debouncer.buffers T s = delete key (Debouncer.buffers T st) -> well_formed s)
    as Hdelete.
  { intros key s Heq k b. rewrite Heq. intros [_ Hb]%lookup_delete_Some. by apply Hwf. }
  assert (forall s : Debouncer.state T,
            Debouncer.buffers T s = Debouncer.buffers T st -> well_formed s) as Hsame.
  { intros s Heq k b. rewrite Heq. apply Hwf. }
  split_and!.
  - intros item.
    destruct (enqueue_buffers T options item st)
      as [(k & Hk & Heq) | [_ [Heq | [k Heq]]]]; [| by apply Hsame | by apply (Hdelete k)].
    intros k' b. rewrite Heq.
    destruct (decide (k' = k)) as [-> | Hne].
    + rewrite lookup_insert_eq. intros [= <-]. cbn.
      apply debounced_key_Some in Hk as (_ & Hk & _).
      split_and!; [| eauto | done]. by intros [_ ?]%app_eq_nil.
    + rewrite lookup_insert_ne by done. apply Hwf.
  - intros key. apply (Hdelete key), flushKey_buffers.
  - intros key. destruct (on_timeout_buffers T options key st) as [Heq | Heq];
      [by apply Hsame | by apply (Hdelete key)].
Qed.

Lemma debouncer_buffers_stay_well_formed_witness :
  let b := {| Debouncer.items := [js "one"]; Debouncer.timeout := Some 2000 |} in
  Debouncer.buffers jsstring
    (Debouncer.enqueue jsstring quiet_debouncer (js "one") idle_debouncer).2
    !! js "chat:user" = Some b
  /\ Debouncer.items jsstring b <> [] /\ is_Some (Debouncer.timeout jsstring b)
  /\ js "chat:user" <> [].
Proof.
  intros b. split; [reflexivity |].
  destruct (debouncer_buffers_stay_well_formed jsstring quiet_debouncer idle_debouncer)
    as (Henqueue & _).
  - intros k b' Hb. vm_compute in Hb. discriminate.
  - apply (Henqueue (js "one") (js "chat:user") b). reflexivity.
Defined.

(** X19: [flushKey] never rejects, whatever the batch handler does, as
    long as the error callback, when there is one, returns normally (the
    model records the calls of [onError] and takes their return for
    granted); it removes the buffer of its key and leaves the other buffers
    alone; it calls the handler at most once; and flushing the same key
    again does nothing. *)
Theorem debouncer_flushKey_settles_and_is_idempotent
  (T : Type) (options : Debouncer.DebouncerOptions T) (key : jsstring)
  (st : Debouncer.state T) :
  let flushed_once := (Debouncer.flushKey T options key st).2 in
  (Debouncer.flushKey T options key st).1 = Fulfilled tt
  /\ Debouncer.buffers T flushed_once = delete key (Debouncer.buffers T st)
  /\ (Debouncer.flushed T flushed_once = Debouncer.flushed T st
      \/ exists b, Debouncer.buffers T st !! key = Some b
                   /\ Debouncer.flushed T flushed_once
                      = Debouncer.flushed T st ++ [Debouncer.items T b])
  /\ Debouncer.flushKey T options key flushed_once = (Fulfilled tt, flushed_once).
Proof.
  intros flushed_once. split_and!.
  - apply flushKey_fulfilled.
  - apply flushKey_buffers.
  - unfold flushed_once, Debouncer.flushKey.
    destruct (Debouncer.buffers T st !! key) as [b |] eqn:Hb; [| by left].
    unfold Debouncer.flushBuffer, Debouncer.call_onFlush, Debouncer.call_onError.
    destruct (length (Debouncer.items T b) =? 0)%nat; [by left |].
    right. exists b. split; [done |].
    destruct (Debouncer.onFlush T options (Debouncer.items T b)); [done |].
    by destruct (Debouncer.onError T options).
  - unfold Debouncer.flushKey at 1.
    unfold flushed_once. rewrite flushKey_buffers, lookup_delete_eq. done.
Qed.

(** ** Address helpers *)

Section JidFacts.
Import Jid.

Lemma skip_line_none (s : jsstring) :
  Forall (fun c => is_line_terminator c = false) s -> skip_line s = [].
Proof.
  induction 1 as [| c s Hc _ IH]; [done |]. cbn [skip_line]. by rewrite Hc.
Qed.

Lemma strip_domain_at (user rest : jsstring) :
  Forall (fun c => c <> 64%N) user ->
  strip_domain (user ++ 64%N :: rest) = user ++ skip_line rest.
Proof.
  induction 1 as [| c user Hc _ IH]; [done |]. cbn [app strip_domain].
  destruct (N.eqb_spec c 64); [done |]. by rewrite IH.
Qed.

Lemma strip_device_none (s : jsstring) :
  Forall (fun c => c <> 58%N) s -> strip_device s = s.
Proof.
  induction 1 as [| c s Hc _ IH]; [done |]. cbn [strip_device].
  destruct (N.eqb_spec c 58); [done |]. simpl. by rewrite IH.
Qed.

Lemma strip_device_suffix (user device : jsstring) :
  Forall (fun c => c <> 58%N) user -> device <> [] ->
  forallb is_digit device = true ->
  strip_device (user ++ 58%N :: device) = user.
Proof.
  intros Huser Hne Hdigits. induction Huser as [| c user Hc _ IH].
  - cbn [app strip_device]. rewrite N.eqb_refl, (truthy_nonempty _ Hne), Hdigits. done.
  - cbn [app strip_device]. destruct (N.eqb_spec c 58); [done |]. simpl. by rewrite IH.
Qed.

Lemma digit_is_not_at (device : jsstring) :
  forallb is_digit device = true -> Forall (fun c => c <> 64%N) device.
Proof.
  intros Hdigits. apply Forall_forall. intros c Hc%list_elem_of_In ->.
  by rewrite forallb_forall in Hdigits; specialize (Hdigits _ Hc).
Qed.

End JidFacts.

(** X20: [jidToE164] gives back the number an address was built from: for
    a number without [@] and [:] and a domain without line breaks, both
    [number@domain] and [number:device@domain] (the device being digits) are
    mapped to [number]. *)
Theorem jidToE164_recovers_number (number device domain : jsstring) :
  Forall (fun c => c <> 64%N /\ c <> 58%N) number ->
  Forall (fun c => Jid.is_line_terminator c = false) domain ->
  Jid.jidToE164 (number ++ 64%N :: domain) = number
  /\ (device <> [] -> forallb is_digit device = true ->
        Jid.jidToE164 (number ++ 58%N :: device ++ 64%N :: domain) = number).
Proof.
  intros Hnumber Hdomain.
  assert (Forall (fun c => c <> 64%N) number) as Hat
    by (eapply Forall_impl; [exact Hnumber | by intros c [? ?]]).
  assert (Forall (fun c => c <> 58%N) number) as Hcolon
    by (eapply Forall_impl; [exact Hnumber | by intros c [? ?]]).
  unfold Jid.jidToE164. split.
  - rewrite strip_domain_at, skip_line_none, app_nil_r by done.
    by apply strip_device_none.
  - intros Hne Hdigits.
    replace (number ++ 58%N :: device ++ 64%N :: domain)
      with ((number ++ 58%N :: device) ++ 64%N :: domain)
      by (by rewrite <- app_assoc).
    rewrite strip_domain_at, skip_line_none, app_nil_r; [| done |].
    + by apply strip_device_suffix.
    + apply Forall_app. split; [done |]. constructor; [done |].
      by apply digit_is_not_at.
Qed.

(** The address [resolveSendJid] builds for the bot itself leads back to
    the bot's number. *)
Lemma jidToE164_recovers_number_witness :
  Jid.jidToE164 (js "15551234567" ++ js "@s.whatsapp.net") = js "15551234567"
  /\ Jid.jidToE164 (js "15551234567:50@s.whatsapp.net") = js "15551234567".
Proof.
  destruct (jidToE164_recovers_number (js "15551234567") (js "50") (js "s.whatsapp.net"))
    as [Hplain Hdevice].
  - vm_compute. repeat constructor; discriminate.
  - vm_compute. repeat constructor.
  - split; [exact Hplain |]. apply Hdevice; [discriminate | reflexivity].
Defined.

(** The address classes do not overlap: no address counts both as a
    group and as a status or broadcast channel, and a missing or empty
    address belongs to neither. *)
Theorem group_and_broadcast_are_disjoint (remoteJid : option jsstring) :
  (Jid.isGroupJid remoteJid && Jid.isStatusOrBroadcast remoteJid = false)
  /\ (truthy_opt remoteJid = false ->
        Jid.isGroupJid remoteJid = false /\ Jid.isStatusOrBroadcast remoteJid = false).
Proof.
  split.
  - destruct remoteJid as [j |]; [| done]. unfold Jid.isGroupJid, Jid.isStatusOrBroadcast.
    destruct (truthy j); [| done]. cbn [negb]. unfold Jid.ends_with.
    set (group := rev (js "@g.us")). set (status := rev (js "@status")).
    set (broadcast := rev (js "@broadcast")).
    vm_compute in group, status, broadcast. subst group status broadcast.
    destruct (rev j) as [| c1 r]; [done |]. cbn [starts_with].
    destruct (N.eqb_spec 115 c1) as [<- | _]; [| done].
    destruct r as [| c2 r]; [done |]. cbn [starts_with].
    destruct (N.eqb_spec 117 c2) as [<- | _]; [| done].
    destruct r as [| c3 r]; [done |]. cbn [starts_with].
    destruct (N.eqb_spec 46 c3) as [<- | _]; [| done].
    cbn. apply andb_false_r.
  - intros Hfalsy. destruct remoteJid as [[| c j] |]; done.
Qed.

Lemma group_and_broadcast_are_disjoint_witness :
  Jid.isGroupJid (Some []) = false /\ Jid.isStatusOrBroadcast (Some []) = false.
Proof.
  destruct (group_and_broadcast_are_disjoint (Some [])) as [_ Hfalsy].
  apply Hfalsy. reflexivity.
Defined.

(** ** Sending *)

Section SendFacts.
Import Outbound Send.

(** Where an address returned by [resolveSendJid] comes from. *)
Lemma resolveSendJid_sources (chatId resolved : jsstring) (sock : WASocket)
  (lidMapper : LidMapper) :
  resolveSendJid chatId sock lidMapper = Fulfilled resolved ->
  (isLid (Some chatId) = false /\ resolved = chatId)
  \/ (chatId = selfChatLid lidMapper /\ myNumber lidMapper <> []
      /\ resolved = myNumber lidMapper ++ js "@s.whatsapp.net")
  \/ signal_lookup sock chatId = Some resolved
  \/ lidToJid lidMapper !! chatId = Some resolved.
Proof.
  unfold resolveSendJid. destruct (isLid (Some chatId)); cbn [negb].
  - destruct (jsstring_eqb chatId (selfChatLid lidMapper) && truthy (myNumber lidMapper))
      eqn:Hself.
    + apply andb_true_iff in Hself as [Heq Hnum]. intros [= <-].
      right; left. split_and!; [by apply jsstring_eqb_eq | | done].
      intros Hempty. by rewrite Hempty in Hnum.
    + destruct (truthy_opt (signal_lookup sock chatId)) eqn:Hsig.
      * apply truthy_opt_Some in Hsig as (s & Hs & _). rewrite Hs. simpl.
        intros [= <-]. by right; right; left.
      * destruct (truthy_opt (lidToJid lidMapper !! chatId)) eqn:Hman; [| done].
        apply truthy_opt_Some in Hman as (s & Hs & _). rewrite Hs. simpl.
        intros [= <-]. by right; right; right.
  - intros [= <-]. by left.
Qed.

Lemma track_calls (result : option SentMessage) (st : state) :
  calls (track result st).2 = calls st.
Proof.
  unfold track. destruct (truthy _); [| done].
  by destruct result as [r |], (messageStore st) as [store |].
Qed.
End SendFacts.

(** X22: sending never guesses: every call [sendWhatsAppMessage] makes on
    the socket is addressed to the chat identifier itself when that is not a
    linked identifier, to the bot's own address for the self-chat
    identifier, or to the entry of one of the two mappings; and when the
    identifier cannot be resolved, the send is rejected without any call on
    the socket and without any change of state. *)
Theorem send_only_to_resolved_address
  (sock : Send.Socket) (msg : Send.OutboundMessage)
  (lidMapper : Outbound.LidMapper) (st : Send.state) :
  let chatId := Send.chatId msg in
  let r := Send.sendWhatsAppMessage (Some sock) msg lidMapper st in
  (forall e, Outbound.resolveSendJid chatId (Send.wa sock) lidMapper = Rejected e ->
             r = (Rejected (Send.Unresolved e), st))
  /\ exists made,
       Send.calls r.2 = Send.calls st ++ made
       /\ forall call, call ∈ made ->
            let target :=
              match call with Send.Presence _ j => j | Send.Text j _ => j end in
            (Outbound.isLid (Some chatId) = false /\ target = chatId)
            \/ (chatId = Outbound.selfChatLid lidMapper
                /\ Outbound.myNumber lidMapper <> []
                /\ target = Outbound.myNumber lidMapper ++ js "@s.whatsapp.net")
            \/ Outbound.signal_lookup (Send.wa sock) chatId = Some target
            \/ Outbound.lidToJid lidMapper !! chatId = Some target.
Proof.
  intros chatId r. unfold r, Send.sendWhatsAppMessage. fold chatId.
  destruct (Outbound.resolveSendJid chatId (Send.wa sock) lidMapper)
    as [targetJid | e] eqn:Hresolve.
  - split; [done |].
    exists [Send.Presence "composing" targetJid; Send.Text targetJid (Send.text msg)].
    split.
    + destruct (Send.sendMessage sock targetJid (Send.text msg)) as [result | err].
      * destruct (Send.track result _) as [messageId st3] eqn:Htrack.
        cbn [snd]. replace st3 with (Send.track result
          (Send.record_call (Send.Text targetJid (Send.text msg))
             (Send.record_call (Send.Presence "composing" targetJid) st))).2
          by (by rewrite Htrack).
        rewrite track_calls. cbn. by rewrite <- app_assoc.
      * cbn. by rewrite <- app_assoc.
    + intros call Hcall. apply resolveSendJid_sources in Hresolve.
      apply elem_of_cons in Hcall as [-> | Hcall]; [done |].
      apply list_elem_of_singleton in Hcall as ->. done.
  - split; [by intros e' [= <-] |]. exists []. split; [by rewrite app_nil_r | ].
    by intros call ?%elem_of_nil.
Qed.

Lemma send_only_to_resolved_address_witness :
  Send.sendWhatsAppMessage (Some accepting_socket)
    {| Send.chatId := js "999@lid"; Send.text := js "hello" |}
    bot_mapper idle_sender
  = (Rejected (Send.Unresolved Outbound.UnknownLid), idle_sender).
Proof.
  destruct (send_only_to_resolved_address accepting_socket
              {| Send.chatId := js "999@lid"; Send.text := js "hello" |}
              bot_mapper idle_sender) as [Hblocked _].
  apply Hblocked. reflexivity.
Defined.

(** X23: self-echo bookkeeping: when the socket accepts a message and
    returns a non-empty id, the send is fulfilled with that id, the id is in
    [sentMessageIds], its removal is armed for 60 seconds later, and -- if
    there is a message store -- the sent message is stored under the id;
    when the socket returns no id, the send is fulfilled with the empty id
    and nothing is tracked. *)
Theorem send_tracks_message_id
  (sock : Send.Socket) (msg : Send.OutboundMessage)
  (lidMapper : Outbound.LidMapper) (st : Send.state)
  (targetJid : jsstring) (result : option Send.SentMessage) :
  Outbound.resolveSendJid (Send.chatId msg) (Send.wa sock) lidMapper = Fulfilled targetJid ->
  Send.sendMessage sock targetJid (Send.text msg) = Fulfilled result ->
  let r := Send.sendWhatsAppMessage (Some sock) msg lidMapper st in
  (forall sent messageId,
     result = Some sent -> Send.key_id sent = Some messageId -> messageId <> [] ->
     r.1 = Fulfilled messageId
     /\ messageId ∈ Send.sentMessageIds r.2
     /\ Send.ForgetSent 60000 messageId ∈ Send.timers r.2
     /\ (forall store, Send.messageStore st = Some store ->
           Send.messageStore r.2 = Some (<[messageId := sent]> store)))
  /\ ((forall sent, result = Some sent -> truthy_opt (Send.key_id sent) = false) ->
        r.1 = Fulfilled []
        /\ Send.sentMessageIds r.2 = Send.sentMessageIds st
        /\ Send.messageStore r.2 = Send.messageStore st
        /\ Send.timers r.2 = Send.timers st).
Proof.
  intros Hresolve Hsend r. unfold r, Send.sendWhatsAppMessage.
  rewrite Hresolve, Hsend. split.
  - intros sent messageId -> Hid Hne. unfold Send.track. rewrite Hid. simpl truthy_opt.
    rewrite (truthy_nonempty _ Hne). cbn [default from_option id].
    rewrite (truthy_nonempty _ Hne).
    cbn [Send.record_call Send.messageStore Send.sentMessageIds Send.timers Send.calls].
    destruct (Send.messageStore st) as [store |]; cbn; split_and!; try done;
      try set_solver.
  - intros Hnoid. unfold Send.track.
    destruct result as [sent |]; [rewrite (Hnoid sent eq_refl) |]; done.
Qed.

Lemma send_tracks_message_id_witness :
  let r :=
    Send.sendWhatsAppMessage (Some accepting_socket)
      {| Send.chatId := js "15550001111@s.whatsapp.net"; Send.text := js "hello" |}
      bot_mapper idle_sender in
  r.1 = Fulfilled (js "MSG1")
  /\ js "MSG1" ∈ Send.sentMessageIds r.2
  /\ Send.ForgetSent 60000 (js "MSG1") ∈ Send.timers r.2.
Proof.
  intros r.
  destruct (send_tracks_message_id accepting_socket
              {| Send.chatId := js "15550001111@s.whatsapp.net"; Send.text := js "hello" |}
              bot_mapper idle_sender (js "15550001111@s.whatsapp.net")
              (Some {| Send.key_id := Some (js "MSG1") |})) as [Htracked _];
    [reflexivity | reflexivity |].
  destruct (Htracked {| Send.key_id := Some (js "MSG1") |} (js "MSG1"))
    as (Hid & Hsent & Htimer & _); [reflexivity | reflexivity | discriminate |].
  split_and!; [exact Hid | exact Hsent | exact Htimer].
Defined.

(** ** Mention detector: further properties *)

Section MentionFacts.
Import Mentions.

Lemma includes_nil (s : jsstring) : includes [] s = true.
Proof. by destruct s. Qed.

Lemma match_device_suffix_no_colon (c : N) (s : jsstring) :
  c <> 58%N -> match_device_suffix (c :: s) = None.
Proof. intros Hc. unfold match_device_suffix. by destruct (N.eqb_spec c 58). Qed.

Lemma remove_device_suffix_none (s : jsstring) :
  Forall (fun c => c <> 58%N) s -> remove_device_suffix s = s.
Proof.
  induction 1 as [| c s Hc _ IH]; [done |].
  cbn [remove_device_suffix]. rewrite match_device_suffix_no_colon by done.
  by rewrite IH.
Qed.

Lemma span_digits_device (device rest : jsstring) :
  forallb is_digit device = true ->
  span_digits (device ++ 64%N :: rest) = (device, 64%N :: rest).
Proof.
  induction device as [| d device IH]; [done |]. cbn [forallb app span_digits].
  intros [Hd Hrest]%andb_true_iff. by rewrite Hd, IH.
Qed.

Lemma remove_device_suffix_device (user device rest : jsstring) :
  Forall (fun c => c <> 58%N) user -> device <> [] ->
  forallb is_digit device = true ->
  remove_device_suffix (user ++ 58%N :: device ++ 64%N :: rest) = user ++ 64%N :: rest.
Proof.
  intros Huser Hne Hdigits. induction Huser as [| c user Hc _ IH].
  - cbn [app remove_device_suffix match_device_suffix]. rewrite N.eqb_refl.
    rewrite span_digits_device by done. by destruct device.
  - cbn [app remove_device_suffix]. rewrite match_device_suffix_no_colon by done.
    by rewrite IH.
Qed.
End MentionFacts.

(** X24: the result of [detectMention] is consistent: a mention is reported
    exactly when a detection method is named, a mention is implicit exactly
    when that method is the reply check, and an implicit mention is always a
    mention. *)
Theorem detectMention_result_is_consistent
  (regexp_test_i : jsstring -> jsstring -> option bool) (p : Mentions.Params) :
  let r := Mentions.detectMention regexp_test_i p in
  (Mentions.wasMentioned r = true <-> Mentions.method r <> None)
  /\ (Mentions.implicitMention r = true <-> Mentions.method r = Some Mentions.reply)
  /\ (Mentions.implicitMention r = true -> Mentions.wasMentioned r = true).
Proof.
  intros r. unfold r, Mentions.detectMention, Mentions.detect_by_text.
  destruct (match Mentions.mentionedJids p with Some l => _ | None => false end).
  - destruct (existsb _ _); cbn; split_and!; try done; split; done.
  - destruct (Mentions.any_pattern_matches _ _ _);
      [| destruct (Mentions.e164_in_body _ _); [| destruct (Mentions.isReplyToBot _)]];
      cbn; split_and!; try done; split; done.
Qed.

(** X25: a native mention of the bot is recognised whatever device it
    names: if the bot's address [user@domain] contains no colon, a mention
    list that contains [user:device@domain], for any device number, makes
    [detectMention] report an explicit mention by address -- whatever the
    text, the patterns and the reply context are. *)
Theorem detectMention_ignores_device_suffix
  (regexp_test_i : jsstring -> jsstring -> option bool) (p : Mentions.Params)
  (user domain device : jsstring) (mentioned : list jsstring) :
  user <> [] ->
  Forall (fun c => c <> 58%N) (user ++ 64%N :: domain) ->
  device <> [] -> forallb is_digit device = true ->
  Mentions.selfJid (Mentions.config p) = Some (user ++ 64%N :: domain) ->
  Mentions.mentionedJids p = Some mentioned ->
  user ++ 58%N :: device ++ 64%N :: domain ∈ mentioned ->
  Mentions.detectMention regexp_test_i p
  = {| Mentions.wasMentioned := true; Mentions.implicitMention := false;
       Mentions.method := Some Mentions.jid |}.
Proof.
  intros Huser Hcolon Hdevice Hdigits Hself Hlist Hin.
  unfold Mentions.detectMention. rewrite Hlist.
  destruct mentioned as [| j rest]; [by apply elem_of_nil in Hin |].
  change (0 <? length (j :: rest))%nat with true. cbv iota beta zeta.
  change (default [] (Some (j :: rest))) with (j :: rest).
  replace (existsb (Mentions.mentions_self (Mentions.config p)) (j :: rest)) with true;
    [done |].
  symmetry. apply existsb_exists.
  exists (user ++ 58%N :: device ++ 64%N :: domain).
  split; [by apply list_elem_of_In |].
  unfold Mentions.mentions_self. rewrite Hself. apply orb_true_iff. left.
  apply bool_decide_eq_true. unfold Mentions.normalizeJid.
  assert (Forall (fun c => c <> 58%N) user) as Huser_colon
    by (by apply Forall_app in Hcolon as [? _]).
  replace (truthy (user ++ 58%N :: device ++ 64%N :: domain)) with true
    by (by destruct user).
  replace (truthy (user ++ 64%N :: domain)) with true by (by destruct user).
  cbn [negb]. rewrite remove_device_suffix_device by done.
  by rewrite remove_device_suffix_none.
Qed.

Lemma detectMention_ignores_device_suffix_witness :
  Mentions.detectMention (fun _ _ => None)
    {| Mentions.body := js "hello";
       Mentions.mentionedJids :=
         Some [js "9876543210@s.whatsapp.net"; js "15551234567:25@s.whatsapp.net"];
       Mentions.replyToSenderJid := None; Mentions.replyToSenderE164 := None;
       Mentions.config :=
         {| Mentions.mentionPatterns := [];
            Mentions.selfE164 := None;
            Mentions.selfJid := Some (js "15551234567@s.whatsapp.net");
            Mentions.selfLid := None |} |}
  = {| Mentions.wasMentioned := true; Mentions.implicitMention := false;
       Mentions.method := Some Mentions.jid |}.
Proof.
  apply (detectMention_ignores_device_suffix (fun _ _ => None) _
           (js "15551234567") (js "s.whatsapp.net") (js "25")
           [js "9876543210@s.whatsapp.net"; js "15551234567:25@s.whatsapp.net"]).
  - discriminate.
  - vm_compute. repeat constructor; discriminate.
  - discriminate.
  - reflexivity.
  - reflexivity.
  - reflexivity.
  - vm_compute. right. left.
Defined.

(** X26: the pattern check succeeds exactly when some configured pattern
    compiles and matches the text: a malformed pattern neither counts as a
    match nor keeps the patterns after it from being tried. *)
Theorem mention_patterns_skip_invalid
  (regexp_test_i : jsstring -> jsstring -> option bool)
  (patterns : list jsstring) (bodyClean : jsstring) :
  Mentions.any_pattern_matches regexp_test_i patterns bodyClean = true
  <-> exists pattern, pattern ∈ patterns /\ regexp_test_i pattern bodyClean = Some true.
Proof.
  induction patterns as [| pattern patterns IH]; cbn [Mentions.any_pattern_matches].
  - split; [done | by intros (? & ?%elem_of_nil & _)].
  - destruct (regexp_test_i pattern bodyClean) as [[|] |] eqn:Htest.
    + split; [intros _; exists pattern; split; [left | done] | done].
    + rewrite IH. split.
      * intros (q & Hq & Hmatch). exists q. split; [by right | done].
      * intros (q & [-> | Hq]%elem_of_cons & Hmatch); [congruence |]. by exists q.
    + rewrite IH. split.
      * intros (q & Hq & Hmatch). exists q. split; [by right | done].
      * intros (q & [-> | Hq]%elem_of_cons & Hmatch); [congruence |]. by exists q.
Qed.

(** X27: a configured phone number without any digit (such as a lone [+])
    makes the phone-number check succeed on every text: when no native
    mention list is given, every message counts as an explicit mention. *)
Theorem digitless_phone_number_matches_every_text
  (regexp_test_i : jsstring -> jsstring -> option bool) (p : Mentions.Params)
  (e : jsstring) :
  Mentions.selfE164 (Mentions.config p) = Some e -> e <> [] ->
  List.filter is_digit e = [] ->
  Mentions.mentionedJids p = None \/ Mentions.mentionedJids p = Some [] ->
  let r := Mentions.detectMention regexp_test_i p in
  Mentions.wasMentioned r = true /\ Mentions.implicitMention r = false
  /\ (Mentions.method r = Some Mentions.regex \/ Mentions.method r = Some Mentions.e164).
Proof.
  intros Hself Hne Hdigits Hlist r. unfold r, Mentions.detectMention.
  assert (match Mentions.mentionedJids p with
          | Some l => (0 <? length l)%nat
          | None => false
          end = false) as -> by (by destruct Hlist as [-> | ->]).
  unfold Mentions.detect_by_text.
  destruct (Mentions.any_pattern_matches _ _ _); [cbn; auto |].
  unfold Mentions.e164_in_body. rewrite Hself, (truthy_nonempty _ Hne), Hdigits.
  rewrite includes_nil. cbn. auto.
Qed.

Lemma digitless_phone_number_matches_every_text_witness :
  Mentions.wasMentioned
    (Mentions.detectMention (fun _ _ => Some false)
       {| Mentions.body := js "good morning everyone";
          Mentions.mentionedJids := None;
          Mentions.replyToSenderJid := None; Mentions.replyToSenderE164 := None;
          Mentions.config :=
            {| Mentions.mentionPatterns := [js "@?bot"];
               Mentions.selfE164 := Some (js "+");
               Mentions.selfJid := None; Mentions.selfLid := None |} |}) = true.
Proof.
  eapply (digitless_phone_number_matches_every_text (fun _ _ => Some false) _ (js "+")).
  - reflexivity.
  - discriminate.
  - reflexivity.
  - by left.
Defined.

(** ** Group gating *)

(** X28: the decision of [applyGroupGating] in one formula: a message is
    processed exactly when its group passes the allowlist (no groups are
    configured, or the group or the wildcard is) and either the group does
    not require a mention or [detectMention] reports one; a processed
    message carries no reason and a skipped one carries one. *)
Theorem group_gating_decision
  (regexp_test_i : jsstring -> jsstring -> option bool)
  (params : Gating.GroupGatingParams) :
  let groups := default ∅ (Gating.groupsConfig params) in
  let allowed :=
    bool_decide (groups = ∅)
    || bool_decide (is_Some (groups !! js "*"))
    || bool_decide (is_Some (groups !! Gating.groupJid params)) in
  let required := Gating.resolve_requireMention groups (Gating.groupJid params) in
  let mentioned :=
    Mentions.wasMentioned (Mentions.detectMention regexp_test_i (detection_input params)) in
  let r := Gating.applyGroupGating regexp_test_i params in
  Gating.shouldProcess r = allowed && (negb required || mentioned)
  /\ (Gating.shouldProcess r = true <-> Gating.reason r = None)
  /\ (Gating.wasMentioned r = Some true -> Gating.shouldProcess r = true /\ mentioned = true).
Proof.
  intros groups allowed required mentioned r.
  unfold r, Gating.applyGroupGating. fold groups. fold (detection_input params).
  fold required mentioned.
  assert ((0 <? size groups)%nat = negb (bool_decide (groups = ∅))) as ->.
  { destruct (decide (groups = ∅)) as [-> | Hne].
    - by rewrite map_size_empty, bool_decide_eq_true_2.
    - rewrite bool_decide_eq_false_2 by done. simpl. apply Nat.ltb_lt.
      apply map_size_non_empty_iff in Hne. lia. }
  unfold allowed.
  destruct (bool_decide (groups = ∅)), (bool_decide (is_Some (groups !! js "*"))),
    (bool_decide (is_Some (groups !! Gating.groupJid params))), required, mentioned;
    cbn; split_and!; try done; split; done.
Qed.

(** X29: with an allowlist configured, a group that is neither listed nor
    covered by a wildcard is turned away with the reason
    "group-not-in-allowlist", whatever the message contains. *)
Theorem group_outside_allowlist_is_dropped
  (regexp_test_i : jsstring -> jsstring -> option bool)
  (params : Gating.GroupGatingParams) (groups : gmap jsstring Gating.GroupConfig) :
  Gating.groupsConfig params = Some groups ->
  groups <> ∅ ->
  groups !! Gating.groupJid params = None ->
  groups !! js "*" = None ->
  Gating.applyGroupGating regexp_test_i params
  = {| Gating.shouldProcess := false; Gating.wasMentioned := None;
       Gating.reason := Some "group-not-in-allowlist"%string |}.
Proof.
  intros Hconfig Hne Hgroup Hwild. unfold Gating.applyGroupGating.
  rewrite Hconfig. cbn [default from_option id]. rewrite Hgroup, Hwild.
  apply map_size_non_empty_iff in Hne.
  replace (0 <? size groups)%nat with true by (symmetry; apply Nat.ltb_lt; lia).
  rewrite !bool_decide_eq_false_2 by (by intros [? ?]). done.
Qed.

Lemma group_outside_allowlist_is_dropped_witness :
  Gating.applyGroupGating (fun _ _ => Some true) (plain_group_message (Some other_group_only))
  = {| Gating.shouldProcess := false; Gating.wasMentioned := None;
       Gating.reason := Some "group-not-in-allowlist"%string |}.
Proof.
  apply (group_outside_allowlist_is_dropped (fun _ _ => Some true)
           (plain_group_message (Some other_group_only)) other_group_only).
  - reflexivity.
  - vm_compute. discriminate.
  - reflexivity.
  - reflexivity.
Defined.

(** X30: the setting of a group takes precedence over the wildcard: a
    group configured with [requireMention: false] has every message
    processed without mention detection, even under a wildcard that requires
    a mention; a group configured with [requireMention: true] needs a
    mention even under a wildcard that does not. *)
Theorem group_setting_overrides_wildcard
  (regexp_test_i : jsstring -> jsstring -> option bool)
  (params : Gating.GroupGatingParams) (groups : gmap jsstring Gating.GroupConfig)
  (own : bool) :
  Gating.groupsConfig params = Some groups ->
  groups !! Gating.groupJid params = Some {| Gating.requireMention := Some own |} ->
  let r := Gating.applyGroupGating regexp_test_i params in
  (own = false ->
     r = {| Gating.shouldProcess := true; Gating.wasMentioned := Some false;
            Gating.reason := None |})
  /\ (own = true ->
        Gating.shouldProcess r
        = Mentions.wasMentioned
            (Mentions.detectMention regexp_test_i (detection_input params))).
Proof.
  intros Hconfig Hgroup r. unfold r, Gating.applyGroupGating.
  fold (detection_input params).
  rewrite Hconfig. cbn [default from_option id]. rewrite Hgroup.
  rewrite (bool_decide_eq_true_2 (is_Some (Some _))) by eauto.
  rewrite andb_false_r. unfold Gating.resolve_requireMention. rewrite Hgroup.
  cbn [mbind option_bind Gating.requireMention].
  split; intros ->; cbn [negb]; [done |].
  by destruct (Mentions.wasMentioned _).
Qed.

Lemma group_setting_overrides_wildcard_witness :
  Gating.applyGroupGating (fun _ _ => Some false)
    (plain_group_message (Some wildcard_with_exception))
  = {| Gating.shouldProcess := true; Gating.wasMentioned := Some false;
       Gating.reason := None |}
  /\ Gating.applyGroupGating (fun _ _ => Some false)
       (plain_group_message (Some wildcard_only))
     = {| Gating.shouldProcess := false; Gating.wasMentioned := Some false;
          Gating.reason := Some "mention-required"%string |}.
Proof.
  split; [| reflexivity].
  destruct (group_setting_overrides_wildcard (fun _ _ => Some false)
              (plain_group_message (Some wildcard_with_exception))
              wildcard_with_exception false) as [Hoff _];
    [reflexivity | reflexivity |].
  by apply Hoff.
Defined.

(** ** Phone numbers *)

Section PhoneFacts.
Import Phone.

Lemma digit_not_space (c : N) : is_digit c = true -> Mentions.is_js_space c = false.
Proof.
  unfold is_digit, Mentions.is_js_space. intros [Hlo Hhi]%andb_true_iff.
  apply N.leb_le in Hlo, Hhi.
  repeat match goal with
         | |- context [N.leb ?a ?b] => destruct (N.leb_spec a b); try lia
         | |- context [N.eqb ?a ?b] => destruct (N.eqb_spec a b); try lia
         end; done.
Qed.

Lemma trim_start_keeps (c : N) (s : jsstring) :
  Mentions.is_js_space c = false -> Mentions.trim_start (c :: s) = c :: s.
Proof. intros Hc. cbn [Mentions.trim_start]. by rewrite Hc. Qed.

(** A text that neither starts nor ends with white space is its own trim. *)
Lemma trim_keeps (first last : N) (middle : jsstring) :
  Mentions.is_js_space first = false -> Mentions.is_js_space last = false ->
  Mentions.trim (first :: middle ++ [last]) = first :: middle ++ [last].
Proof.
  intros Hfirst Hlast. unfold Mentions.trim. rewrite trim_start_keeps by done.
  change (first :: middle ++ [last]) with ((first :: middle) ++ [last]).
  rewrite rev_app_distr. cbn [rev app]. rewrite trim_start_keeps by done.
  change (last :: rev middle ++ [first]) with ([last] ++ rev (first :: middle)).
  rewrite rev_app_distr, rev_involutive. done.
Qed.

Lemma trim_keeps_single (c : N) :
  Mentions.is_js_space c = false -> Mentions.trim [c] = [c].
Proof. intros Hc. unfold Mentions.trim. cbn. rewrite Hc. cbn. by rewrite Hc. Qed.

(** A text made of digits, possibly after one leading character that is no
    white space, is its own trim. *)
Lemma trim_keeps_digits (lead : jsstring) (digits : jsstring) :
  Forall (fun c => Mentions.is_js_space c = false) lead ->
  forallb is_digit digits = true -> digits <> [] ->
  Mentions.trim (lead ++ digits) = lead ++ digits.
Proof.
  intros Hlead Hdigits Hne.
  assert (Forall (fun c => Mentions.is_js_space c = false) (lead ++ digits)) as Hall.
  { apply Forall_app. split; [done |]. apply Forall_forall.
    intros c Hc%list_elem_of_In. apply digit_not_space.
    by rewrite forallb_forall in Hdigits; apply Hdigits. }
  assert (lead ++ digits <> []) as Hne' by (by destruct lead, digits).
  destruct (lead ++ digits) as [| first rest] eqn:Heq; [done |].
  apply Forall_cons in Hall as [Hfirst Hrest].
  clear Heq Hne'. revert Hrest.
  induction rest as [| c rest _] using rev_ind; intros Hrest.
  - by apply trim_keeps_single.
  - apply Forall_app in Hrest as [_ Hlast]. apply Forall_cons in Hlast as [Hlast _].
    by apply trim_keeps.
Qed.

(** Removing a pattern skips a prefix in which its first code unit does not
    occur. *)
Lemma remove_first_skip (c0 : N) (pattern prefix s : jsstring) :
  Forall (fun c => c <> c0) prefix ->
  remove_first (c0 :: pattern) (prefix ++ s) = prefix ++ remove_first (c0 :: pattern) s.
Proof.
  induction 1 as [| c prefix Hc _ IH]; [done |].
  cbn [app]. rewrite <- IH. cbn [remove_first starts_with].
  destruct (N.eqb_spec c0 c); [congruence | done].
Qed.

Lemma remove_first_absent (c0 : N) (pattern s : jsstring) :
  Forall (fun c => c <> c0) s -> remove_first (c0 :: pattern) s = s.
Proof.
  intros Hs. rewrite <- (app_nil_r s) at 1. rewrite remove_first_skip by done.
  by rewrite app_nil_r.
Qed.

Lemma digits_have_no (c0 : N) (digits : jsstring) :
  is_digit c0 = false -> forallb is_digit digits = true ->
  Forall (fun c => c <> c0) digits.
Proof.
  intros Hc0 Hdigits. apply Forall_forall. intros c Hc%list_elem_of_In ->.
  rewrite forallb_forall in Hdigits. specialize (Hdigits _ Hc). congruence.
Qed.

(** The three suffixes are stripped from a number, and nothing else is. *)
Lemma strip_suffixes (lead digits suffix : jsstring) :
  Forall (fun c => c <> 64%N) lead -> forallb is_digit digits = true ->
  suffix = [] \/ suffix = js "@s.whatsapp.net" \/ suffix = js "@g.us" \/ suffix = js "@lid" ->
  remove_first (js "@lid")
    (remove_first (js "@g.us")
       (remove_first (js "@s.whatsapp.net") (lead ++ digits ++ suffix)))
  = lead ++ digits.
Proof.
  intros Hlead Hdigits Hsuffix.
  assert (Forall (fun c => c <> 64%N) (lead ++ digits)) as Hno.
  { apply Forall_app. split; [done |]. by apply digits_have_no. }
  rewrite app_assoc.
  change (js "@lid") with (64%N :: js "lid").
  change (js "@g.us") with (64%N :: js "g.us").
  change (js "@s.whatsapp.net") with (64%N :: js "s.whatsapp.net").
  destruct Hsuffix as [-> | [-> | [-> | ->]]].
  - rewrite app_nil_r. by rewrite !(remove_first_absent 64%N _ (lead ++ digits) Hno).
  - rewrite remove_first_skip by done.
    replace (remove_first (64%N :: js "s.whatsapp.net") (64%N :: js "s.whatsapp.net"))
      with (@nil N) by reflexivity.
    rewrite app_nil_r. by rewrite !(remove_first_absent 64%N _ (lead ++ digits) Hno).
  - rewrite remove_first_skip by done.
    replace (remove_first (64%N :: js "s.whatsapp.net") (64%N :: js "g.us"))
      with (64%N :: js "g.us") by reflexivity.
    rewrite remove_first_skip by done.
    replace (remove_first (64%N :: js "g.us") (64%N :: js "g.us"))
      with (@nil N) by reflexivity.
    rewrite app_nil_r. by rewrite !(remove_first_absent 64%N _ (lead ++ digits) Hno).
  - rewrite remove_first_skip by done.
    replace (remove_first (64%N :: js "s.whatsapp.net") (64%N :: js "lid"))
      with (64%N :: js "lid") by reflexivity.
    rewrite remove_first_skip by done.
    replace (remove_first (64%N :: js "g.us") (64%N :: js "lid"))
      with (64%N :: js "lid") by reflexivity.
    rewrite remove_first_skip by done.
    replace (remove_first (64%N :: js "lid") (64%N :: js "lid"))
      with (@nil N) by reflexivity.
    by rewrite app_nil_r.
Qed.
End PhoneFacts.

(** X21: one stored form per contact: the result of
    [normalizePhoneForStorage] always starts with [+]; and for a number made
    of digits, the bare number, the number with a leading [+], the number
    with one of the suffixes [@s.whatsapp.net], [@g.us] and [@lid], and the
    number with a device suffix [:digits] are all stored as [+number];
    [isSameContact] accepts [number@lid] with [+number] and
    [number@s.whatsapp.net] with [number]. *)
Theorem phone_spellings_are_stored_alike (userId digits device : jsstring) :
  (exists rest, Phone.normalizePhoneForStorage userId = 43%N :: rest)
  /\ (digits <> [] -> forallb is_digit digits = true ->
      let stored := 43%N :: digits in
      Phone.normalizePhoneForStorage digits = stored
      /\ Phone.normalizePhoneForStorage (43%N :: digits) = stored
      /\ Phone.normalizePhoneForStorage (digits ++ js "@s.whatsapp.net") = stored
      /\ Phone.normalizePhoneForStorage (digits ++ js "@g.us") = stored
      /\ Phone.normalizePhoneForStorage (digits ++ js "@lid") = stored
      /\ (device <> [] -> forallb is_digit device = true ->
            Phone.normalizePhoneForStorage (digits ++ 58%N :: device) = stored)
      /\ Phone.isSameContact (digits ++ js "@lid") (43%N :: digits) = true
      /\ Phone.isSameContact (digits ++ js "@s.whatsapp.net") digits = true).
Proof.
  split.
  - unfold Phone.normalizePhoneForStorage, Phone.add_plus.
    destruct (Mentions.trim _) as [| c s]; [by exists [] |].
    destruct (N.eqb_spec c 43) as [-> | _]; eauto.
  - intros Hne Hdigits stored.
    assert (forall lead suffix,
              Forall (fun c => c <> 64%N /\ c <> 58%N /\ Mentions.is_js_space c = false) lead ->
              suffix = [] \/ suffix = js "@s.whatsapp.net" \/ suffix = js "@g.us"
              \/ suffix = js "@lid" ->
              Phone.normalizePhoneForStorage (lead ++ digits ++ suffix)
              = Phone.add_plus (lead ++ digits)) as Hform.
    { intros lead suffix Hlead Hsuffix. unfold Phone.normalizePhoneForStorage.
      rewrite strip_suffixes; [| | done | done].
      - rewrite strip_device_none.
        + rewrite trim_keeps_digits; [done | | done | done].
          eapply Forall_impl; [exact Hlead |]. by intros c (_ & _ & ?).
        + apply Forall_app. split; [| by apply digits_have_no].
          eapply Forall_impl; [exact Hlead |]. by intros c (_ & ? & _).
      - eapply Forall_impl; [exact Hlead |]. by intros c (? & _). }
    assert (Phone.add_plus digits = stored) as Hplus.
    { unfold Phone.add_plus, stored. destruct digits as [| d digits']; [done |].
      cbn [forallb] in Hdigits. apply andb_true_iff in Hdigits as [Hd _].
      destruct (N.eqb_spec d 43) as [-> | _]; [discriminate | done]. }
    assert (Phone.normalizePhoneForStorage digits = stored) as Hbare.
    { pose proof (Hform [] []) as Hnone. rewrite app_nil_r in Hnone.
      rewrite <- Hplus. apply Hnone; [constructor | by left]. }
    assert (Phone.normalizePhoneForStorage (43%N :: digits) = stored) as Hplussed.
    { pose proof (Hform [43%N] []) as Hlead. rewrite app_nil_r in Hlead.
      apply Hlead; [by repeat constructor | by left]. }
    assert (forall suffix,
              suffix = js "@s.whatsapp.net" \/ suffix = js "@g.us" \/ suffix = js "@lid" ->
              Phone.normalizePhoneForStorage (digits ++ suffix) = stored) as Hsuffixed.
    { intros suffix Hsuffix. rewrite <- Hplus. by apply (Hform [] suffix); [| right]. }
    assert (Phone.normalizePhoneForStorage (digits ++ js "@lid") = stored) as Hlid
      by (apply Hsuffixed; auto).
    assert (Phone.normalizePhoneForStorage (digits ++ js "@s.whatsapp.net") = stored) as Hdm
      by (apply Hsuffixed; auto).
    split_and!; [done | done | done | by apply Hsuffixed; auto | done | | |].
    + intros Hdevice Hdev_digits. unfold Phone.normalizePhoneForStorage.
      assert (Forall (fun c => c <> 64%N) (digits ++ 58%N :: device)) as Hno.
      { apply Forall_app. split; [by apply digits_have_no |].
        constructor; [done | by apply digits_have_no]. }
      change (js "@lid") with (64%N :: js "lid").
      change (js "@g.us") with (64%N :: js "g.us").
      change (js "@s.whatsapp.net") with (64%N :: js "s.whatsapp.net").
      rewrite !(remove_first_absent 64%N _ (digits ++ 58%N :: device) Hno).
      rewrite strip_device_suffix; [| by apply digits_have_no | done | done].
      rewrite <- (app_nil_l digits) at 1.
      rewrite trim_keeps_digits; [done | constructor | done | done].
    + unfold Phone.isSameContact. rewrite Hlid, Hplussed. apply jsstring_eqb_refl.
    + unfold Phone.isSameContact. rewrite Hdm, Hbare. apply jsstring_eqb_refl.
Qed.

Lemma phone_spellings_are_stored_alike_witness :
  Phone.normalizePhoneForStorage (js "12345678901@lid") = js "+12345678901"
  /\ Phone.normalizePhoneForStorage (js "12345678901:2") = js "+12345678901"
  /\ Phone.isSameContact (js "123@lid") (js "+123") = true.
Proof.
  split_and!.
  - destruct (phone_spellings_are_stored_alike [] (js "12345678901") (js "2"))
      as [_ Hdigits].
    destruct Hdigits as (_ & _ & _ & _ & Hlid & _); [discriminate | reflexivity |].
    exact Hlid.
  - destruct (phone_spellings_are_stored_alike [] (js "12345678901") (js "2"))
      as [_ Hdigits].
    destruct Hdigits as (_ & _ & _ & _ & _ & Hdevice & _); [discriminate | reflexivity |].
    apply Hdevice; [discriminate | reflexivity].
  - destruct (phone_spellings_are_stored_alike [] (js "123") (js "2")) as [_ Hdigits].
    destruct Hdigits as (_ & _ & _ & _ & _ & _ & Hsame & _); [discriminate | reflexivity |].
    exact Hsame.
Defined.
